(** * bashful: the task model, the subprocess runner and the group scheduler

    A shallow embedding of [task.go]: task inflation ([inflate], [Create]),
    the stream split function ([variableSplitFunc]), the runner ([run]),
    the scheduler loop of [Process] with its runner goroutines, the ETA
    simulation ([EstimatedRuntime]) and the three-pass line renderer
    ([Render.String]), followed by the properties of the specification
    that concern them. *)

From Stdlib Require Import ZArith List String Ascii Lia Bool SpecFloat.
From stdpp Require Import base list gmap strings pretty.
Import ListNotations.
Open Scope Z_scope.
Set Warnings "-register-all".

(** ** Go values *)

(** A Go call either returns or panics (an out-of-range slice expression, a
    nil pointer dereference). *)
Inductive outcome (A : Type) : Type :=
| Returns (a : A)
| Panics.
Arguments Returns {A} a.
Arguments Panics {A}.

Module GoInt.

(** [uint] and [int] are 64 bits wide on the platforms the program is
    built for.  A [uint] is a [Z] in [0, 2^64), an [int] a [Z] in
    [-2^63, 2^63). *)
Definition uint_modulus : Z := 2 ^ 64.
Definition int_max : Z := 2 ^ 63 - 1.

(** [a * b] on [uint] wraps around. *)
Definition uint_mul (a b : Z) : Z := (a * b) mod uint_modulus.

(** The conversion [int(u)] of a [uint] keeps the bit pattern. *)
Definition int_of_uint (u : Z) : Z :=
  if u <=? int_max then u else u - uint_modulus.

End GoInt.

Module GoBytes.

Definition newline : Byte.byte := Byte.x0a.
Definition carriage_return : Byte.byte := Byte.x0d.

(** [strings.Index(string(data), sep)] for a separator of one byte: the
    index of its first occurrence, or -1. *)
Fixpoint Index (data : list Byte.byte) (sep : Byte.byte) : Z :=
  match data with
  | [] => -1
  | b :: rest =>
      if Byte.eqb b sep then 0
      else let i := Index rest sep in
           if i <? 0 then -1 else i + 1
  end.

(** The slice expression [data[0:hi]]: it panics unless
    [0 <= hi <= cap(data)]; the buffers handed to a split function are
    sliced within their length. *)
Definition slice_to (data : list Byte.byte) (hi : Z) : outcome (list Byte.byte) :=
  if (0 <=? hi) && (hi <=? Z.of_nat (length data))
  then Returns (take (Z.to_nat hi) data)
  else Panics.

End GoBytes.

Module GoStrings.

(** [strings.Replace(s, old, new, -1)] for a non-empty [old]: the
non-overlapping occurrences of [old] are replaced from left to right.
[skip] counts the bytes of an occurrence still to be dropped. *)
Fixpoint replace_from (old new : string) (skip : nat) (s : string) : string :=
  match s with
  | EmptyString => EmptyString
  | String c rest =>
      match skip with
      | S k => replace_from old new k rest
      | O =>
          if String.prefix old s
          then new +:+ replace_from old new (Nat.pred (String.length old)) rest
          else String c (replace_from old new O rest)
      end
  end.

(** With an empty [old], [new] is inserted in front of the string and after
each of its characters (Go inserts at the boundaries of UTF-8 sequences;
the two agree on ASCII text). *)
Fixpoint insert_after_each (new : string) (s : string) : string :=
  match s with
  | EmptyString => EmptyString
  | String c rest => String c (new +:+ insert_after_each new rest)
  end.

Definition Replace (s old new : string) : string :=
  match old with
  | EmptyString => new +:+ insert_after_each new s
  | String _ _ => replace_from old new O s
  end.

(** [strings.Split(s, sep)] for a separator [sep] of one byte: the
substrings between the separators, one more than there are separators. *)
Fixpoint Split (s : string) (sep : ascii) : list string :=
  match s with
  | EmptyString => [EmptyString]
  | String c rest =>
      if Ascii.eqb c sep then EmptyString :: Split rest sep
      else match Split rest sep with
           | [] => [String c EmptyString]
           | piece :: pieces => String c piece :: pieces
           end
  end.

Definition space : ascii := Ascii.Space.

Definition is_empty (s : string) : bool :=
  match s with EmptyString => true | String _ _ => false end.

End GoStrings.

(** ** The data model *)

(** The three line templates are package variables initialised outside
[task.go]; a task refers to one of them. *)
Inductive Template : Type :=
| lineDefaultTemplate
| lineParallelTemplate
| lineLastParallelTemplate.

Inductive CommandStatus : Type :=
| StatusRunning
| StatusPending
| StatusSuccess
| StatusError.

Module LineInfo.
Record t : Type := mk {
  Status : string;
  Title : string;
  Msg : string;
  Spinner : string;
  Eta : string;
  Split : string
}.
Definition zero : t := mk "" "" "" "" "" "".
End LineInfo.

Module TaskDisplay.
Record t : Type := mk {
  Template : option Template;   (* a nil pointer before inflation *)
  Index : Z;
  Values : LineInfo.t
}.
Definition zero : t := mk None 0 LineInfo.zero.
End TaskDisplay.

(** [exec.Command(name, arg...)]: the command to run and its argument
vector, which starts with the command name. *)
Module ExecCmd.
Record t : Type := mk {
  Path : string;
  Args : list string
}.
Definition Command (name : string) (arg : list string) : t := mk name (name :: arg).
End ExecCmd.

(** Durations and instants are counted in nanoseconds, as [time.Duration]
does; [time.Duration(-1)] marks an unknown estimate. *)
Module TaskCommand.
Record t : Type := mk {
  Cmd : option ExecCmd.t;       (* a nil pointer before inflation *)
  StartTime : Z;
  StopTime : Z;
  EstimatedRuntime : Z;
  Started : bool;
  Complete : bool;
  ReturnCode : Z
}.
Definition zero : t := mk None 0 0 0 false false 0.
End TaskCommand.

(** The fields of [Task] that the runner's logging uses ([LogChan],
[LogFile]) are left out. *)
Inductive Task : Type := mkTask {
  Name : string;
  CmdString : string;
  Display : TaskDisplay.t;
  Command : TaskCommand.t;
  StopOnFailure : bool;
  ShowTaskOutput : bool;
  IgnoreFailure : bool;
  ParallelTasks : list Task;
  ForEach : list string;
  ErrorBuffer : option string   (* a nil pointer before inflation *)
}.

Definition set_Name (v : string) (t : Task) : Task :=
  mkTask v (CmdString t) (Display t) (Command t) (StopOnFailure t) (ShowTaskOutput t)
         (IgnoreFailure t) (ParallelTasks t) (ForEach t) (ErrorBuffer t).
Definition set_CmdString (v : string) (t : Task) : Task :=
  mkTask (Name t) v (Display t) (Command t) (StopOnFailure t) (ShowTaskOutput t)
         (IgnoreFailure t) (ParallelTasks t) (ForEach t) (ErrorBuffer t).
Definition set_Display (v : TaskDisplay.t) (t : Task) : Task :=
  mkTask (Name t) (CmdString t) v (Command t) (StopOnFailure t) (ShowTaskOutput t)
         (IgnoreFailure t) (ParallelTasks t) (ForEach t) (ErrorBuffer t).
Definition set_Command (v : TaskCommand.t) (t : Task) : Task :=
  mkTask (Name t) (CmdString t) (Display t) v (StopOnFailure t) (ShowTaskOutput t)
         (IgnoreFailure t) (ParallelTasks t) (ForEach t) (ErrorBuffer t).
Definition set_ParallelTasks (v : list Task) (t : Task) : Task :=
  mkTask (Name t) (CmdString t) (Display t) (Command t) (StopOnFailure t) (ShowTaskOutput t)
         (IgnoreFailure t) v (ForEach t) (ErrorBuffer t).

Definition set_Template (v : Template) (t : Task) : Task :=
  set_Display (TaskDisplay.mk (Some v) (TaskDisplay.Index (Display t))
                              (TaskDisplay.Values (Display t))) t.
Definition set_Values (v : LineInfo.t) (t : Task) : Task :=
  set_Display (TaskDisplay.mk (TaskDisplay.Template (Display t))
                              (TaskDisplay.Index (Display t)) v) t.

Definition set_Started (v : bool) (t : Task) : Task :=
  let c := Command t in
  set_Command (TaskCommand.mk (TaskCommand.Cmd c) (TaskCommand.StartTime c)
                 (TaskCommand.StopTime c) (TaskCommand.EstimatedRuntime c) v
                 (TaskCommand.Complete c) (TaskCommand.ReturnCode c)) t.
Definition set_Complete (v : bool) (t : Task) : Task :=
  let c := Command t in
  set_Command (TaskCommand.mk (TaskCommand.Cmd c) (TaskCommand.StartTime c)
                 (TaskCommand.StopTime c) (TaskCommand.EstimatedRuntime c)
                 (TaskCommand.Started c) v (TaskCommand.ReturnCode c)) t.
Definition set_ReturnCode (v : Z) (t : Task) : Task :=
  let c := Command t in
  set_Command (TaskCommand.mk (TaskCommand.Cmd c) (TaskCommand.StartTime c)
                 (TaskCommand.StopTime c) (TaskCommand.EstimatedRuntime c)
                 (TaskCommand.Started c) (TaskCommand.Complete c) v) t.
Definition set_StartTime (v : Z) (t : Task) : Task :=
  let c := Command t in
  set_Command (TaskCommand.mk (TaskCommand.Cmd c) v (TaskCommand.StopTime c)
                 (TaskCommand.EstimatedRuntime c) (TaskCommand.Started c)
                 (TaskCommand.Complete c) (TaskCommand.ReturnCode c)) t.
Definition set_StopTime (v : Z) (t : Task) : Task :=
  let c := Command t in
  set_Command (TaskCommand.mk (TaskCommand.Cmd c) (TaskCommand.StartTime c) v
                 (TaskCommand.EstimatedRuntime c) (TaskCommand.Started c)
                 (TaskCommand.Complete c) (TaskCommand.ReturnCode c)) t.

Definition Started (t : Task) : bool := TaskCommand.Started (Command t).
Definition Complete (t : Task) : bool := TaskCommand.Complete (Command t).

(** The fields of the frozen [Options] record that [task.go] reads. *)
Record OptionsT : Type := mkOptions {
  MaxParallelCmds : Z;
  ReplicaReplaceString : string;
  Vintage : bool;
  ShowTaskEta : bool;
  ShowSummaryFooter : bool;
  CollapseOnCompletion : bool;
  LogPath : string
}.

(** ** Inflation *)

(** [task.inflate(displayIdx, replicaValue)].  The task is updated in place
in Go; here the updated task is returned.  The index expression
[command[0]] is the one place that could panic. *)
Definition inflate (Options : OptionsT) (commandTimeCache : gmap string Z)
    (task : Task) (displayIdx : Z) (replicaValue : string) : outcome Task :=
  let cmdString :=
    if GoStrings.is_empty replicaValue then CmdString task
    else GoStrings.Replace (CmdString task) (ReplicaReplaceString Options) replicaValue in
  let eta := match commandTimeCache !! cmdString with
             | Some eta => eta
             | None => -1
             end in
  match GoStrings.Split cmdString GoStrings.space with
  | [] => Panics
  | name :: arg =>
      let newName :=
        if GoStrings.is_empty (Name task) then cmdString
        else if GoStrings.is_empty replicaValue then Name task
             else GoStrings.Replace (Name task) (ReplicaReplaceString Options) replicaValue in
      Returns
        (mkTask newName cmdString
           (TaskDisplay.mk (Some lineDefaultTemplate) displayIdx
                           (TaskDisplay.Values (Display task)))
           (TaskCommand.mk (Some (ExecCmd.Command name arg))
                           (TaskCommand.StartTime (Command task))
                           (TaskCommand.StopTime (Command task))
                           eta
                           (TaskCommand.Started (Command task))
                           (TaskCommand.Complete (Command task))
                           (-1))
           (StopOnFailure task) (ShowTaskOutput task) (IgnoreFailure task)
           (ParallelTasks task) (ForEach task) (Some EmptyString))
  end.

(** [task.Create(displayStartIdx, replicaValue)] with the package counter
[totalTasks] passed through.  [Create] calls itself on a child once per
for-each value, each time on the child as the previous call left it, so the
recursion is not structural: it is bounded by [fuel], and [None] means that
the fuel ran out.  A child is appended to [finalTasks] by value; that the
copies made for one for-each child share the array of their own children is
not modelled, and nothing below reads those. *)

(** The loop over [subTask.ForEach].  [create] is [Create] one level down. *)
Fixpoint forEachLoop
    (create : Z -> Task -> Z -> string -> option (outcome (Task * Z)))
    (subTaskName subTaskCmdString : string) (lenForEach : Z)
    (values : list string) (subReplicaIndex : Z)
    (subTask : Task) (totalTasks : Z) (finalTasks : list Task)
  : option (outcome (list Task * Z)) :=
  match values with
  | [] => Some (Returns (finalTasks, totalTasks))
  | subReplicaValue :: values' =>
      let subTask := set_CmdString subTaskCmdString (set_Name subTaskName subTask) in
      match create totalTasks subTask subReplicaIndex subReplicaValue with
      | None => None
      | Some Panics => Some Panics
      | Some (Returns (subTask, totalTasks)) =>
          let subTask :=
            if subReplicaIndex =? lenForEach - 1
            then set_Template lineLastParallelTemplate subTask
            else set_Template lineParallelTemplate subTask in
          forEachLoop create subTaskName subTaskCmdString lenForEach
            values' (subReplicaIndex + 1) subTask totalTasks (finalTasks ++ [subTask])
      end
  end.

(** The loop over [task.ParallelTasks]. *)
Fixpoint parallelTasksLoop
    (create : Z -> Task -> Z -> string -> option (outcome (Task * Z)))
    (Options : OptionsT) (commandTimeCache : gmap string Z)
    (replicaValue : string) (lenParallelTasks : Z)
    (subTasks : list Task) (subIndex : Z)
    (totalTasks : Z) (finalTasks : list Task)
  : option (outcome (list Task * Z)) :=
  match subTasks with
  | [] => Some (Returns (finalTasks, totalTasks))
  | subTask :: subTasks' =>
      match ForEach subTask with
      | _ :: _ =>
          match forEachLoop create (Name subTask) (CmdString subTask)
                  (Z.of_nat (length (ForEach subTask))) (ForEach subTask) 0
                  subTask totalTasks finalTasks with
          | None => None
          | Some Panics => Some Panics
          | Some (Returns (finalTasks, totalTasks)) =>
              parallelTasksLoop create Options commandTimeCache replicaValue
                lenParallelTasks subTasks' (subIndex + 1) totalTasks finalTasks
          end
      | [] =>
          match inflate Options commandTimeCache subTask subIndex replicaValue with
          | Panics => Some Panics
          | Returns subTask =>
              let totalTasks := totalTasks + 1 in
              let subTask :=
                if subIndex =? lenParallelTasks - 1
                then set_Template lineLastParallelTemplate subTask
                else set_Template lineParallelTemplate subTask in
              parallelTasksLoop create Options commandTimeCache replicaValue
                lenParallelTasks subTasks' (subIndex + 1) totalTasks (finalTasks ++ [subTask])
          end
      end
  end.

Fixpoint Create (fuel : nat) (Options : OptionsT) (commandTimeCache : gmap string Z)
    (totalTasks : Z) (task : Task) (displayStartIdx : Z) (replicaValue : string)
  : option (outcome (Task * Z)) :=
  match fuel with
  | O => None
  | S fuel' =>
      match inflate Options commandTimeCache task displayStartIdx replicaValue with
      | Panics => Some Panics
      | Returns task =>
          let totalTasks :=
            if GoStrings.is_empty (CmdString task) then totalTasks else totalTasks + 1 in
          match parallelTasksLoop (Create fuel' Options commandTimeCache)
                  Options commandTimeCache replicaValue
                  (Z.of_nat (length (ParallelTasks task)))
                  (ParallelTasks task) 0 totalTasks [] with
          | None => None
          | Some Panics => Some Panics
          | Some (Returns (finalTasks, totalTasks)) =>
              Some (Returns (set_ParallelTasks finalTasks task, totalTasks))
          end
      end
  end.

(** [task.Tasks()]: the task itself when it has a command, its children
otherwise. *)
Definition Tasks (task : Task) : list Task :=
  if GoStrings.is_empty (CmdString task) then ParallelTasks task else [task].

(** A task as the YAML loader delivers it: a name, a command, its children
and for-each values and the three flags, every other field at its zero
value. *)
Definition loaded (name cmd : string) (stopOnFailure showOutput ignoreFailure : bool)
    (children : list Task) (forEach : list string) : Task :=
  mkTask name cmd TaskDisplay.zero TaskCommand.zero stopOnFailure showOutput ignoreFailure
         children forEach None.

(** The display indexes and the templates of the children of an inflated
group, in list order. *)
Definition displayIndexes (task : Task) : list Z :=
  map (fun c => TaskDisplay.Index (Display c)) (ParallelTasks task).
Definition displayTemplates (task : Task) : list (option Template) :=
  map (fun c => TaskDisplay.Template (Display c)) (ParallelTasks task).

(** The command string after replica substitution, as [inflate] computes
it. *)
Definition substituted (Options : OptionsT) (cmdString replicaValue : string) : string :=
  if GoStrings.is_empty replicaValue then cmdString
  else GoStrings.Replace cmdString (ReplicaReplaceString Options) replicaValue.

(** The reading of the specification: a task whose substituted command
starts with an empty token is rejected, that is, [inflate] does not hand
back an inflated task. *)
Definition rejects_empty_first_token (Options : OptionsT) (commandTimeCache : gmap string Z)
    (task : Task) (displayIdx : Z) (replicaValue : string) : Prop :=
  hd_error (GoStrings.Split (substituted Options (CmdString task) replicaValue) GoStrings.space)
  = Some EmptyString ->
  forall task', inflate Options commandTimeCache task displayIdx replicaValue <> Returns task'.

(** The reading of the specification for a group after [Create]: the
display indexes are the positions, the last child carries the last-parallel
template and the others the inner-parallel one. *)
Definition positions (n : nat) : list Z := map Z.of_nat (seq 0 n).

Definition expectedTemplates (n : nat) : list (option Template) :=
  match n with
  | O => []
  | S k => repeat (Some lineParallelTemplate) k ++ [Some lineLastParallelTemplate]
  end.

Definition well_laid_out (task : Task) : Prop :=
  displayIndexes task = positions (length (ParallelTasks task))
  /\ displayTemplates task = expectedTemplates (length (ParallelTasks task)).

Module Scenario.

Definition options : OptionsT := mkOptions 1 "$V" false false false false "".

(** S5: one child with three for-each values. *)
Definition forEachGroup : Task :=
  loaded "greetings" "" false false false
    [loaded "say $V" "echo $V" false false false [] ["x"; "y"; "z"]%string] [].

(** A for-each child followed by a plain child. *)
Definition mixedGroup : Task :=
  loaded "mixed" "" false false false
    [loaded "say $V" "echo $V" false false false [] ["x"; "y"]%string;
     loaded "done" "true" false false false [] []] [].

(** A for-each value that leaves a leading blank in the command. *)
Definition blankCommand : Task :=
  loaded "list" "$V -l" false false false [] [].

End Scenario.

(** ** The stream split function *)

(** The result triple [(advance, token, err)] of a [bufio.SplitFunc]; a [nil]
    token is [None], and [err] is [nil] on every return path of
    [variableSplitFunc]. *)
Record SplitResult : Type := mkSplitResult {
  advance : Z;
  token : option (list Byte.byte);
  err : option string
}.

(** [variableSplitFunc data atEOF], with [terminalWidth] the [uint] that
    [terminal.Width()] returns at the call. *)
Definition variableSplitFunc (terminalWidth : Z) (data : list Byte.byte) (atEOF : bool)
  : outcome SplitResult :=
  if atEOF && (Z.of_nat (length data) =? 0) then
    Returns (mkSplitResult 0 None None)
  else
    let i := GoBytes.Index data GoBytes.newline in
    if 0 <=? i then
      match GoBytes.slice_to data i with
      | Returns tok => Returns (mkSplitResult (i + 1) (Some tok) None)
      | Panics => Panics
      end
    else
      let i := GoBytes.Index data GoBytes.carriage_return in
      if 0 <=? i then
        match GoBytes.slice_to data i with
        | Returns tok => Returns (mkSplitResult (i + 1) (Some tok) None)
        | Panics => Panics
        end
      else
        let limit := GoInt.int_of_uint (GoInt.uint_mul terminalWidth 2) in
        if limit <? Z.of_nat (length data) then
          match GoBytes.slice_to data limit with
          | Returns tok => Returns (mkSplitResult limit (Some tok) None)
          | Panics => Panics
          end
        else if atEOF then
          Returns (mkSplitResult (Z.of_nat (length data)) (Some data) None)
        else
          Returns (mkSplitResult 0 None None).

(** The reading of the specification: a newline or a carriage return,
    whichever comes first in the buffer, ends the token. *)
Definition is_terminator (b : Byte.byte) : bool :=
  Byte.eqb b GoBytes.newline || Byte.eqb b GoBytes.carriage_return.

Definition splits_at_first_terminator (terminalWidth : Z) (data : list Byte.byte) (atEOF : bool) : Prop :=
  forall pre t rest,
    data = pre ++ t :: rest ->
    is_terminator t = true ->
    forallb (fun b => negb (is_terminator b)) pre = true ->
    variableSplitFunc terminalWidth data atEOF
    = Returns (mkSplitResult (Z.of_nat (length pre) + 1) (Some pre) None).

(** ** The subprocess runner *)

(** A [CmdIR] record.  Its [Task] pointer is the position of the task in the
list that [Tasks] returned to the scheduler. *)
Module CmdIR.
Record t : Type := mk {
  Task : nat;
  Status : CommandStatus;
  Stdout : string;
  Stderr : string;
  Complete : bool;
  ReturnCode : Z
}.
End CmdIR.

(** [syscall.WaitStatus] on Linux, a 32-bit word: the low seven bits are
zero when the process exited, and bits 8 to 15 then hold the exit code. *)
Module Syscall.
Definition Exited (w : Z) : bool := Z.land w 127 =? 0.
Definition ExitStatus (w : Z) : Z :=
  if Exited w then Z.land (Z.shiftr w 8) 255 else -1.
End Syscall.

(** What the operating system does with one command, as [os/exec] reports
it.  When [Cmd.Start] fails the pipes are closed at once, [Cmd.Wait]
returns the error "exec: not started" and [Cmd.ProcessState] stays nil.
Otherwise the two pipe readers deliver the cleaned tokens, here in the
order in which the [select] of [run] receives them, and [Cmd.Wait] fills
[ProcessState] and returns an [*exec.ExitError] unless the exit status is
zero. *)
Module Exec.

Inductive PipeMsg : Type :=
| FromStdout (message : string)
| FromStderr (message : string).

Inductive Subprocess : Type :=
| SpawnFails
| Runs (output : list PipeMsg) (status : Z).

Inductive error : Type :=
| NoError
| ExitError (status : Z)
| NotStarted.

Definition pipeOutput (p : Subprocess) : list PipeMsg :=
  match p with
  | SpawnFails => []
  | Runs output _ => output
  end.

(** [Cmd.Wait()]: the error and the [ProcessState] it leaves behind. *)
Definition Wait (p : Subprocess) : error * option Z :=
  match p with
  | SpawnFails => (NotStarted, None)
  | Runs _ status =>
      if Syscall.ExitStatus status =? 0 then (NoError, Some status)
      else (ExitError status, Some status)
  end.

End Exec.

(** What a runner goroutine does to the shared state, step by step. *)
Inductive Action : Type :=
| StampStart (now : Z)          (* task.Command.StartTime = time.Now() *)
| Send (record : CmdIR.t)       (* resultChan <- record *)
| StampStop (now : Z)           (* task.Command.StopTime = time.Now() *)
| SignalExit                    (* exitSignaled = true *)
| Panic.                        (* a run-time panic, which ends the program *)

(** Lines 353 to 357: the wait status is taken from the [*exec.ExitError]
when [Wait] returned one, and from [Cmd.ProcessState] otherwise; the latter
is a nil pointer dereference when the process was never started. *)
Definition waitStatusOf (waited : Exec.error * option Z) : outcome Z :=
  match fst waited with
  | Exec.ExitError status => Returns status
  | _ => match snd waited with
         | Some status => Returns status
         | None => Panics
         end
  end.

Definition outputRecord (self : nat) (m : Exec.PipeMsg) : CmdIR.t :=
  match m with
  | Exec.FromStdout stdoutMsg => CmdIR.mk self StatusRunning stdoutMsg "" false (-1)
  | Exec.FromStderr stderrMsg => CmdIR.mk self StatusRunning "" stderrMsg false (-1)
  end.

(** [task.run(resultChan, waiter)] for the task at position [self], with the
subprocess behaving as [p] and the clock reading [startedAt] and
[stoppedAt]: the actions of the goroutine in order.  Writes to the logs are
left out. *)
Definition run (self : nat) (task : Task) (p : Exec.Subprocess) (startedAt stoppedAt : Z)
  : list Action :=
  [StampStart startedAt; Send (CmdIR.mk self StatusRunning "" "" false (-1))]
  ++ map (fun m => Send (outputRecord self m)) (Exec.pipeOutput p)
  ++ [StampStop stoppedAt]
  ++ match waitStatusOf (Exec.Wait p) with
     | Panics => [Panic]
     | Returns waitStatus =>
         let returnCode := Syscall.ExitStatus waitStatus in
         if (returnCode =? 0) || IgnoreFailure task then
           [Send (CmdIR.mk self StatusSuccess "" "" true returnCode)]
         else
           Send (CmdIR.mk self StatusError "" "" true returnCode)
           :: (if StopOnFailure task then [SignalExit] else [])
     end.

(** The records a sequence of actions puts on the channel, in order. *)
Fixpoint sent (actions : list Action) : list CmdIR.t :=
  match actions with
  | [] => []
  | Send record :: rest => record :: sent rest
  | _ :: rest => sent rest
  end.

Definition panics (actions : list Action) : bool :=
  existsb (fun a => match a with Panic => true | _ => false end) actions.

(** The exit status word of a process that exited with [code]. *)
Definition exitedWith (code : Z) : Z := Z.shiftl code 8.

(** ** The group scheduler *)

(** The variables of one [Process] call together with the package variables
it updates.  [failedTasks] holds positions in [tasks]. *)
Record SchedState : Type := mkSched {
  tasks : list Task;
  lastStartedTask : nat;
  runningCmds : Z;
  groupSuccess : CommandStatus;
  failedTasks : list nat;
  completedTasks : Z;
  commandTimeCache : gmap string Z
}.

(** The scheduler, the result channel, and the runner goroutines: for each
task the actions its goroutine has still to perform (none before it is
launched).  [goStatements] records the tasks in the order in which their
goroutines were launched. *)
Record System : Type := mkSystem {
  sched : SchedState;
  resultChan : list CmdIR.t;
  runners : list (list Action);
  goStatements : list nat;
  exitSignaled : bool;
  crashed : bool
}.

(** What the subprocess of each task does, and what the clock reads when
its runner starts and stops. *)
Record World : Type := mkWorld {
  subprocess : nat -> Exec.Subprocess;
  startedAt : nat -> Z;
  stoppedAt : nat -> Z
}.

Definition set_sched (st : SchedState) (sys : System) : System :=
  mkSystem st (resultChan sys) (runners sys) (goStatements sys)
           (exitSignaled sys) (crashed sys).

Definition set_tasks (ts : list Task) (st : SchedState) : SchedState :=
  mkSched ts (lastStartedTask st) (runningCmds st) (groupSuccess st)
          (failedTasks st) (completedTasks st) (commandTimeCache st).

(** The capacity of [resultChan]. *)
Definition resultChanCap : Z := 10000.

(** The three statements that launch the next task,
[go tasks[lastStartedTask].run(resultChan, &waiter)],
[tasks[lastStartedTask].Command.Started = true] and [runningCmds++],
followed by [lastStartedTask++]. *)
Definition startTask (W : World) (sys : System) : System :=
  let st := sched sys in
  let i := lastStartedTask st in
  match tasks st !! i with
  | None => sys   (* both call sites check lastStartedTask < len(tasks) *)
  | Some task =>
      mkSystem
        (mkSched (<[i := set_Started true task]> (tasks st)) (S i) (runningCmds st + 1)
                 (groupSuccess st) (failedTasks st) (completedTasks st)
                 (commandTimeCache st))
        (resultChan sys)
        (<[i := run i task (subprocess W i) (startedAt W i) (stoppedAt W i)]> (runners sys))
        (goStatements sys ++ [i])
        (exitSignaled sys) (crashed sys)
  end.

(** The loop of line 462; one round per unit of [fuel], and [len(tasks)]
rounds are enough since every round advances [lastStartedTask]. *)
Fixpoint startLoop (Options : OptionsT) (W : World) (fuel : nat) (sys : System) : System :=
  match fuel with
  | O => sys
  | S fuel' =>
      if (Z.of_nat (lastStartedTask (sched sys)) <? MaxParallelCmds Options)
         && (lastStartedTask (sched sys) <? length (tasks (sched sys)))%nat
      then startLoop Options W fuel' (startTask W sys)
      else sys
  end.

(** [Process] up to its event loop.  The placeholder lines it paints are
left out; outside vintage mode it clears [Started] on every task. *)
Definition Process_start (Options : OptionsT) (W : World)
    (completed : Z) (cache : gmap string Z) (task : Task) : System :=
  let tasks0 := Tasks task in
  let tasks1 := if Vintage Options then tasks0 else map (set_Started false) tasks0 in
  startLoop Options W (length tasks1)
    (mkSystem (mkSched tasks1 0 0 StatusSuccess [] completed cache)
              [] (replicate (length tasks1) []) [] false false).

(** The branch [case msgObj := <-resultChan] as far as it updates the
variables above; its writes to the log, to the error buffer and to the
terminal are left out.  It is entered for every record, and does the
following for a record with [Complete] set. *)

(** Lines 498 to 505: the task of the record is marked complete, the
duration of its run goes into the cache, and the counters are updated. *)
Definition markComplete (st : SchedState) (msgObj : CmdIR.t) : SchedState :=
  let i := CmdIR.Task msgObj in
  mkSched (alter (fun eventTask =>
                    set_ReturnCode (CmdIR.ReturnCode msgObj) (set_Complete true eventTask))
                 i (tasks st))
          (lastStartedTask st) (runningCmds st - 1) (groupSuccess st)
          (failedTasks st) (completedTasks st + 1)
          match tasks st !! i with
          | Some eventTask =>
              <[CmdString eventTask :=
                  TaskCommand.StopTime (Command eventTask)
                  - TaskCommand.StartTime (Command eventTask)]> (commandTimeCache st)
          | None => commandTimeCache st
          end.

(** Lines 518 to 524: an Error record makes the group fail and its task is
appended to [failedTasks]. *)
Definition recordFailure (msgObj : CmdIR.t) (sys : System) : System :=
  match CmdIR.Status msgObj with
  | StatusError =>
      let st := sched sys in
      set_sched (mkSched (tasks st) (lastStartedTask st) (runningCmds st) StatusError
                         (failedTasks st ++ [CmdIR.Task msgObj]) (completedTasks st)
                         (commandTimeCache st)) sys
  | _ => sys
  end.

(** In between (lines 507 to 516) the next task is launched if there is
one; the value of [exitSignaled] is not consulted before that. *)
Definition receive (W : World) (sys : System) (msgObj : CmdIR.t) : System :=
  if CmdIR.Complete msgObj then
    let sys1 := set_sched (markComplete (sched sys) msgObj) sys in
    let sys2 :=
      if (lastStartedTask (sched sys1) <? length (tasks (sched sys1)))%nat
      then startTask W sys1 else sys1 in
    recordFailure msgObj sys2
  else sys.

(** One step of the whole: a runner goroutine performs its next action, or
the scheduler takes the next record from the channel. *)
Inductive Choice : Type :=
| RunnerActs (i : nat)
| SchedulerReceives.

Definition runnerStep (i : nat) (sys : System) : option System :=
  match runners sys !! i with
  | Some (action :: rest) =>
      let remaining := <[i := rest]> (runners sys) in
      let st := sched sys in
      match action with
      | StampStart now =>
          Some (mkSystem (set_tasks (alter (set_StartTime now) i (tasks st)) st)
                         (resultChan sys) remaining (goStatements sys)
                         (exitSignaled sys) (crashed sys))
      | StampStop now =>
          Some (mkSystem (set_tasks (alter (set_StopTime now) i (tasks st)) st)
                         (resultChan sys) remaining (goStatements sys)
                         (exitSignaled sys) (crashed sys))
      | Send record =>
          if Z.of_nat (length (resultChan sys)) <? resultChanCap
          then Some (mkSystem st (resultChan sys ++ [record]) remaining (goStatements sys)
                              (exitSignaled sys) (crashed sys))
          else None   (* the send blocks while the channel is full *)
      | SignalExit =>
          Some (mkSystem st (resultChan sys) remaining (goStatements sys) true (crashed sys))
      | Panic =>
          Some (mkSystem st (resultChan sys) remaining (goStatements sys)
                         (exitSignaled sys) true)
      end
  | _ => None
  end.

(** The event loop runs while [runningCmds > 0].  The statement
[if exitSignaled { break }] at the end of the branch stands inside the
[select], so it leaves the [select] and not the loop: the next round of the
loop is taken either way, and the flag does not appear here.  Ticks of the
spinner only repaint and are left out. *)
Definition schedulerStep (W : World) (sys : System) : option System :=
  if 0 <? runningCmds (sched sys) then
    match resultChan sys with
    | msgObj :: rest =>
        Some (receive W (mkSystem (sched sys) rest (runners sys) (goStatements sys)
                                  (exitSignaled sys) (crashed sys)) msgObj)
    | [] => None
    end
  else None.

Definition step (W : World) (c : Choice) (sys : System) : option System :=
  if crashed sys then None
  else match c with
       | RunnerActs i => runnerStep i sys
       | SchedulerReceives => schedulerStep W sys
       end.

Fixpoint exec (W : World) (choices : list Choice) (sys : System) : option System :=
  match choices with
  | [] => Some sys
  | c :: choices' =>
      match step W c sys with
      | Some sys' => exec W choices' sys'
      | None => None
      end
  end.

(** The end of [Process]: the loop has been left, and unless [exitSignaled]
is set the runners have been waited for; the value returned is
[failedTasks]. *)
Definition Process_returns (sys : System) : option (list nat) :=
  if crashed sys then None
  else if 0 <? runningCmds (sched sys) then None
  else if exitSignaled sys || forallb (fun r => match r with [] => true | _ => false end) (runners sys)
       then Some (failedTasks (sched sys))
       else None.

(** The number of children that are started and not complete. *)
Definition running (t : Task) : bool := Started t && negb (Complete t).

Fixpoint runningCount (ts : list Task) : Z :=
  match ts with
  | [] => 0
  | t :: ts' => (if running t then 1 else 0) + runningCount ts'
  end.

(** A task that no [Process] call has touched yet. *)
Definition fresh (t : Task) : Prop := Started t = false /\ Complete t = false.

Module StopOnFailure.

(** S3: [true], [false] with stop-on-failure, [true], one at a time. *)
Definition options : OptionsT := mkOptions 1 "" false false false false "".

Definition group : Task :=
  loaded "group" "" false false false
    [loaded "first" "true" false false false [] [];
     loaded "second" "false" true false false [] [];
     loaded "third" "true" false false false [] []] [].

Definition world : World :=
  mkWorld (fun i => match i with
                    | 1%nat => Exec.Runs [] (exitedWith 1)
                    | _ => Exec.Runs [] (exitedWith 0)
                    end)
          (fun i => Z.of_nat i * 10) (fun i => Z.of_nat i * 10 + 5).

(** The group after inflation. *)
Definition inflated : Task :=
  match Create 2 options ∅ 0 group 0 "" with
  | Some (Returns (task, _)) => task
  | _ => group
  end.

(** Each runner in turn performs all its actions and the scheduler receives
what it sent. *)
Definition schedule : list Choice :=
  [RunnerActs 0; RunnerActs 0; RunnerActs 0; RunnerActs 0;
   SchedulerReceives; SchedulerReceives;
   RunnerActs 1; RunnerActs 1; RunnerActs 1; RunnerActs 1; RunnerActs 1;
   SchedulerReceives; SchedulerReceives;
   RunnerActs 2; RunnerActs 2; RunnerActs 2; RunnerActs 2;
   SchedulerReceives; SchedulerReceives]%nat.

End StopOnFailure.

Module Unspawnable.

(** A leaf whose command cannot be started. *)
Definition task : Task :=
  mkTask "typo" "no-such-command" (TaskDisplay.mk (Some lineDefaultTemplate) 0 LineInfo.zero)
         (TaskCommand.mk (Some (ExecCmd.Command "no-such-command" [])) 0 0 (-1) false false (-1))
         false false false [] [] (Some EmptyString).

End Unspawnable.

Module IgnoreFailure.

(** S4: [false] with ignore-failure, then [true]. *)
Definition first : Task := loaded "first" "false" false false true [] [].

Definition options : OptionsT := mkOptions 1 "" false false false false "".

Definition group : Task :=
  loaded "group" "" false false false
    [first; loaded "second" "true" false false false [] []] [].

(** The group after inflation. *)
Definition inflated : Task :=
  match Create 2 options ∅ 0 group 0 "" with
  | Some (Returns (task, _)) => task
  | _ => group
  end.

Definition world : World :=
  mkWorld (fun i => match i with
                    | O => Exec.Runs [] (exitedWith 1)
                    | _ => Exec.Runs [] (exitedWith 0)
                    end)
          (fun i => Z.of_nat i * 10) (fun i => Z.of_nat i * 10 + 5).

(** Each runner in turn performs all its actions and the scheduler receives
what it sent. *)
Definition schedule : list Choice :=
  [RunnerActs 0; RunnerActs 0; RunnerActs 0; RunnerActs 0;
   SchedulerReceives; SchedulerReceives;
   RunnerActs 1; RunnerActs 1; RunnerActs 1; RunnerActs 1;
   SchedulerReceives; SchedulerReceives]%nat.

End IgnoreFailure.

(** The first record of every run. *)
Definition startedRecord (self : nat) : CmdIR.t :=
  CmdIR.mk self StatusRunning "" "" false (-1).

(** The terminal record that [run] sends when the subprocess ended with
[status]. *)
Definition terminalRecord (self : nat) (task : Task) (status : Z) : CmdIR.t :=
  CmdIR.mk self
    (if (Syscall.ExitStatus status =? 0) || IgnoreFailure task then StatusSuccess else StatusError)
    "" "" true (Syscall.ExitStatus status).

(** A record that is not the terminal one, as the specification describes
it. *)
Definition intermediate (r : CmdIR.t) : Prop :=
  CmdIR.Status r = StatusRunning /\ CmdIR.ReturnCode r = -1 /\ CmdIR.Complete r = false.

(** ** The invariant of the scheduler *)

(** The terminal records for the task at position [i] among [records]. *)
Fixpoint terminals (i : nat) (records : list CmdIR.t) : nat :=
  match records with
  | [] => O
  | r :: rest =>
      ((if CmdIR.Complete r && (CmdIR.Task r =? i)%nat then 1 else 0) + terminals i rest)%nat
  end.

(** The terminal records for task [i] that are under way: in the channel,
or still to be sent by its runner. *)
Definition pending (chan : list CmdIR.t) (rs : list (list Action)) (i : nat) : nat :=
  (terminals i chan + terminals i (sent (default [] (rs !! i))))%nat.

Definition mayPend (ts : list Task) (i : nat) : nat :=
  match ts !! i with
  | Some t => if running t then 1%nat else 0%nat
  | None => 0%nat
  end.

(** What holds of the variables of the scheduler, of the channel and of the
runners at every moment of a [Process] call:
the tasks started are the first [lastStartedTask] ones, launched in that
order; only started tasks are complete; [runningCmds] counts the tasks that
are started and not complete; and a terminal record is under way for such
tasks only, one at most. *)
Record coherent (ts : list Task) (last : nat) (rc : Z)
    (chan : list CmdIR.t) (rs : list (list Action)) (go : list nat) : Prop := mkCoherent {
  coh_last : (last <= length ts)%nat;
  coh_started : forall i t, ts !! i = Some t -> Started t = bool_decide (i < last)%nat;
  coh_complete : forall i t, ts !! i = Some t -> Complete t = true -> (i < last)%nat;
  coh_count : rc = runningCount ts;
  coh_pending : forall i, (pending chan rs i <= mayPend ts i)%nat;
  coh_owner : forall j script r, rs !! j = Some script -> r ∈ sent script -> CmdIR.Task r = j;
  coh_runners : length rs = length ts;
  coh_go : go = seq 0 last
}.

Definition Coherent (sys : System) : Prop :=
  coherent (tasks (sched sys)) (lastStartedTask (sched sys)) (runningCmds (sched sys))
           (resultChan sys) (runners sys) (goStatements sys).

(** Once a task is complete, the task declared after it has been started. *)
Definition successorsStarted (sys : System) : Prop :=
  forall i t, tasks (sched sys) !! i = Some t -> Complete t = true ->
              (S i < length (tasks (sched sys)))%nat ->
              (S i < lastStartedTask (sched sys))%nat.

(** An update of a task that leaves [Started] and [Complete] alone. *)
Definition keepsFlags (f : Task -> Task) : Prop :=
  forall t, Started (f t) = Started t /\ Complete (f t) = Complete t.

(** The invariant of a [Process] call with at most [cap] tasks running. *)
Definition invariant (cap : Z) (sys : System) : Prop :=
  Coherent sys /\ successorsStarted sys /\ runningCmds (sched sys) <= cap.

(** ** float64 *)

(** Go's [float64] is IEEE 754 binary64; its values and its operations,
rounding to nearest with ties to even, as the Standard Library specifies
them. *)
Module Float64.

Definition t : Type := spec_float.

Definition prec : Z := 53.
Definition emax : Z := 1024.

Definition zero : t := S754_zero false.

Definition add : t -> t -> t := SFadd prec emax.
Definition div : t -> t -> t := SFdiv prec emax.
Definition mul : t -> t -> t := SFmul prec emax.

(** [float64(n)] for an integer [n]. *)
Definition ofInt (n : Z) : t := binary_normalize prec emax n 0 false.

(** [x < y] and [x == y]. *)
Definition ltb : t -> t -> bool := SFltb.
Definition eqb : t -> t -> bool := SFeqb.

(** [math.Max(x, y)], with its special cases for the positive infinity, for
NaN and for the two zeros. *)
Definition Max (x y : t) : t :=
  match x, y with
  | S754_infinity false, _ | _, S754_infinity false => S754_infinity false
  | S754_nan, _ | _, S754_nan => S754_nan
  | S754_zero s, S754_zero _ => if s then y else x
  | _, _ => if ltb y x then x else y
  end.

(** The values that a computation on durations that are not negative can
reach: the positive zero, the positive numbers and the positive
infinity. *)
Definition regular (x : t) : bool :=
  match x with
  | S754_zero false | S754_finite false _ _ | S754_infinity false => true
  | _ => false
  end.

(** [x <= y] on such values. *)
Definition le (x y : t) : Prop := ltb y x = false.

(** [x < y] on such values, spelled out: by exponent first, by mantissa
next. *)
Definition below (x y : t) : Prop :=
  match x, y with
  | S754_zero _, S754_finite _ _ _ => True
  | S754_zero _, S754_infinity _ => True
  | S754_finite _ _ _, S754_infinity _ => True
  | S754_finite _ m1 e1, S754_finite _ m2 e2 => e1 < e2 \/ (e1 = e2 /\ (m1 < m2)%positive)
  | _, _ => False
  end.

End Float64.

(** ** The ETA of a group *)

Module Eta.

(** [Duration.Seconds()] of the package [time], for a duration of [d]
nanoseconds: [float64(d / Second) + float64(d % Second) / 1e9], the integer
division truncating. *)
Definition Seconds (d : Z) : Float64.t :=
  Float64.add (Float64.ofInt (Z.quot d 1000000000))
              (Float64.div (Float64.ofInt (Z.rem d 1000000000))
                           (Float64.ofInt 1000000000)).

(** Modelled from the spec: [MinMax] is defined outside [task.go]; it
yields the smallest and the largest end-time in flight, found by comparing
the elements in turn with the first one to start with.  It is called on a
non-empty list whenever [MaxParallelCmds] is not 0. *)
Definition MinMax (array : list Float64.t) : Float64.t * Float64.t :=
  match array with
  | [] => (Float64.zero, Float64.zero)
  | x :: rest =>
      (fold_left (fun min value => if Float64.ltb value min then value else min) rest x,
       fold_left (fun max value => if Float64.ltb max value then value else max) rest x)
  end.

(** Modelled from the spec: [remove] is defined outside [task.go]; the
end-times in flight form a multiset, and one occurrence of the value is
taken out. *)
Fixpoint remove (slice : list Float64.t) (value : Float64.t) : list Float64.t :=
  match slice with
  | [] => []
  | x :: rest => if Float64.eqb x value then rest else x :: remove rest value
  end.

(** The variables of the loop of [EstimatedRuntime]. *)
Record state : Type := mkState {
  taskEndSecond : list Float64.t;
  currentSecond : Float64.t;
  remainingParallelTasks : Z;
  maxParallelEstimatedRuntime : Float64.t
}.

Definition known (t : Task) : bool :=
  negb (GoStrings.is_empty (CmdString t))
  && negb (TaskCommand.EstimatedRuntime (Command t) =? -1).

(** The body of the loop for one child. *)
Definition body (st : state) (subTask : Task) : state :=
  if known subTask then
    let st1 :=
      if remainingParallelTasks st =? 0 then
        let minEndSecond := fst (MinMax (taskEndSecond st)) in
        mkState (remove (taskEndSecond st) minEndSecond) minEndSecond
                (remainingParallelTasks st + 1) (maxParallelEstimatedRuntime st)
      else st in
    let ends :=
      taskEndSecond st1
      ++ [Float64.add (currentSecond st1)
                      (Seconds (TaskCommand.EstimatedRuntime (Command subTask)))] in
    let maxEndSecond := snd (MinMax ends) in
    mkState ends (currentSecond st1) (remainingParallelTasks st1 - 1)
            (Float64.Max (maxParallelEstimatedRuntime st1) maxEndSecond)
  else st.

Definition initial (Options : OptionsT) : state :=
  mkState [] Float64.zero (MaxParallelCmds Options) Float64.zero.

(** The simulation as the specification words it, on the estimates of the
children that have one: the end-times at which the children are scheduled
to stop, in order. *)
Fixpoint simulate (freeSlots : Z) (inFlight : list Float64.t) (now : Float64.t)
    (estimates : list Float64.t) : list Float64.t :=
  match estimates with
  | [] => []
  | estimate :: rest =>
      if freeSlots =? 0 then
        let smallest := fst (MinMax inFlight) in
        Float64.add smallest estimate
        :: simulate freeSlots (remove inFlight smallest ++ [Float64.add smallest estimate])
                    smallest rest
      else
        Float64.add now estimate
        :: simulate (freeSlots - 1) (inFlight ++ [Float64.add now estimate]) now rest
  end.

(** The largest of some end-times, and 0 when there is none. *)
Definition latest (ends : list Float64.t) : Float64.t :=
  fold_left Float64.Max ends Float64.zero.

(** The estimates, in seconds, of the children that have one. *)
Definition estimates (children : list Task) : list Float64.t :=
  map (fun t => Seconds (TaskCommand.EstimatedRuntime (Command t)))
      (filter (fun t => known t = true) children).

(** What the end-times in flight and the largest end-time so far satisfy
in the loop: the values are regular and none in flight is above the largest
so far. *)
Definition bounded (m : Float64.t) (ends : list Float64.t) : Prop :=
  Forall (fun y => Float64.regular y = true /\ Float64.le y m) ends.

(** [ceil(n / p)] for [p > 0]. *)
Definition ceilDiv (n p : Z) : Z := (n + p - 1) / p.

(** The sum of [k] copies of [d], added one at a time to 0. *)
Fixpoint sums (d : Float64.t) (k : nat) : Float64.t :=
  match k with
  | O => Float64.zero
  | S k' => Float64.add (sums d k') d
  end.

(** The running sums of some estimates, each added to the sum so far,
starting from [sum]. *)
Fixpoint running (sum : Float64.t) (estimates : list Float64.t) : list Float64.t :=
  match estimates with
  | [] => []
  | estimate :: rest => Float64.add sum estimate :: running (Float64.add sum estimate) rest
  end.

(** No running sum is smaller than the one before it, [sum] being the one
before the first. *)
Fixpoint rising (sum : Float64.t) (sums : list Float64.t) : Prop :=
  match sums with
  | [] => True
  | next :: rest => Float64.le sum next /\ rising next rest
  end.

End Eta.

(** [task.EstimatedRuntime()]. *)
Definition EstimatedRuntime (Options : OptionsT) (task : Task) : Float64.t :=
  let etaSeconds :=
    if Eta.known task
    then Float64.add Float64.zero (Eta.Seconds (TaskCommand.EstimatedRuntime (Command task)))
    else Float64.zero in
  Float64.add etaSeconds
    (Eta.maxParallelEstimatedRuntime
       (fold_left Eta.body (ParallelTasks task) (Eta.initial Options))).

(** The reading of the specification for a group without a command whose
children all have the estimate [D]: the ETA is [D] times the number of
rounds, in seconds. *)
Definition timesRounds (Options : OptionsT) (task : Task) : Prop :=
  forall D : Z,
    1 <= MaxParallelCmds Options ->
    0 <= D ->
    CmdString task = EmptyString ->
    Forall (fun c => CmdString c <> EmptyString
                     /\ TaskCommand.EstimatedRuntime (Command c) = D)
           (ParallelTasks task) ->
    EstimatedRuntime Options task
    = Eta.Seconds (D * Eta.ceilDiv (Z.of_nat (length (ParallelTasks task)))
                                   (MaxParallelCmds Options)).

Module BoundedParallel.

(** S2 with estimates: four children of one second each, two at a time. *)
Definition options : OptionsT := mkOptions 2 "" false false false false "".

Definition child : Task :=
  mkTask "sleep" "sleep 1" (TaskDisplay.mk (Some lineParallelTemplate) 0 LineInfo.zero)
         (TaskCommand.mk (Some (ExecCmd.Command "sleep" ["1"%string])) 0 0 1000000000
                         false false (-1))
         false false false [] [] (Some EmptyString).

Definition group : Task :=
  mkTask "sleepers" "" (TaskDisplay.mk (Some lineDefaultTemplate) 0 LineInfo.zero)
         (TaskCommand.mk (Some (ExecCmd.Command "" [])) 0 0 (-1) false false (-1))
         false false false [child; child; child; child] [] (Some EmptyString).

End BoundedParallel.

Module TenTenths.

(** Ten children of 100 milliseconds each, one at a time. *)
Definition options : OptionsT := mkOptions 1 "" false false false false "".

Definition child : Task :=
  mkTask "nap" "sleep 0.1" (TaskDisplay.mk (Some lineParallelTemplate) 0 LineInfo.zero)
         (TaskCommand.mk (Some (ExecCmd.Command "sleep" ["0.1"%string])) 0 0 100000000
                         false false (-1))
         false false false [] [] (Some EmptyString).

Definition group : Task :=
  mkTask "naps" "" (TaskDisplay.mk (Some lineDefaultTemplate) 0 LineInfo.zero)
         (TaskCommand.mk (Some (ExecCmd.Command "" [])) 0 0 (-1) false false (-1))
         false false false (replicate 10 child) [] (Some EmptyString).

End TenTenths.

(** ** Rendering a task line *)

Module Terminal.

Definition escape : ascii := ascii_of_nat 27.

Definition isLetter (c : ascii) : bool :=
  let n := nat_of_ascii c in
  ((97 <=? n) && (n <=? 122) || (65 <=? n) && (n <=? 90))%nat.

(** Modelled from the spec: [visualLength] is defined outside [task.go]; it
measures a string in display cells and ignores ANSI escape sequences.  An
escape sequence runs from the escape character to the first letter after
it; every other character takes one cell. *)
Fixpoint cells (inEscapeSeq : bool) (s : string) : nat :=
  match s with
  | EmptyString => O
  | String c rest =>
      if inEscapeSeq then cells (negb (isLetter c)) rest
      else if Ascii.eqb c escape then cells true rest
           else S (cells false rest)
  end.

(** Modelled from the spec: [visualLength(s)], the number of display cells
of [s] outside its escape sequences. *)
Definition visualLength (s : string) : Z := Z.of_nat (cells false s).


(** Modelled from the spec: [trimToVisualLength] is defined outside
[task.go]; it slices a string by display cells: the longest prefix that
takes at most [length] cells, escape sequences kept. *)
Fixpoint keep (inEscapeSeq : bool) (s : string) (n : nat) : string :=
  match s with
  | EmptyString => EmptyString
  | String c rest =>
      if inEscapeSeq then String c (keep (negb (isLetter c)) rest n)
      else if Ascii.eqb c escape then String c (keep true rest n)
           else match n with
                | O => EmptyString
                | S k => String c (keep false rest k)
                end
  end.

(** Modelled from the spec: [trimToVisualLength(message, length)]; a
negative [length] leaves no cell. *)
Definition trimToVisualLength (message : string) (length : Z) : string :=
  keep false message (Z.to_nat length).

(** [strings.Repeat(" ", count)] for a count that is not negative. *)
Fixpoint spaces (count : nat) : string :=
  match count with
  | O => EmptyString
  | S k => String Ascii.Space (spaces k)
  end.

(** Modelled from the spec: the line templates are compiled outside
[task.go]; a template has the named fields status, title, message,
spinner, split and eta, and the three variants differ in the tree glyph
that leads the line. *)
Definition glyph (template : Template) : string :=
  match template with
  | lineDefaultTemplate => ""
  | lineParallelTemplate => "|- "
  | lineLastParallelTemplate => "`- "
  end.

(** Modelled from the spec: a line template applied to a [LineInfo], the
fields in the order in which the specification lists them, the filler in
front of the ETA so that the ETA is flush right. *)
Definition ExecuteFields (template : Template) (values : LineInfo.t) : string :=
  LineInfo.Status values +:+ " " +:+ LineInfo.Spinner values +:+ " "
  +:+ glyph template +:+ LineInfo.Title values +:+ " "
  +:+ LineInfo.Msg values +:+ LineInfo.Split values +:+ LineInfo.Eta values.

End Terminal.

Definition with_Msg (msg : string) (v : LineInfo.t) : LineInfo.t :=
  LineInfo.mk (LineInfo.Status v) (LineInfo.Title v) msg (LineInfo.Spinner v)
              (LineInfo.Eta v) (LineInfo.Split v).
Definition with_Split (split : string) (v : LineInfo.t) : LineInfo.t :=
  LineInfo.mk (LineInfo.Status v) (LineInfo.Title v) (LineInfo.Msg v) (LineInfo.Spinner v)
              (LineInfo.Eta v) split.

Module Render.

Section Renderer.

(** [template.Execute], which renders a line template on a [LineInfo], and
the colouring function [red] are defined outside [task.go]. *)
Variable Execute : Template -> LineInfo.t -> string.
Variable red : string -> string.

(** Lines 208 to 223: a complete task loses its spinner and its ETA, and
shows its exit code when it failed; a task without a name is named after
its command. *)
Definition settle (task : Task) : Task :=
  let v := TaskDisplay.Values (Display task) in
  let task :=
    if Complete task then
      let v := LineInfo.mk (LineInfo.Status v) (LineInfo.Title v) (LineInfo.Msg v) "" ""
                           (LineInfo.Split v) in
      let v :=
        if negb (TaskCommand.ReturnCode (Command task) =? 0) && negb (IgnoreFailure task)
        then with_Msg (red ("Exited with error ("
                            +:+ pretty (TaskCommand.ReturnCode (Command task)) +:+ ")")) v
        else v in
      set_Values v task
    else task in
  if GoStrings.is_empty (Name task) then
    if (25 <? String.length (CmdString task))%nat
    then set_Name (String.substring 0 22 (CmdString task) +:+ "...") task
    else set_Name (CmdString task) task
  else task.

(** Lines 230 to 240: the line is rendered without filler and without
message to find the room left for the message, which is trimmed when it
does not fit.  [width] is [int(terminalWidth)]. *)
Definition fixedLength (template : Template) (values : LineInfo.t) : Z :=
  Terminal.visualLength (Execute template (with_Msg "" (with_Split "" values))).

Definition fitMessage (template : Template) (width : Z) (values : LineInfo.t) : LineInfo.t :=
  let maxMessageWidth := width - fixedLength template values in
  let originalMessage := LineInfo.Msg values in
  if maxMessageWidth <? Terminal.visualLength originalMessage
  then with_Msg (Terminal.trimToVisualLength originalMessage (maxMessageWidth - 3) +:+ "...")
                (with_Split "" values)
  else with_Split "" values.

(** Lines 243 to 248: the width of the filler, with its guard. *)
Definition splitWidth (template : Template) (width : Z) (fitted : LineInfo.t) : Z :=
  let splitWidth := width - Terminal.visualLength (Execute template fitted) in
  if splitWidth <? 0 then 0 else splitWidth.

(** [task.String()], with [terminalWidth] the [uint] that
[terminal.Width()] returns: the line, and the task as the call leaves it.
Rendering through a nil template panics. *)
Definition String (terminalWidth : Z) (task : Task) : outcome (string * Task) :=
  let task := settle task in
  match TaskDisplay.Template (Display task) with
  | None => Panics
  | Some template =>
      let width := GoInt.int_of_uint terminalWidth in
      let fitted := fitMessage template width (TaskDisplay.Values (Display task)) in
      let final :=
        with_Split (Terminal.spaces (Z.to_nat (splitWidth template width fitted))) fitted in
      Returns (Execute template final, set_Values final task)
  end.


End Renderer.

End Render.

Module Painted.

(** A running child with a line of output to show. *)
Definition task : Task :=
  mkTask "build" "make all"
         (TaskDisplay.mk (Some lineParallelTemplate) 0
                         (LineInfo.mk "*" "build" "compiling the scheduler" "/" "[3s]" ""))
         (TaskCommand.mk (Some (ExecCmd.Command "make" ["all"%string])) 0 0 (-1)
                         true false (-1))
         false true false [] [] (Some EmptyString).

Definition red (s : string) : string :=
  String Terminal.escape "[31m" +:+ s +:+ String Terminal.escape "[0m".

(** The same child when the line of output it shows ends in a lone escape
character. *)
Definition interrupted : Task :=
  set_Values (with_Msg ("compiling" +:+ String Terminal.escape EmptyString)
                       (TaskDisplay.Values (Display task))) task.

End Painted.

(** ** Bookkeeping of the scheduler *)

(** What the counters of a [Process] call satisfy at every moment, with
[completed] the value of [completedTasks] at the call: every terminal
record received has been counted once, the group status is Error exactly
when a task has been recorded as failed, and, with room for one command at
least, a task is running as long as one is waiting to be started. *)
Definition tally (Options : OptionsT) (completed : Z) (sys : System) : Prop :=
  completedTasks (sched sys)
  = completed + Z.of_nat (lastStartedTask (sched sys)) - runningCmds (sched sys)
  /\ (groupSuccess (sched sys) = StatusError <-> failedTasks (sched sys) <> [])
  /\ (groupSuccess (sched sys) = StatusError \/ groupSuccess (sched sys) = StatusSuccess)
  /\ (1 <= MaxParallelCmds Options ->
      (lastStartedTask (sched sys) < length (tasks (sched sys)))%nat ->
      1 <= runningCmds (sched sys)).

(** The settings of a task that no step of [Process] changes. *)
Definition settings (t : Task) : string * bool * bool :=
  (CmdString t, StopOnFailure t, IgnoreFailure t).

(** ** What runners may do *)

(** Every record in the channel satisfies [okR], and every action that a
runner has still to perform satisfies [okA]. *)
Definition lawful (okA : Action -> Prop) (okR : CmdIR.t -> Prop) (sys : System) : Prop :=
  Forall okR (resultChan sys)
  /\ forall j script, runners sys !! j = Some script -> Forall okA script.

(** The runner of every task of the group performs actions in [okA] only,
in the world [W]. *)
Definition scripted (okA : Action -> Prop) (W : World) (ts : list Task) : Prop :=
  forall i t, ts !! i = Some t ->
              Forall okA (run i t (subprocess W i) (startedAt W i) (stoppedAt W i)).

(** The three uses: a runner that reports no error, one that does not
signal the exit, one that does not panic. *)
Definition reportsNoError (a : Action) : Prop :=
  match a with
  | Send r => CmdIR.Status r <> StatusError
  | _ => True
  end.

Definition signalsNoExit (a : Action) : Prop := a <> SignalExit.

Definition panicsNot (a : Action) : Prop := a <> Panic.

(** The child at position [i] ends well: it ignores failures, or its
subprocess, if it starts, exits with status 0. *)
Definition endsWell (W : World) (i : nat) (t : Task) : Prop :=
  IgnoreFailure t = true
  \/ match subprocess W i with
     | Exec.Runs _ status => Syscall.ExitStatus status = 0
     | Exec.SpawnFails => True
     end.

(** The template that the loop of [Create] gives to the child at
[subIndex] (lines 147 to 151). *)
Definition childTemplate (subIndex lenParallelTasks : Z) : Template :=
  if subIndex =? lenParallelTasks - 1 then lineLastParallelTemplate else lineParallelTemplate.

(** The fields of a task that [inflate] reads and leaves as they are. *)
Definition carried (t : Task)
  : LineInfo.t * Z * Z * bool * bool * bool * bool * bool * list Task * list string :=
  (TaskDisplay.Values (Display t),
   TaskCommand.StartTime (Command t), TaskCommand.StopTime (Command t),
   TaskCommand.Started (Command t), TaskCommand.Complete (Command t),
   StopOnFailure t, ShowTaskOutput t, IgnoreFailure t, ParallelTasks t, ForEach t).

(** ** Progress of the scheduler *)

(** A script whose last record, if it sends any, is a terminal one. *)
Definition closes (script : list Action) : bool :=
  match last (sent script) with
  | Some r => CmdIR.Complete r
  | None => true
  end.

(** Every running task has its terminal record under way, and no runner
sends anything after its terminal record. *)
Definition onTrack (sys : System) : Prop :=
  (forall i, (mayPend (tasks (sched sys)) i
              <= pending (resultChan sys) (runners sys) i)%nat)
  /\ (forall i script, runners sys !! i = Some script -> closes script = true).

(** ** The number of steps of the scheduler *)

(** A bound on what the task at position [i] can cost from its launch on:
two units per action of its runner (the four stamps and records every run
has, one record per output token, and an exit signal), and one unit for the
launch. *)
Definition cost (W : World) (i : nat) : nat :=
  2 * (5 + length (Exec.pipeOutput (subprocess W i))) + 1.

(** The cost of the [n] tasks from position [i] on. *)
Fixpoint unstarted (W : World) (i n : nat) : nat :=
  match n with
  | O => O
  | S n' => cost W i + unstarted W (S i) n'
  end.

(** The actions that the runners have still to perform. *)
Fixpoint actionsLeft (rs : list (list Action)) : nat :=
  match rs with
  | [] => O
  | script :: rs' => length script + actionsLeft rs'
  end.

(** What is left to do: the tasks not yet launched, the actions of the
runners (two units each, since a send leaves a record to receive), and the
records in the channel. *)
Definition potential (W : World) (sys : System) : nat :=
  unstarted W (lastStartedTask (sched sys))
            (length (tasks (sched sys)) - lastStartedTask (sched sys))
  + 2 * actionsLeft (runners sys)
  + length (resultChan sys).

(** ** The list of failed tasks *)

(** The subprocess of the task at position [i] ends with a status that
[run] reports as an error: it exits with a code other than 0 and the task
does not ignore failures. *)
Definition fails (W : World) (i : nat) (t : Task) : bool :=
  match subprocess W i with
  | Exec.Runs _ status => negb ((Syscall.ExitStatus status =? 0) || IgnoreFailure t)
  | Exec.SpawnFails => false
  end.

Definition failsAt (W : World) (ts : list Task) (i : nat) : bool :=
  match ts !! i with
  | Some t => fails W i t
  | None => false
  end.

(** A terminal record says Error exactly when the subprocess of its task
failed. *)
Definition truthful (W : World) (ts : list Task) (r : CmdIR.t) : Prop :=
  CmdIR.Complete r = true ->
  (CmdIR.Status r = StatusError <-> failsAt W ts (CmdIR.Task r) = true).

Definition tellsTruth (W : World) (ts : list Task) (a : Action) : Prop :=
  match a with
  | Send r => truthful W ts r
  | _ => True
  end.

(** [failedTasks] holds, once each, the complete tasks whose subprocess
failed. *)
Definition accounted (W : World) (ts : list Task) (sys : System) : Prop :=
  NoDup (failedTasks (sched sys))
  /\ forall i, i ∈ failedTasks (sched sys)
               <-> map Complete (tasks (sched sys)) !! i = Some true
                   /\ failsAt W ts i = true.

(* ===================================================================== *)
(** * Properties *)
(* ===================================================================== *)

Module SplitFacts.

Lemma eqb_false (b sep : Byte.byte) : b <> sep -> Byte.eqb b sep = false.
Proof.
  intros Hne. destruct (Byte.eqb b sep) eqn:E; [|reflexivity].
  apply Byte.byte_dec_bl in E. contradiction.
Qed.

Lemma eqb_refl (b : Byte.byte) : Byte.eqb b b = true.
Proof. apply Byte.byte_dec_lb. reflexivity. Qed.

Lemma Index_range (data : list Byte.byte) (sep : Byte.byte) :
  -1 <= GoBytes.Index data sep < Z.of_nat (length data).
Proof.
  induction data as [|b rest IH]; simpl; [lia|].
  destruct (Byte.eqb b sep); [lia|].
  destruct (Z.ltb_spec (GoBytes.Index rest sep) 0); lia.
Qed.

(** A separator that occurs is found at its first occurrence. *)
Lemma Index_first (pre rest : list Byte.byte) (sep : Byte.byte) :
  sep ∉ pre ->
  GoBytes.Index (pre ++ sep :: rest) sep = Z.of_nat (length pre).
Proof.
  induction pre as [|b pre IH]; simpl; intros Hpre.
  - rewrite eqb_refl. reflexivity.
  - apply not_elem_of_cons in Hpre as [Hb Hpre].
    rewrite eqb_false by congruence. rewrite (IH Hpre).
    destruct (Z.ltb_spec (Z.of_nat (length pre)) 0); lia.
Qed.

(** A separator that does not occur is reported as -1. *)
Lemma Index_absent (data : list Byte.byte) (sep : Byte.byte) :
  sep ∉ data -> GoBytes.Index data sep = -1.
Proof.
  induction data as [|b rest IH]; simpl; intros H; [reflexivity|].
  apply not_elem_of_cons in H as [Hb H].
  rewrite eqb_false by congruence. rewrite (IH H). reflexivity.
Qed.

Lemma slice_to_prefix (pre rest : list Byte.byte) :
  GoBytes.slice_to (pre ++ rest) (Z.of_nat (length pre)) = Returns pre.
Proof.
  unfold GoBytes.slice_to. rewrite length_app.
  destruct (Z.leb_spec 0 (Z.of_nat (length pre))); [|lia].
  destruct (Z.leb_spec (Z.of_nat (length pre)) (Z.of_nat (length pre + length rest))); [|lia].
  simpl. rewrite Nat2Z.id, take_app_length. reflexivity.
Qed.

Lemma slice_to_within (data : list Byte.byte) (hi : Z) :
  0 <= hi <= Z.of_nat (length data) ->
  GoBytes.slice_to data hi = Returns (take (Z.to_nat hi) data).
Proof.
  intros [H0 H1]. unfold GoBytes.slice_to.
  destruct (Z.leb_spec 0 hi); [|lia].
  destruct (Z.leb_spec hi (Z.of_nat (length data))); [|lia].
  reflexivity.
Qed.

(** Twice a terminal width that fits an [int] is computed without
    wrap-around. *)
Lemma twice_width (tw : Z) :
  0 <= tw -> 2 * tw <= GoInt.int_max ->
  GoInt.int_of_uint (GoInt.uint_mul tw 2) = 2 * tw.
Proof.
  intros H0 H1. unfold GoInt.int_of_uint, GoInt.uint_mul, GoInt.uint_modulus, GoInt.int_max in *.
  rewrite Z.mod_small by lia.
  destruct (Z.leb_spec (tw * 2) (2 ^ 63 - 1)); lia.
Qed.

(** The split function when a newline occurs: everything before the first
    newline, carriage returns included, is the token. *)
Lemma split_newline (tw : Z) (pre rest : list Byte.byte) (atEOF : bool) :
  GoBytes.newline ∉ pre ->
  variableSplitFunc tw (pre ++ GoBytes.newline :: rest) atEOF
  = Returns (mkSplitResult (Z.of_nat (length pre) + 1) (Some pre) None).
Proof.
  intros Hpre. unfold variableSplitFunc.
  rewrite length_app. simpl length.
  destruct (Z.eqb_spec (Z.of_nat (length pre + S (length rest))) 0); [lia|].
  rewrite andb_false_r.
  rewrite (Index_first _ _ _ Hpre).
  destruct (Z.leb_spec 0 (Z.of_nat (length pre))); [|lia].
  rewrite slice_to_prefix. reflexivity.
Qed.

Lemma split_carriage_return (tw : Z) (pre rest : list Byte.byte) (atEOF : bool) :
  GoBytes.newline ∉ pre ++ GoBytes.carriage_return :: rest ->
  GoBytes.carriage_return ∉ pre ->
  variableSplitFunc tw (pre ++ GoBytes.carriage_return :: rest) atEOF
  = Returns (mkSplitResult (Z.of_nat (length pre) + 1) (Some pre) None).
Proof.
  intros Hnl Hpre. unfold variableSplitFunc.
  rewrite (Index_absent _ _ Hnl).
  rewrite length_app. simpl length.
  destruct (Z.eqb_spec (Z.of_nat (length pre + S (length rest))) 0); [lia|].
  rewrite andb_false_r.
  destruct (Z.leb_spec 0 (-1)); [lia|].
  rewrite (Index_first _ _ _ Hpre).
  destruct (Z.leb_spec 0 (Z.of_nat (length pre))); [|lia].
  rewrite slice_to_prefix. reflexivity.
Qed.

End SplitFacts.

(** C3 (as amended).  The newline is looked for first: when the buffer holds
    a newline the token is everything before the first newline, including
    any carriage return in it; when it holds no newline but a carriage
    return, the token is everything before the first carriage return.  The
    terminator is consumed in both cases.  Without a terminator, a buffer
    longer than twice the terminal width yields a token of exactly that many
    bytes; otherwise, at end of stream, a non-empty buffer is emitted whole
    and an empty one emits nothing. *)
Theorem variableSplitFunc_cases (tw : Z) (data : list Byte.byte) (atEOF : bool)
    (Hw : 0 <= tw) (Hfit : 2 * tw <= GoInt.int_max) :
  (forall pre rest,
      data = pre ++ GoBytes.newline :: rest -> GoBytes.newline ∉ pre ->
      variableSplitFunc tw data atEOF
      = Returns (mkSplitResult (Z.of_nat (length pre) + 1) (Some pre) None))
  /\ (forall pre rest,
      GoBytes.newline ∉ data ->
      data = pre ++ GoBytes.carriage_return :: rest -> GoBytes.carriage_return ∉ pre ->
      variableSplitFunc tw data atEOF
      = Returns (mkSplitResult (Z.of_nat (length pre) + 1) (Some pre) None))
  /\ (GoBytes.newline ∉ data -> GoBytes.carriage_return ∉ data ->
      2 * tw < Z.of_nat (length data) ->
      variableSplitFunc tw data atEOF
      = Returns (mkSplitResult (2 * tw) (Some (take (Z.to_nat (2 * tw)) data)) None)
      /\ Z.of_nat (length (take (Z.to_nat (2 * tw)) data)) = 2 * tw)
  /\ (GoBytes.newline ∉ data -> GoBytes.carriage_return ∉ data ->
      Z.of_nat (length data) <= 2 * tw -> data <> [] -> atEOF = true ->
      variableSplitFunc tw data atEOF
      = Returns (mkSplitResult (Z.of_nat (length data)) (Some data) None))
  /\ (data = [] -> atEOF = true ->
      variableSplitFunc tw data atEOF = Returns (mkSplitResult 0 None None)).
Proof.
  split; [|split; [|split; [|split]]].
  - intros pre rest -> Hpre. apply SplitFacts.split_newline; assumption.
  - intros pre rest Hnl -> Hpre. apply SplitFacts.split_carriage_return; assumption.
  - intros Hnl Hcr Hlen. split; [|rewrite length_take; lia].
    unfold variableSplitFunc.
    rewrite (SplitFacts.Index_absent _ _ Hnl), (SplitFacts.Index_absent _ _ Hcr).
    rewrite SplitFacts.twice_width by assumption.
    destruct (Z.eqb_spec (Z.of_nat (length data)) 0); [lia|].
    rewrite andb_false_r. change (0 <=? -1) with false. cbv iota.
    destruct (Z.ltb_spec (2 * tw) (Z.of_nat (length data))); [|lia].
    rewrite SplitFacts.slice_to_within by lia. reflexivity.
  - intros Hnl Hcr Hlen Hne ->. unfold variableSplitFunc.
    rewrite (SplitFacts.Index_absent _ _ Hnl), (SplitFacts.Index_absent _ _ Hcr).
    rewrite SplitFacts.twice_width by assumption.
    destruct data as [|b data]; [congruence|].
    simpl length in *. destruct (Z.eqb_spec (Z.of_nat (S (length data))) 0); [lia|].
    simpl (true && false). change (0 <=? -1) with false. cbv iota.
    destruct (Z.ltb_spec (2 * tw) (Z.of_nat (S (length data)))); [lia|].
    reflexivity.
  - intros -> ->. reflexivity.
Qed.

(** The newline case and the width case of C3 on concrete buffers. *)
Lemma variableSplitFunc_cases_witness :
  variableSplitFunc 1 [Byte.x61; Byte.x0d; Byte.x62; Byte.x0a; Byte.x63] false
  = Returns (mkSplitResult 4 (Some [Byte.x61; Byte.x0d; Byte.x62]) None)
  /\ variableSplitFunc 1 [Byte.x61; Byte.x62; Byte.x63] true
  = Returns (mkSplitResult 2 (Some [Byte.x61; Byte.x62]) None).
Proof.
  assert (Hnone : forall (b : Byte.byte) (l : list Byte.byte),
             forallb (fun c => negb (Byte.eqb c b)) l = true -> b ∉ l).
  { intros b l. induction l as [|c l IH]; simpl; intros H.
    - apply not_elem_of_nil.
    - apply andb_prop in H as [Hc H]. apply not_elem_of_cons. split; [|auto].
      intros ->. rewrite SplitFacts.eqb_refl in Hc. discriminate Hc. }
  pose proof (variableSplitFunc_cases 1 [Byte.x61; Byte.x0d; Byte.x62; Byte.x0a; Byte.x63] false
                ltac:(lia) ltac:(vm_compute; discriminate)) as [Hnewline _].
  pose proof (variableSplitFunc_cases 1 [Byte.x61; Byte.x62; Byte.x63] true
                ltac:(lia) ltac:(vm_compute; discriminate)) as (_ & _ & Hwide & _).
  split.
  - apply (Hnewline [Byte.x61; Byte.x0d; Byte.x62] [Byte.x63] eq_refl).
    apply Hnone. reflexivity.
  - apply Hwide; [apply Hnone; reflexivity | apply Hnone; reflexivity | simpl; lia].
Defined.

(** C3 as stated fails where a carriage return precedes a newline: on the
    buffer "a\rb\n" the token is "a\rb", not "a". *)
Lemma variableSplitFunc_newline_first :
  ~ splits_at_first_terminator 80
      [Byte.x61; Byte.x0d; Byte.x62; Byte.x0a] false.
Proof.
  intros H.
  specialize (H [Byte.x61] Byte.x0d [Byte.x62; Byte.x0a] eq_refl eq_refl eq_refl).
  vm_compute in H. discriminate H.
Qed.


(** ** Inflation *)

Module InflateFacts.

Lemma Split_nonempty (s : string) (sep : ascii) : GoStrings.Split s sep <> [].
Proof.
  induction s as [|c rest IH]; simpl; [discriminate|].
  destruct (Ascii.eqb c sep); [discriminate|].
  destruct (GoStrings.Split rest sep); discriminate.
Qed.

(** [inflate] returns on every input, and the command it builds is made of
the tokens of the substituted command string. *)
Lemma inflate_returns (Options : OptionsT) (cache : gmap string Z)
    (task : Task) (displayIdx : Z) (replicaValue : string) :
  exists name arg task',
    GoStrings.Split (substituted Options (CmdString task) replicaValue) GoStrings.space
    = name :: arg
    /\ inflate Options cache task displayIdx replicaValue = Returns task'
    /\ TaskCommand.Cmd (Command task') = Some (ExecCmd.Command name arg)
    /\ CmdString task' = substituted Options (CmdString task) replicaValue
    /\ TaskDisplay.Index (Display task') = displayIdx
    /\ TaskDisplay.Template (Display task') = Some lineDefaultTemplate
    /\ TaskCommand.ReturnCode (Command task') = -1.
Proof.
  unfold inflate. fold (substituted Options (CmdString task) replicaValue).
  destruct (GoStrings.Split (substituted Options (CmdString task) replicaValue) GoStrings.space)
    as [|name arg] eqn:E.
  - exfalso. exact (Split_nonempty _ _ E).
  - exists name, arg. eexists. repeat split; reflexivity.
Qed.

End InflateFacts.

(** C6 (as amended).  [inflate] has no failure path: for every task and
replica value it returns the inflated task, whose command is built from the
first token of the substituted command string, empty or not, and the
remaining tokens. *)
Theorem inflate_never_rejects (Options : OptionsT) (cache : gmap string Z)
    (task : Task) (displayIdx : Z) (replicaValue : string) :
  exists name arg task',
    GoStrings.Split (substituted Options (CmdString task) replicaValue) GoStrings.space
    = name :: arg
    /\ inflate Options cache task displayIdx replicaValue = Returns task'
    /\ TaskCommand.Cmd (Command task') = Some (ExecCmd.Command name arg)
    /\ TaskCommand.ReturnCode (Command task') = -1.
Proof.
  destruct (InflateFacts.inflate_returns Options cache task displayIdx replicaValue)
    as (name & arg & task' & Hsplit & Hret & Hcmd & _ & _ & _ & Hrc).
  exists name, arg, task'. auto.
Qed.

(** C6 as stated fails: with the marker [$V] replaced by " ls" the command
"$V -l" becomes " ls -l", its first token is empty, and [inflate] returns a
task whose command has the empty path. *)
Lemma inflate_accepts_empty_first_token :
  ~ rejects_empty_first_token Scenario.options ∅ Scenario.blankCommand 0 " ls".
Proof.
  intros H. unfold rejects_empty_first_token in H.
  specialize (H eq_refl).
  destruct (InflateFacts.inflate_returns Scenario.options ∅ Scenario.blankCommand 0 " ls")
    as (name & arg & task' & _ & Hret & _).
  exact (H task' Hret).
Qed.

(** The inflated command of that task: an empty path with the arguments
"ls" and "-l". *)
Example inflate_blankCommand :
  exists task',
    inflate Scenario.options ∅ Scenario.blankCommand 0 " ls" = Returns task'
    /\ TaskCommand.Cmd (Command task')
       = Some (ExecCmd.mk "" [""; "ls"; "-l"]%string).
Proof. eexists. split; reflexivity. Qed.

(** S5: one child with for-each [x, y, z] inflates to three leaves in
order, the marker substituted in the names and the commands, laid out as
the specification says. *)
Example Create_forEachGroup :
  exists task total,
    Create 2 Scenario.options ∅ 0 Scenario.forEachGroup 0 "" = Some (Returns (task, total))
    /\ map Name (ParallelTasks task) = ["say x"; "say y"; "say z"]%string
    /\ map (fun c => TaskCommand.Cmd (Command c)) (ParallelTasks task)
       = [Some (ExecCmd.mk "echo" ["echo"; "x"]%string);
          Some (ExecCmd.mk "echo" ["echo"; "y"]%string);
          Some (ExecCmd.mk "echo" ["echo"; "z"]%string)]
    /\ well_laid_out task
    /\ total = 3.
Proof. do 2 eexists. vm_compute. repeat split; reflexivity. Qed.

(** C5 fails on a group that mixes a for-each child with a plain one.  The
replicas of the for-each child are numbered from 0 and the plain child
keeps its index in the list as loaded, so two children share the display
index 1; and the last replica as well as the last child get the
last-parallel template. *)
Theorem Create_mixedGroup_layout :
  exists task total,
    Create 2 Scenario.options ∅ 0 Scenario.mixedGroup 0 "" = Some (Returns (task, total))
    /\ map Name (ParallelTasks task) = ["say x"; "say y"; "done"]%string
    /\ displayIndexes task = [0; 1; 1]
    /\ displayTemplates task
       = [Some lineParallelTemplate; Some lineLastParallelTemplate;
          Some lineLastParallelTemplate]
    /\ ~ well_laid_out task.
Proof.
  do 2 eexists. split; [vm_compute; reflexivity|].
  split; [reflexivity|]. split; [reflexivity|]. split; [reflexivity|].
  intros [Hidx _]. vm_compute in Hidx. discriminate Hidx.
Qed.



(** ** The runner *)

Module RunFacts.

Lemma sent_app (a b : list Action) : sent (a ++ b) = sent a ++ sent b.
Proof.
  induction a as [|x a IH]; simpl; [reflexivity|].
  destruct x; simpl; rewrite ?IH; reflexivity.
Qed.

Lemma sent_outputs (self : nat) (output : list Exec.PipeMsg) :
  sent (map (fun m => Send (outputRecord self m)) output) = map (outputRecord self) output.
Proof. induction output as [|m output IH]; simpl; [reflexivity|]. rewrite IH. reflexivity. Qed.

Lemma outputRecord_intermediate (self : nat) (m : Exec.PipeMsg) :
  intermediate (outputRecord self m).
Proof. destruct m; repeat split. Qed.

(** A wait status is always at hand once the process was started. *)
Lemma waitStatusOf_Runs (output : list Exec.PipeMsg) (status : Z) :
  waitStatusOf (Exec.Wait (Exec.Runs output status)) = Returns status.
Proof.
  unfold waitStatusOf, Exec.Wait.
  destruct (Syscall.ExitStatus status =? 0); reflexivity.
Qed.

Lemma sent_run_Runs (self : nat) (task : Task) (output : list Exec.PipeMsg)
    (status startedAt stoppedAt : Z) :
  sent (run self task (Exec.Runs output status) startedAt stoppedAt)
  = (startedRecord self :: map (outputRecord self) output)
    ++ [terminalRecord self task status].
Proof.
  unfold run. rewrite waitStatusOf_Runs. simpl.
  rewrite sent_app, sent_outputs. simpl.
  unfold terminalRecord, startedRecord.
  destruct ((Syscall.ExitStatus status =? 0) || IgnoreFailure task); simpl.
  - reflexivity.
  - destruct (StopOnFailure task); reflexivity.
Qed.

Lemma run_SpawnFails (self : nat) (task : Task) (startedAt stoppedAt : Z) :
  run self task Exec.SpawnFails startedAt stoppedAt
  = [StampStart startedAt; Send (startedRecord self); StampStop stoppedAt; Panic].
Proof. reflexivity. Qed.

(** Whatever the subprocess does: the records of a run are the first record
and one record per output token, all of them intermediate, followed by at
most one terminal record. *)
Lemma sent_run (self : nat) (task : Task) (p : Exec.Subprocess) (startedAt stoppedAt : Z) :
  exists last,
    sent (run self task p startedAt stoppedAt)
    = (startedRecord self :: map (outputRecord self) (Exec.pipeOutput p)) ++ last
    /\ Forall (fun r => CmdIR.Complete r = true /\ CmdIR.Task r = self) last
    /\ (length last <= 1)%nat.
Proof.
  destruct p as [|output status].
  - exists []. rewrite run_SpawnFails. simpl. repeat split; [constructor | lia].
  - exists [terminalRecord self task status]. rewrite sent_run_Runs. simpl.
    repeat split; [|lia]. repeat constructor.
Qed.

(** Every record of a run names the task of that run. *)
Lemma sent_run_owner (self : nat) (task : Task) (p : Exec.Subprocess)
    (startedAt stoppedAt : Z) (r : CmdIR.t) :
  r ∈ sent (run self task p startedAt stoppedAt) -> CmdIR.Task r = self.
Proof.
  destruct (sent_run self task p startedAt stoppedAt) as (last & -> & Hlast & _).
  rewrite elem_of_app, elem_of_cons, list_elem_of_fmap.
  intros [[->|(m & -> & _)]|Hr].
  - reflexivity.
  - destruct m; reflexivity.
  - rewrite Forall_forall in Hlast. apply Hlast. assumption.
Qed.

End RunFacts.

(** C10.  The records of a run before its terminal record: the first one is
sent before any output is read and carries neither a stdout nor a stderr
line, and every one of them has status Running and return code -1; what
follows them is the terminal record, or nothing when the run panics. *)
Theorem run_intermediate_records (self : nat) (task : Task) (p : Exec.Subprocess)
    (startedAt stoppedAt : Z) :
  exists rest before last,
    run self task p startedAt stoppedAt
    = StampStart startedAt :: Send (startedRecord self) :: rest
    /\ sent (run self task p startedAt stoppedAt) = before ++ last
    /\ hd_error before = Some (CmdIR.mk self StatusRunning "" "" false (-1))
    /\ Forall intermediate before
    /\ Forall (fun r => CmdIR.Status r <> StatusPending) (before ++ last)
    /\ Forall (fun r => CmdIR.Complete r = true) last
    /\ (length last <= 1)%nat.
Proof.
  destruct (RunFacts.sent_run self task p startedAt stoppedAt) as (last & Hsent & Hlast & Hlen).
  eexists. exists (startedRecord self :: map (outputRecord self) (Exec.pipeOutput p)), last.
  split; [reflexivity|]. split; [exact Hsent|]. split; [reflexivity|].
  assert (Hbefore : Forall intermediate
                      (startedRecord self :: map (outputRecord self) (Exec.pipeOutput p))).
  { constructor; [repeat split|].
    apply Forall_fmap, Forall_forall. intros m _. apply RunFacts.outputRecord_intermediate. }
  split; [exact Hbefore|]. split; [|split; [|exact Hlen]].
  - apply Forall_app. split.
    + eapply Forall_impl; [exact Hbefore|]. intros r (Hs & _ & _). rewrite Hs. discriminate.
    + destruct p as [|output status].
      * rewrite RunFacts.run_SpawnFails in Hsent. simpl in Hsent.
        injection Hsent as Hnil. rewrite <- Hnil. constructor.
      * rewrite RunFacts.sent_run_Runs in Hsent. apply app_inv_head in Hsent. subst last.
        repeat constructor. unfold terminalRecord. simpl.
        destruct ((Syscall.ExitStatus status =? 0) || IgnoreFailure task); discriminate.
  - eapply Forall_impl; [exact Hlast|]. intros r [Hc _]. exact Hc.
Qed.

(** C9 fails on the code.  When the subprocess cannot be created, the
runner sends its first record, finds both pipes closed, stamps the stop
time and then dereferences the nil [ProcessState]: it panics, and no
terminal record is sent. *)
Theorem run_spawn_failure_panics (self : nat) (task : Task) (startedAt stoppedAt : Z) :
  run self task Exec.SpawnFails startedAt stoppedAt
  = [StampStart startedAt; Send (startedRecord self); StampStop stoppedAt; Panic]
  /\ panics (run self task Exec.SpawnFails startedAt stoppedAt) = true
  /\ sent (run self task Exec.SpawnFails startedAt stoppedAt) = [startedRecord self]
  /\ Forall (fun r => CmdIR.Complete r = false)
            (sent (run self task Exec.SpawnFails startedAt stoppedAt)).
Proof. repeat split. repeat constructor. Qed.

(** A run whose subprocess was started sends exactly one terminal record,
last; it is complete, carries the exit status, and is a success exactly
when the exit status is zero or the task ignores failures. *)
Lemma run_terminal_record (self : nat) (task : Task) (output : list Exec.PipeMsg)
    (status startedAt stoppedAt : Z) :
  exists before terminal,
    sent (run self task (Exec.Runs output status) startedAt stoppedAt) = before ++ [terminal]
    /\ Forall intermediate before
    /\ CmdIR.Complete terminal = true
    /\ CmdIR.ReturnCode terminal = Syscall.ExitStatus status
    /\ (CmdIR.Status terminal = StatusSuccess
        <-> Syscall.ExitStatus status = 0 \/ IgnoreFailure task = true)
    /\ (CmdIR.Status terminal = StatusError
        <-> ~ (Syscall.ExitStatus status = 0 \/ IgnoreFailure task = true)).
Proof.
  exists (startedRecord self :: map (outputRecord self) output),
         (terminalRecord self task status).
  split; [apply RunFacts.sent_run_Runs|].
  split.
  { constructor; [repeat split|].
    apply Forall_fmap, Forall_forall. intros m _. apply RunFacts.outputRecord_intermediate. }
  split; [reflexivity|]. split; [reflexivity|].
  unfold terminalRecord. simpl.
  destruct (Z.eqb_spec (Syscall.ExitStatus status) 0) as [Hz|Hz];
    destruct (IgnoreFailure task); simpl;
    split; split; intros H; try reflexivity; try discriminate H; try tauto;
    try (exfalso; apply H; tauto);
    try (destruct H as [H|H]; [contradiction | discriminate H]).
  intros [H'|H']; [contradiction | discriminate H'].
Qed.

(** C4 fails on the code for a command that cannot be started: the run of
such a leaf ends in a panic and has sent no terminal record. *)
Theorem run_unspawnable_no_terminal :
  sent (run 0 Unspawnable.task Exec.SpawnFails 0 0) = [CmdIR.mk 0 StatusRunning "" "" false (-1)]
  /\ panics (run 0 Unspawnable.task Exec.SpawnFails 0 0) = true
  /\ ~ exists terminal,
         terminal ∈ sent (run 0 Unspawnable.task Exec.SpawnFails 0 0)
         /\ CmdIR.Complete terminal = true.
Proof.
  split; [reflexivity|]. split; [reflexivity|].
  intros (terminal & Hin & Hc). simpl in Hin.
  apply list_elem_of_singleton in Hin. subst terminal. discriminate Hc.
Qed.

(** ** The scheduler *)

Module SchedFacts.

Lemma running_flags (t t' : Task) :
  Started t' = Started t -> Complete t' = Complete t -> running t' = running t.
Proof. unfold running. intros -> ->. reflexivity. Qed.

Lemma runningCount_insert (ts : list Task) (i : nat) (t t' : Task) :
  ts !! i = Some t ->
  runningCount (<[i := t']> ts)
  = runningCount ts - (if running t then 1 else 0) + (if running t' then 1 else 0).
Proof.
  revert i. induction ts as [|x ts IH]; intros [|i] H; simpl in *; try discriminate.
  - injection H as ->. lia.
  - rewrite (IH i H). lia.
Qed.

Lemma alter_insert (f : Task -> Task) (ts : list Task) (i : nat) (t : Task) :
  ts !! i = Some t -> alter f i ts = <[i := f t]> ts.
Proof.
  revert i. induction ts as [|x ts IH]; intros [|i] H; simpl in *; try discriminate.
  - injection H as ->. reflexivity.
  - f_equal. apply IH. exact H.
Qed.

Lemma alter_absent (f : Task -> Task) (ts : list Task) (i : nat) :
  ts !! i = None -> alter f i ts = ts.
Proof.
  revert i. induction ts as [|x ts IH]; intros [|i] H; simpl in *; try discriminate;
    [reflexivity | reflexivity | f_equal; apply IH; exact H].
Qed.

Lemma runningCount_nonneg (ts : list Task) : 0 <= runningCount ts.
Proof. induction ts as [|t ts IH]; simpl; [lia|]. destruct (running t); lia. Qed.

Lemma runningCount_fresh (ts : list Task) : Forall fresh ts -> runningCount ts = 0.
Proof.
  induction 1 as [|t ts [Hs _] _ IH]; simpl; [reflexivity|].
  unfold running. rewrite Hs, IH. reflexivity.
Qed.

Lemma terminals_app (i : nat) (a b : list CmdIR.t) :
  terminals i (a ++ b) = (terminals i a + terminals i b)%nat.
Proof. induction a as [|r a IH]; simpl; [reflexivity|]. rewrite IH. lia. Qed.

Lemma terminals_other (i j : nat) (records : list CmdIR.t) :
  (forall r, r ∈ records -> CmdIR.Task r = j) -> i <> j -> terminals i records = O.
Proof.
  induction records as [|r records IH]; intros Hown Hne; simpl; [reflexivity|].
  rewrite IH; [|intros r' Hr'; apply Hown; right; exact Hr' | exact Hne].
  rewrite (Hown r) by left.
  destruct (Nat.eqb_spec j i); [congruence|]. rewrite andb_false_r. reflexivity.
Qed.

Lemma terminals_intermediate (i : nat) (records : list CmdIR.t) :
  Forall intermediate records -> terminals i records = O.
Proof.
  induction 1 as [|r records (_ & _ & Hc) _ IH]; simpl; [reflexivity|].
  rewrite Hc, IH. reflexivity.
Qed.

Lemma terminals_le_length (i : nat) (records : list CmdIR.t) :
  (terminals i records <= length records)%nat.
Proof.
  induction records as [|r records IH]; simpl; [lia|].
  destruct (CmdIR.Complete r && (CmdIR.Task r =? i)%nat); lia.
Qed.

(** A run holds one terminal record at most. *)
Lemma terminals_run (i self : nat) (task : Task) (p : Exec.Subprocess) (startedAt stoppedAt : Z) :
  (terminals i (sent (run self task p startedAt stoppedAt)) <= 1)%nat.
Proof.
  destruct (RunFacts.sent_run self task p startedAt stoppedAt) as (last & -> & _ & Hlen).
  rewrite terminals_app.
  rewrite terminals_intermediate.
  - pose proof (terminals_le_length i last). lia.
  - constructor; [repeat split|].
    apply Forall_fmap, Forall_forall. intros m _. apply RunFacts.outputRecord_intermediate.
Qed.

Lemma alter_lookup_flags (f : Task -> Task) (ts : list Task) (i k : nat) (t' : Task) :
  keepsFlags f -> alter f i ts !! k = Some t' ->
  exists t, ts !! k = Some t /\ Started t' = Started t /\ Complete t' = Complete t.
Proof.
  intros Hf H. destruct (decide (i = k)) as [->|Hne].
  - rewrite list_lookup_alter_eq in H. destruct (ts !! k) as [t|]; [|discriminate].
    injection H as <-. exists t. destruct (Hf t). auto.
  - rewrite list_lookup_alter_ne in H by exact Hne. exists t'. auto.
Qed.

Lemma runningCount_alter_flags (f : Task -> Task) (ts : list Task) (i : nat) :
  keepsFlags f -> runningCount (alter f i ts) = runningCount ts.
Proof.
  intros Hf. destruct (ts !! i) as [t|] eqn:E.
  - rewrite (alter_insert f ts i t E), (runningCount_insert ts i t (f t) E).
    destruct (Hf t) as [Hs Hc]. rewrite (running_flags t (f t) Hs Hc). lia.
  - rewrite alter_absent by exact E. reflexivity.
Qed.

Lemma mayPend_alter_flags (f : Task -> Task) (ts : list Task) (i k : nat) :
  keepsFlags f -> mayPend (alter f i ts) k = mayPend ts k.
Proof.
  intros Hf. unfold mayPend. destruct (decide (i = k)) as [->|Hne].
  - rewrite list_lookup_alter_eq. destruct (ts !! k) as [t|]; [|reflexivity]. simpl.
    destruct (Hf t) as [Hs Hc]. rewrite (running_flags t (f t) Hs Hc). reflexivity.
  - rewrite list_lookup_alter_ne by exact Hne. reflexivity.
Qed.

Lemma pending_insert_same (chan : list CmdIR.t) (rs : list (list Action))
    (i k : nat) (script script' : list Action) :
  rs !! i = Some script -> sent script' = sent script ->
  pending chan (<[i := script']> rs) k = pending chan rs k.
Proof.
  intros Hi Hsent. unfold pending. destruct (decide (i = k)) as [->|Hne].
  - rewrite list_lookup_insert_eq by (eapply lookup_lt_Some; exact Hi).
    rewrite Hi. simpl. rewrite Hsent. reflexivity.
  - rewrite list_lookup_insert_ne by exact Hne. reflexivity.
Qed.

(** A runner action that sends nothing and leaves the flags of its task
alone keeps the invariant. *)
Lemma coherent_act ts last rc chan rs go (i : nat) (a : Action) (rest : list Action)
    (f : Task -> Task) :
  coherent ts last rc chan rs go ->
  rs !! i = Some (a :: rest) -> sent (a :: rest) = sent rest -> keepsFlags f ->
  coherent (alter f i ts) last rc chan (<[i := rest]> rs) go.
Proof.
  intros [Hlast Hst Hco Hcount Hpend Hown Hlen Hgo] Hi Hsent Hf. constructor.
  - rewrite length_alter. exact Hlast.
  - intros k t' Hk. destruct (alter_lookup_flags f ts i k t' Hf Hk) as (t & Ht & -> & _).
    eapply Hst. exact Ht.
  - intros k t' Hk Hc. destruct (alter_lookup_flags f ts i k t' Hf Hk) as (t & Ht & _ & Hc').
    eapply Hco; [exact Ht | congruence].
  - rewrite runningCount_alter_flags by exact Hf. exact Hcount.
  - intros k. rewrite (pending_insert_same chan rs i k (a :: rest) rest Hi) by (symmetry; exact Hsent).
    rewrite mayPend_alter_flags by exact Hf. apply Hpend.
  - intros j script r Hj Hr. destruct (decide (i = j)) as [->|Hne].
    + rewrite list_lookup_insert_eq in Hj by (eapply lookup_lt_Some; exact Hi).
      injection Hj as <-. apply (Hown j (a :: rest) r Hi). rewrite Hsent. exact Hr.
    + rewrite list_lookup_insert_ne in Hj by exact Hne. eapply Hown; eassumption.
  - rewrite length_insert, length_alter. exact Hlen.
  - exact Hgo.
Qed.

(** Sending a record moves it from the runner to the channel. *)
Lemma coherent_send ts last rc chan rs go (i : nat) (r : CmdIR.t) (rest : list Action) :
  coherent ts last rc chan rs go ->
  rs !! i = Some (Send r :: rest) ->
  coherent ts last rc (chan ++ [r]) (<[i := rest]> rs) go.
Proof.
  intros [Hlast Hst Hco Hcount Hpend Hown Hlen Hgo] Hi. constructor; try assumption.
  - intros k. specialize (Hpend k). unfold pending in *.
    assert (Hr : CmdIR.Task r = i) by (apply (Hown i _ r Hi); simpl; left).
    rewrite terminals_app. destruct (decide (i = k)) as [->|Hne].
    + rewrite list_lookup_insert_eq by (eapply lookup_lt_Some; exact Hi).
      rewrite Hi in Hpend. simpl in *. lia.
    + rewrite list_lookup_insert_ne by exact Hne. simpl. rewrite Hr.
      destruct (Nat.eqb_spec i k); [contradiction|]. rewrite andb_false_r. lia.
  - intros j script r' Hj Hr'. destruct (decide (i = j)) as [->|Hne].
    + rewrite list_lookup_insert_eq in Hj by (eapply lookup_lt_Some; exact Hi).
      injection Hj as <-. apply (Hown j _ r' Hi). simpl. right. exact Hr'.
    + rewrite list_lookup_insert_ne in Hj by exact Hne. eapply Hown; eassumption.
  - rewrite length_insert. exact Hlen.
Qed.

(** Taking a record from the channel keeps the invariant. *)
Lemma coherent_drop ts last rc (msgObj : CmdIR.t) chan rs go :
  coherent ts last rc (msgObj :: chan) rs go -> coherent ts last rc chan rs go.
Proof.
  intros [Hlast Hst Hco Hcount Hpend Hown Hlen Hgo]. constructor; try assumption.
  intros k. specialize (Hpend k). unfold pending in *. simpl in Hpend. lia.
Qed.

(** Launching the next task keeps the invariant and raises the count of
running tasks by one. *)
Lemma coherent_start ts last rc chan rs go (t : Task) (script : list Action) :
  coherent ts last rc chan rs go ->
  ts !! last = Some t ->
  (forall r, r ∈ sent script -> CmdIR.Task r = last) ->
  (terminals last (sent script) <= 1)%nat ->
  coherent (<[last := set_Started true t]> ts) (S last) (rc + 1) chan
           (<[last := script]> rs) (go ++ [last]).
Proof.
  intros [Hlast Hst Hco Hcount Hpend Hown Hlen Hgo] Ht Hscript Hone.
  pose proof (lookup_lt_Some _ _ _ Ht) as Hlt.
  assert (Hs : Started t = false).
  { rewrite (Hst last t Ht). apply bool_decide_eq_false. lia. }
  assert (Hc : Complete t = false).
  { destruct (Complete t) eqn:E; [|reflexivity]. specialize (Hco last t Ht E). lia. }
  assert (Hrun : running t = false) by (unfold running; rewrite Hs; reflexivity).
  assert (Hrun' : running (set_Started true t) = true).
  { unfold running, Started, Complete in *. simpl. rewrite Hc. reflexivity. }
  constructor.
  - rewrite length_insert. lia.
  - intros k t' Hk. destruct (decide (last = k)) as [<-|Hne].
    + rewrite list_lookup_insert_eq in Hk by exact Hlt. injection Hk as <-.
      symmetry. apply bool_decide_eq_true. lia.
    + rewrite list_lookup_insert_ne in Hk by exact Hne. rewrite (Hst k t' Hk).
      apply bool_decide_ext. lia.
  - intros k t' Hk Hc'. destruct (decide (last = k)) as [<-|Hne]; [lia|].
    rewrite list_lookup_insert_ne in Hk by exact Hne. specialize (Hco k t' Hk Hc'). lia.
  - rewrite (runningCount_insert ts last t _ Ht), Hrun, Hrun'. lia.
  - intros k. specialize (Hpend k). unfold pending, mayPend in *.
    destruct (decide (last = k)) as [<-|Hne].
    + rewrite !list_lookup_insert_eq by lia. rewrite Ht, Hrun in Hpend.
      rewrite Hrun'. simpl. lia.
    + rewrite !list_lookup_insert_ne by exact Hne. exact Hpend.
  - intros j script' r Hj Hr. destruct (decide (last = j)) as [<-|Hne].
    + rewrite list_lookup_insert_eq in Hj by lia. injection Hj as <-. apply Hscript, Hr.
    + rewrite list_lookup_insert_ne in Hj by exact Hne. eapply Hown; eassumption.
  - rewrite !length_insert. exact Hlen.
  - rewrite Hgo, seq_S. reflexivity.
Qed.

(** The head of the channel, when it is a terminal record, belongs to a
running task; marking that task complete lowers the count of running tasks
by one. *)
Lemma coherent_complete ts last rc (msgObj : CmdIR.t) chan rs go (g : Task -> Task) :
  coherent ts last rc (msgObj :: chan) rs go ->
  CmdIR.Complete msgObj = true ->
  (forall t, Started (g t) = Started t /\ Complete (g t) = true) ->
  exists t,
    ts !! CmdIR.Task msgObj = Some t /\ running t = true
    /\ (CmdIR.Task msgObj < last)%nat
    /\ coherent (alter g (CmdIR.Task msgObj) ts) last (rc - 1) chan rs go.
Proof.
  intros [Hlast Hst Hco Hcount Hpend Hown Hlen Hgo] Hmsg Hg.
  set (i := CmdIR.Task msgObj).
  assert (Hhead : forall k, pending (msgObj :: chan) rs k
                            = ((if (i =? k)%nat then 1 else 0) + pending chan rs k)%nat).
  { intros k. unfold pending. simpl. rewrite Hmsg. simpl. fold i. lia. }
  pose proof (Hpend i) as Hi. rewrite Hhead, Nat.eqb_refl in Hi.
  unfold mayPend in Hi. destruct (ts !! i) as [t|] eqn:Ht; [|lia].
  destruct (running t) eqn:Hrun; [|lia].
  assert (Hlt : (i < last)%nat).
  { unfold running in Hrun. apply andb_prop in Hrun as [Hs _].
    rewrite (Hst i t Ht) in Hs. apply bool_decide_eq_true in Hs. exact Hs. }
  assert (Hrun' : running (g t) = false).
  { unfold running. destruct (Hg t) as [_ ->]. apply andb_false_r. }
  exists t. repeat split; try assumption.
  - rewrite length_alter. exact Hlast.
  - intros k t' Hk. destruct (decide (i = k)) as [<-|Hne].
    + rewrite list_lookup_alter_eq, Ht in Hk. injection Hk as <-.
      destruct (Hg t) as [-> _]. apply (Hst i t Ht).
    + rewrite list_lookup_alter_ne in Hk by exact Hne. apply (Hst k t' Hk).
  - intros k t' Hk Hc. destruct (decide (i = k)) as [<-|Hne]; [exact Hlt|].
    rewrite list_lookup_alter_ne in Hk by exact Hne. apply (Hco k t' Hk Hc).
  - rewrite (alter_insert g ts i t Ht), (runningCount_insert ts i t _ Ht), Hrun, Hrun'. lia.
  - intros k. specialize (Hpend k). rewrite Hhead in Hpend. unfold mayPend in *.
    destruct (decide (i = k)) as [<-|Hne].
    + rewrite Nat.eqb_refl, Ht, Hrun in Hpend. lia.
    + rewrite list_lookup_alter_ne by exact Hne. lia.
  - rewrite length_alter. exact Hlen.
Qed.

Lemma keepsFlags_StartTime (now : Z) : keepsFlags (set_StartTime now).
Proof. intros t. split; reflexivity. Qed.

Lemma keepsFlags_StopTime (now : Z) : keepsFlags (set_StopTime now).
Proof. intros t. split; reflexivity. Qed.

Lemma keepsFlags_id : keepsFlags (fun t => t).
Proof. intros t. split; reflexivity. Qed.

(** [startTask] at the system level. *)
Lemma Coherent_startTask (W : World) (sys : System) :
  Coherent sys ->
  (lastStartedTask (sched sys) < length (tasks (sched sys)))%nat ->
  Coherent (startTask W sys)
  /\ runningCmds (sched (startTask W sys)) = runningCmds (sched sys) + 1
  /\ lastStartedTask (sched (startTask W sys)) = S (lastStartedTask (sched sys))
  /\ length (tasks (sched (startTask W sys))) = length (tasks (sched sys))
  /\ exitSignaled (startTask W sys) = exitSignaled sys
  /\ crashed (startTask W sys) = crashed sys
  /\ (forall k t', tasks (sched (startTask W sys)) !! k = Some t' -> Complete t' = true ->
        (k < lastStartedTask (sched sys))%nat).
Proof.
  intros Hcoh Hlt. unfold startTask.
  destruct (lookup_lt_is_Some_2 _ _ Hlt) as [t Ht]. rewrite Ht.
  unfold Coherent. simpl. split_and!; try reflexivity.
  - apply coherent_start; try assumption.
    + intros r. apply RunFacts.sent_run_owner.
    + apply terminals_run.
  - apply length_insert.
  - intros k t' Hk Hc. destruct (decide (lastStartedTask (sched sys) = k)) as [<-|Hne].
    + rewrite list_lookup_insert_eq in Hk by exact Hlt. injection Hk as <-.
      apply (coh_complete _ _ _ _ _ _ Hcoh _ t Ht). exact Hc.
    + rewrite list_lookup_insert_ne in Hk by exact Hne.
      apply (coh_complete _ _ _ _ _ _ Hcoh _ t' Hk Hc).
Qed.

(** A step of a runner keeps the invariant and the counters. *)
Lemma Coherent_runnerStep (i : nat) (sys sys' : System) :
  Coherent sys -> runnerStep i sys = Some sys' ->
  Coherent sys'
  /\ runningCmds (sched sys') = runningCmds (sched sys)
  /\ lastStartedTask (sched sys') = lastStartedTask (sched sys)
  /\ length (tasks (sched sys')) = length (tasks (sched sys))
  /\ (forall k t', tasks (sched sys') !! k = Some t' ->
        exists t, tasks (sched sys) !! k = Some t
                  /\ Started t' = Started t /\ Complete t' = Complete t).
Proof.
  intros Hcoh Hstep. unfold runnerStep in Hstep.
  destruct (runners sys !! i) as [[|a rest]|] eqn:Hi; try discriminate.
  unfold Coherent in *.
  destruct a; simpl in Hstep.
  - injection Hstep as <-. simpl. split_and!; try reflexivity.
    + apply (coherent_act _ _ _ _ _ _ i _ rest _ Hcoh Hi eq_refl (keepsFlags_StartTime now)).
    + apply length_alter.
    + intros k t'. apply alter_lookup_flags, keepsFlags_StartTime.
  - destruct (Z.of_nat (length (resultChan sys)) <? resultChanCap); [|discriminate].
    injection Hstep as <-. simpl. split_and!; try reflexivity.
    + apply (coherent_send _ _ _ _ _ _ i record rest Hcoh Hi).
    + intros k t' Hk. exists t'. auto.
  - injection Hstep as <-. simpl. split_and!; try reflexivity.
    + apply (coherent_act _ _ _ _ _ _ i _ rest _ Hcoh Hi eq_refl (keepsFlags_StopTime now)).
    + apply length_alter.
    + intros k t'. apply alter_lookup_flags, keepsFlags_StopTime.
  - injection Hstep as <-. simpl. split_and!; try reflexivity.
    + pose proof (coherent_act _ _ _ _ _ _ i _ rest _ Hcoh Hi eq_refl keepsFlags_id) as H.
      rewrite list_alter_id in H by reflexivity. exact H.
    + intros k t' Hk. exists t'. auto.
  - injection Hstep as <-. simpl. split_and!; try reflexivity.
    + pose proof (coherent_act _ _ _ _ _ _ i _ rest _ Hcoh Hi eq_refl keepsFlags_id) as H.
      rewrite list_alter_id in H by reflexivity. exact H.
    + intros k t' Hk. exists t'. auto.
Qed.

Lemma Coherent_recordFailure (msgObj : CmdIR.t) (sys : System) :
  (Coherent (recordFailure msgObj sys) <-> Coherent sys)
  /\ tasks (sched (recordFailure msgObj sys)) = tasks (sched sys)
  /\ lastStartedTask (sched (recordFailure msgObj sys)) = lastStartedTask (sched sys)
  /\ runningCmds (sched (recordFailure msgObj sys)) = runningCmds (sched sys)
  /\ goStatements (recordFailure msgObj sys) = goStatements sys
  /\ exitSignaled (recordFailure msgObj sys) = exitSignaled sys
  /\ crashed (recordFailure msgObj sys) = crashed sys.
Proof. unfold recordFailure, Coherent. destruct (CmdIR.Status msgObj); simpl; tauto. Qed.

(** A terminal record launches the next task, if there is one, in the same
step. *)
Lemma receive_launches (W : World) (sys : System) (msgObj : CmdIR.t) :
  CmdIR.Complete msgObj = true ->
  (lastStartedTask (sched sys) < length (tasks (sched sys)))%nat ->
  lastStartedTask (sched (receive W sys msgObj)) = S (lastStartedTask (sched sys))
  /\ goStatements (receive W sys msgObj) = goStatements sys ++ [lastStartedTask (sched sys)]
  /\ exists t', tasks (sched (receive W sys msgObj)) !! lastStartedTask (sched sys) = Some t'
                /\ Started t' = true.
Proof.
  intros Hmsg Hlt. unfold receive. rewrite Hmsg.
  destruct (Coherent_recordFailure msgObj
              (if (lastStartedTask (sched (set_sched (markComplete (sched sys) msgObj) sys))
                   <? length (tasks (sched (set_sched (markComplete (sched sys) msgObj) sys))))%nat
               then startTask W (set_sched (markComplete (sched sys) msgObj) sys)
               else set_sched (markComplete (sched sys) msgObj) sys))
    as (_ & -> & -> & _ & -> & _).
  simpl. rewrite length_alter.
  destruct (Nat.ltb_spec (lastStartedTask (sched sys)) (length (tasks (sched sys)))); [|lia].
  unfold startTask. simpl.
  destruct (lookup_lt_is_Some_2
              (alter (fun eventTask =>
                        set_ReturnCode (CmdIR.ReturnCode msgObj) (set_Complete true eventTask))
                     (CmdIR.Task msgObj) (tasks (sched sys)))
              (lastStartedTask (sched sys))) as [t Ht].
  { rewrite length_alter. exact Hlt. }
  rewrite Ht. simpl. split_and!; try reflexivity.
  exists (set_Started true t). split; [|reflexivity].
  apply list_lookup_insert_eq. rewrite length_alter. exact Hlt.
Qed.

(** Receiving a record keeps the invariant, does not raise the count of
running tasks, and leaves the successor of every complete task started. *)
Lemma Coherent_receive (W : World) (sys : System) (msgObj : CmdIR.t) :
  coherent (tasks (sched sys)) (lastStartedTask (sched sys)) (runningCmds (sched sys))
           (msgObj :: resultChan sys) (runners sys) (goStatements sys) ->
  successorsStarted sys ->
  Coherent (receive W sys msgObj)
  /\ runningCmds (sched (receive W sys msgObj)) <= runningCmds (sched sys)
  /\ successorsStarted (receive W sys msgObj)
  /\ length (tasks (sched (receive W sys msgObj))) = length (tasks (sched sys))
  /\ exitSignaled (receive W sys msgObj) = exitSignaled sys
  /\ crashed (receive W sys msgObj) = crashed sys.
Proof.
  intros Hcoh Hsucc. unfold receive.
  destruct (CmdIR.Complete msgObj) eqn:Hmsg.
  2:{ split_and!; try reflexivity; try assumption; try lia.
      apply (coherent_drop _ _ _ msgObj). exact Hcoh. }
  destruct (coherent_complete _ _ _ _ _ _ _
              (fun eventTask =>
                 set_ReturnCode (CmdIR.ReturnCode msgObj) (set_Complete true eventTask))
              Hcoh Hmsg) as (t & Ht & Hrun & Hlt & Hcoh1).
  { intros t. split; reflexivity. }
  set (sys1 := set_sched (markComplete (sched sys) msgObj) sys).
  assert (Hsys1 : Coherent sys1) by exact Hcoh1.
  assert (Hlen1 : length (tasks (sched sys1)) = length (tasks (sched sys))).
  { simpl. apply length_alter. }
  assert (Hlast1 : lastStartedTask (sched sys1) = lastStartedTask (sched sys)) by reflexivity.
  assert (Hrc1 : runningCmds (sched sys1) = runningCmds (sched sys) - 1) by reflexivity.
  destruct (Nat.ltb_spec (lastStartedTask (sched sys1)) (length (tasks (sched sys1))))
    as [Hnext|Hnone].
  - destruct (Coherent_startTask W sys1 Hsys1 Hnext)
      as (Hcoh2 & Hrc2 & Hlast2 & Hlen2 & Hex2 & Hcr2 & Hdone2).
    destruct (Coherent_recordFailure msgObj (startTask W sys1))
      as (Hiff & Hts & Hl & Hrc & _ & Hex & Hcr).
    split_and!.
    + apply Hiff. exact Hcoh2.
    + rewrite Hrc, Hrc2, Hrc1. lia.
    + unfold successorsStarted. rewrite Hts, Hl, Hlast2.
      intros k t' Hk Hc _. specialize (Hdone2 k t' Hk Hc). lia.
    + rewrite Hts, Hlen2. exact Hlen1.
    + rewrite Hex, Hex2. reflexivity.
    + rewrite Hcr, Hcr2. reflexivity.
  - destruct (Coherent_recordFailure msgObj sys1) as (Hiff & Hts & Hl & Hrc & _ & Hex & Hcr).
    split_and!.
    + apply Hiff. exact Hsys1.
    + rewrite Hrc, Hrc1. lia.
    + unfold successorsStarted. rewrite Hts, Hl. intros k t' _ _ Hk. lia.
    + rewrite Hts. exact Hlen1.
    + rewrite Hex. reflexivity.
    + rewrite Hcr. reflexivity.
Qed.

Lemma invariant_step (W : World) (cap : Z) (c : Choice) (sys sys' : System) :
  invariant cap sys -> step W c sys = Some sys' ->
  invariant cap sys' /\ length (tasks (sched sys')) = length (tasks (sched sys)).
Proof.
  intros (Hcoh & Hsucc & Hcap) Hstep. unfold step in Hstep.
  destruct (crashed sys); [discriminate|]. destruct c as [i|].
  - destruct (Coherent_runnerStep i sys sys' Hcoh Hstep) as (Hcoh' & Hrc & Hlast & Hlen & Hflags).
    split; [|exact Hlen]. split_and!; [exact Hcoh' | | lia].
    unfold successorsStarted. rewrite Hlast, Hlen. intros k t' Hk Hc Hnext.
    destruct (Hflags k t' Hk) as (t & Ht & _ & Hc').
    apply (Hsucc k t Ht); [congruence | exact Hnext].
  - unfold schedulerStep in Hstep.
    destruct (0 <? runningCmds (sched sys)); [|discriminate].
    destruct (resultChan sys) as [|msgObj rest] eqn:Hchan; [discriminate|].
    injection Hstep as <-.
    destruct (Coherent_receive W
                (mkSystem (sched sys) rest (runners sys) (goStatements sys)
                          (exitSignaled sys) (crashed sys)) msgObj)
      as (Hcoh' & Hrc & Hsucc' & Hlen & _).
    + simpl. unfold Coherent in Hcoh. rewrite Hchan in Hcoh. exact Hcoh.
    + exact Hsucc.
    + split; [|exact Hlen]. split_and!; [exact Hcoh' | exact Hsucc' |].
      simpl in Hrc. lia.
Qed.

Lemma invariant_exec (W : World) (cap : Z) (choices : list Choice) (sys sys' : System) :
  invariant cap sys -> exec W choices sys = Some sys' ->
  invariant cap sys' /\ length (tasks (sched sys')) = length (tasks (sched sys)).
Proof.
  revert sys. induction choices as [|c choices IH]; intros sys Hinv Hexec; simpl in Hexec.
  - injection Hexec as <-. auto.
  - destruct (step W c sys) as [sys1|] eqn:Hstep; [|discriminate].
    destruct (invariant_step W cap c sys sys1 Hinv Hstep) as [Hinv1 Hlen1].
    destruct (IH sys1 Hinv1 Hexec) as [Hinv' Hlen']. split; [exact Hinv'|]. congruence.
Qed.

(** The loop that launches the first tasks. *)
Lemma invariant_startLoop (Options : OptionsT) (W : World) (fuel : nat) (sys : System) :
  Coherent sys -> successorsStarted sys ->
  runningCmds (sched sys) = Z.of_nat (lastStartedTask (sched sys)) ->
  runningCmds (sched sys) <= Z.max 0 (MaxParallelCmds Options) ->
  invariant (Z.max 0 (MaxParallelCmds Options)) (startLoop Options W fuel sys)
  /\ length (tasks (sched (startLoop Options W fuel sys))) = length (tasks (sched sys)).
Proof.
  revert sys. induction fuel as [|fuel IH]; intros sys Hcoh Hsucc Hrc Hcap; simpl.
  - unfold invariant. auto.
  - destruct (Z.ltb_spec (Z.of_nat (lastStartedTask (sched sys))) (MaxParallelCmds Options))
      as [Hroom|Hfull]; simpl; [|unfold invariant; auto].
    destruct (Nat.ltb_spec (lastStartedTask (sched sys)) (length (tasks (sched sys))))
      as [Hnext|Hnone]; [|unfold invariant; auto].
    destruct (Coherent_startTask W sys Hcoh Hnext)
      as (Hcoh' & Hrc' & Hlast' & Hlen' & _ & _ & Hdone).
    destruct (IH (startTask W sys)) as [Hinv Hlen]; try assumption.
    + unfold successorsStarted. rewrite Hlast'. intros k t' Hk Hc _.
      specialize (Hdone k t' Hk Hc). lia.
    + rewrite Hrc', Hlast', Hrc. lia.
    + rewrite Hrc', Hrc. lia.
    + split; [exact Hinv|]. congruence.
Qed.

Lemma coherent_initial (ts : list Task) :
  Forall fresh ts -> coherent ts 0 0 [] (replicate (length ts) []) [].
Proof.
  intros Hfresh. constructor.
  - lia.
  - intros i t Ht. destruct (Forall_lookup_1 _ _ _ _ Hfresh Ht) as [Hs _].
    rewrite Hs. symmetry. apply bool_decide_eq_false. lia.
  - intros i t Ht Hc. destruct (Forall_lookup_1 _ _ _ _ Hfresh Ht) as [_ Hc']. congruence.
  - symmetry. apply runningCount_fresh. exact Hfresh.
  - intros i. unfold pending. simpl.
    destruct (replicate (length ts) [] !! i) as [script|] eqn:E; simpl; [|lia].
    apply lookup_replicate in E as [-> _]. simpl. lia.
  - intros j script r Hj Hr. apply lookup_replicate in Hj as [-> _].
    simpl in Hr. inversion Hr.
  - apply length_replicate.
  - reflexivity.
Qed.

Lemma fresh_reset (ts : list Task) : Forall fresh ts -> Forall fresh (map (set_Started false) ts).
Proof.
  intros H. apply Forall_fmap. eapply Forall_impl; [exact H|].
  intros t [_ Hc]. split; [reflexivity | exact Hc].
Qed.

(** The invariant holds when the event loop is entered. *)
Lemma invariant_Process_start (Options : OptionsT) (W : World) (completed : Z)
    (cache : gmap string Z) (task : Task) :
  Forall fresh (Tasks task) ->
  invariant (Z.max 0 (MaxParallelCmds Options)) (Process_start Options W completed cache task)
  /\ length (tasks (sched (Process_start Options W completed cache task)))
     = length (Tasks task).
Proof.
  intros Hfresh. unfold Process_start.
  set (tasks1 := if Vintage Options then Tasks task else map (set_Started false) (Tasks task)).
  assert (Hfresh1 : Forall fresh tasks1).
  { unfold tasks1. destruct (Vintage Options); [exact Hfresh | apply fresh_reset, Hfresh]. }
  assert (Hlen1 : length tasks1 = length (Tasks task)).
  { unfold tasks1. destruct (Vintage Options); [reflexivity | apply length_map]. }
  destruct (invariant_startLoop Options W (length tasks1)
              (mkSystem (mkSched tasks1 0 0 StatusSuccess [] completed cache)
                        [] (replicate (length tasks1) []) [] false false))
    as [Hinv Hlen].
  - apply coherent_initial. exact Hfresh1.
  - intros k t Hk Hc. simpl in Hk.
    destruct (Forall_lookup_1 _ _ _ _ Hfresh1 Hk) as [_ Hc']. congruence.
  - reflexivity.
  - simpl. lia.
  - split; [exact Hinv|]. rewrite Hlen. exact Hlen1.
Qed.

End SchedFacts.

(** C2.  At every moment of a [Process] call the number of children that
are started and not complete is at most [MaxParallelCmds]; the children
started are the first [lastStartedTask] ones and their goroutines were
launched in the declared order; and the step that receives a terminal
record launches the next unstarted child, if there is one. *)
Theorem Process_bounded_parallelism (Options : OptionsT) (W : World) (completed : Z)
    (cache : gmap string Z) (task : Task) (choices : list Choice) (sys : System)
    (Hcap : 0 <= MaxParallelCmds Options)
    (Hfresh : Forall fresh (Tasks task))
    (Hexec : exec W choices (Process_start Options W completed cache task) = Some sys) :
  length (tasks (sched sys)) = length (Tasks task)
  /\ runningCount (tasks (sched sys)) <= MaxParallelCmds Options
  /\ goStatements sys = seq 0 (lastStartedTask (sched sys))
  /\ (forall i t, tasks (sched sys) !! i = Some t ->
        Started t = bool_decide (i < lastStartedTask (sched sys))%nat)
  /\ (forall msgObj,
        CmdIR.Complete msgObj = true ->
        (lastStartedTask (sched sys) < length (tasks (sched sys)))%nat ->
        lastStartedTask (sched (receive W sys msgObj)) = S (lastStartedTask (sched sys))
        /\ goStatements (receive W sys msgObj)
           = goStatements sys ++ [lastStartedTask (sched sys)]
        /\ exists t', tasks (sched (receive W sys msgObj)) !! lastStartedTask (sched sys)
                      = Some t'
                      /\ Started t' = true).
Proof.
  destruct (SchedFacts.invariant_Process_start Options W completed cache task Hfresh)
    as [Hinv0 Hlen0].
  destruct (SchedFacts.invariant_exec W _ choices _ sys Hinv0 Hexec)
    as [(Hcoh & _ & Hrc) Hlen].
  destruct Hcoh as [_ Hst _ Hcount _ _ _ Hgo].
  split_and!.
  - congruence.
  - rewrite <- Hcount. lia.
  - exact Hgo.
  - exact Hst.
  - intros msgObj. apply SchedFacts.receive_launches.
Qed.

(** Only an Error record adds its task to [failedTasks]. *)
Lemma receive_failedTasks (W : World) (sys : System) (msgObj : CmdIR.t) :
  failedTasks (sched (receive W sys msgObj))
  = match CmdIR.Complete msgObj, CmdIR.Status msgObj with
    | true, StatusError => failedTasks (sched sys) ++ [CmdIR.Task msgObj]
    | _, _ => failedTasks (sched sys)
    end.
Proof.
  unfold receive. destruct (CmdIR.Complete msgObj); [|destruct (CmdIR.Status msgObj); reflexivity].
  assert (Hkept : forall sys1 : System,
             failedTasks (sched (if (lastStartedTask (sched sys1) <? length (tasks (sched sys1)))%nat
                                 then startTask W sys1 else sys1))
             = failedTasks (sched sys1)).
  { intros sys1. destruct (_ <? _)%nat; [|reflexivity].
    unfold startTask. destruct (tasks (sched sys1) !! lastStartedTask (sched sys1)); reflexivity. }
  cbv zeta. unfold recordFailure.
  pose proof (Hkept (set_sched (markComplete (sched sys) msgObj) sys)) as H.
  destruct (CmdIR.Status msgObj); cbn [failedTasks sched set_sched] in *;
    rewrite ?H; reflexivity.
Qed.

(** S4: the child that runs [false] with ignore-failure set ends with a
Success record that carries the return code 1, and the scheduler does not
add it to [failedTasks]. *)
Example run_ignored_failure (W : World) (sys : System) :
  sent (run 0 IgnoreFailure.first (Exec.Runs [] (exitedWith 1)) 0 0)
  = [CmdIR.mk 0 StatusRunning "" "" false (-1); CmdIR.mk 0 StatusSuccess "" "" true 1]
  /\ failedTasks (sched (receive W sys (CmdIR.mk 0 StatusSuccess "" "" true 1)))
     = failedTasks (sched sys).
Proof. split; [reflexivity|]. rewrite receive_failedTasks. reflexivity. Qed.

(** Whatever the group, once a child is complete the child declared after
it has been started. *)
Lemma Process_starts_successor (Options : OptionsT) (W : World) (completed : Z)
    (cache : gmap string Z) (task : Task) (choices : list Choice) (sys : System) :
  Forall fresh (Tasks task) ->
  exec W choices (Process_start Options W completed cache task) = Some sys ->
  forall i t,
    tasks (sched sys) !! i = Some t -> Complete t = true ->
    (S i < length (tasks (sched sys)))%nat ->
    exists t', tasks (sched sys) !! S i = Some t' /\ Started t' = true.
Proof.
  intros Hfresh Hexec i t Ht Hc Hnext.
  destruct (SchedFacts.invariant_Process_start Options W completed cache task Hfresh)
    as [Hinv0 _].
  destruct (SchedFacts.invariant_exec W _ choices _ sys Hinv0 Hexec)
    as [(Hcoh & Hsucc & _) _].
  destruct (lookup_lt_is_Some_2 _ _ Hnext) as [t' Ht'].
  exists t'. split; [exact Ht'|].
  rewrite (coh_started _ _ _ _ _ _ Hcoh _ t' Ht').
  apply bool_decide_eq_true. apply (Hsucc i t Ht Hc Hnext).
Qed.

(** C2 on the group of S3: after the whole run no child is running. *)
Lemma Process_bounded_parallelism_witness :
  exists sys,
    exec StopOnFailure.world StopOnFailure.schedule
         (Process_start StopOnFailure.options StopOnFailure.world 0 ∅ StopOnFailure.inflated)
    = Some sys
    /\ runningCount (tasks (sched sys)) <= 1
    /\ goStatements sys = [0; 1; 2]%nat.
Proof.
  assert (Hsys : exists sys,
             exec StopOnFailure.world StopOnFailure.schedule
                  (Process_start StopOnFailure.options StopOnFailure.world 0 ∅
                                 StopOnFailure.inflated) = Some sys
             /\ lastStartedTask (sched sys) = 3%nat).
  { eexists. split; vm_compute; reflexivity. }
  destruct Hsys as (sys & Hexec & Hlast). exists sys. split; [exact Hexec|].
  destruct (Process_bounded_parallelism StopOnFailure.options StopOnFailure.world 0 ∅
              StopOnFailure.inflated StopOnFailure.schedule sys)
    as (_ & Hrun & Hgo & _).
  - vm_compute. discriminate.
  - vm_compute. repeat constructor.
  - exact Hexec.
  - split; [exact Hrun|]. rewrite Hgo, Hlast. reflexivity.
Defined.

(** C1 fails on the code.  In every execution of S3, as soon as the
terminal record of the second child, which failed with stop-on-failure, has
been processed, the third child is started. *)
Theorem stop_on_failure_starts_third (choices : list Choice) (sys : System) (second : Task)
    (Hexec : exec StopOnFailure.world choices
               (Process_start StopOnFailure.options StopOnFailure.world 0 ∅
                              StopOnFailure.inflated) = Some sys)
    (Hsecond : tasks (sched sys) !! 1%nat = Some second)
    (Hcomplete : Complete second = true) :
  exists third, tasks (sched sys) !! 2%nat = Some third /\ Started third = true.
Proof.
  assert (Hfresh : Forall fresh (Tasks StopOnFailure.inflated)).
  { vm_compute. repeat constructor. }
  destruct (SchedFacts.invariant_Process_start StopOnFailure.options StopOnFailure.world 0 ∅
              StopOnFailure.inflated Hfresh) as [Hinv0 Hlen0].
  destruct (SchedFacts.invariant_exec _ _ choices _ sys Hinv0 Hexec) as [_ Hlen].
  apply (Process_starts_successor _ _ _ _ _ choices sys Hfresh Hexec 1%nat second Hsecond Hcomplete).
  rewrite Hlen, Hlen0. vm_compute. lia.
Qed.

(** The run of S3 in which every runner finishes before the scheduler reads
on: the second child fails and sets [exitSignaled], the third child is
started all the same and runs to completion, and [Process] returns the
second child alone. *)
Lemma stop_on_failure_starts_third_witness :
  exists sys third,
    exec StopOnFailure.world StopOnFailure.schedule
         (Process_start StopOnFailure.options StopOnFailure.world 0 ∅ StopOnFailure.inflated)
    = Some sys
    /\ tasks (sched sys) !! 2%nat = Some third
    /\ Started third = true
    /\ Complete third = true
    /\ exitSignaled sys = true
    /\ Process_returns sys = Some [1%nat].
Proof.
  assert (Hsys : exists sys second,
             exec StopOnFailure.world StopOnFailure.schedule
                  (Process_start StopOnFailure.options StopOnFailure.world 0 ∅
                                 StopOnFailure.inflated) = Some sys
             /\ tasks (sched sys) !! 1%nat = Some second
             /\ Complete second = true
             /\ (forall third, tasks (sched sys) !! 2%nat = Some third -> Complete third = true)
             /\ exitSignaled sys = true
             /\ Process_returns sys = Some [1%nat]).
  { do 2 eexists. split_and!; try (vm_compute; reflexivity).
    intros third H. vm_compute in H. injection H as <-. reflexivity. }
  destruct Hsys as (sys & second & Hexec & Hsecond & Hcomplete & Hthird & Hexit & Hret).
  destruct (stop_on_failure_starts_third StopOnFailure.schedule sys second Hexec Hsecond Hcomplete)
    as (third & Hlookup & Hstarted).
  exists sys, third. split_and!; auto.
Defined.


(** ** The ETA simulation *)

Module FloatFacts.

(** *** Rounding keeps the sign *)

Lemma shr_1_nonneg (mrs : shr_record) : 0 <= shr_m mrs -> 0 <= shr_m (shr_1 mrs).
Proof.
  destruct mrs as [m r s]. cbn [shr_m]. intros H.
  destruct m as [|[p|p|]|p]; cbn; lia.
Qed.

Lemma iter_shr_1_nonneg (p : positive) (mrs : shr_record) :
  0 <= shr_m mrs -> 0 <= shr_m (SpecFloat.iter_pos shr_1 p mrs).
Proof.
  revert mrs. induction p as [p IH|p IH|]; intros mrs H; cbn [SpecFloat.iter_pos].
  - apply IH, IH, shr_1_nonneg, H.
  - apply IH, IH, H.
  - apply shr_1_nonneg, H.
Qed.

Lemma shr_fexp_nonneg (m e : Z) (l : location) :
  0 <= m -> 0 <= shr_m (fst (shr_fexp Float64.prec Float64.emax m e l)).
Proof.
  intros H. unfold shr_fexp, shr.
  assert (H0 : 0 <= shr_m (shr_record_of_loc m l)).
  { destruct l as [|[]]; exact H. }
  destruct (_ - e)%Z; cbn [fst]; try exact H0.
  apply iter_shr_1_nonneg, H0.
Qed.

Lemma round_nearest_even_nonneg (m : Z) (l : location) :
  0 <= m -> 0 <= round_nearest_even m l.
Proof.
  intros H. destruct l as [|[]]; cbn; try lia. destruct (Z.even m); lia.
Qed.

Lemma binary_round_aux_regular (m e : Z) (l : location) :
  0 <= m -> Float64.regular (binary_round_aux Float64.prec Float64.emax false m e l) = true.
Proof.
  intros H. unfold binary_round_aux.
  pose proof (shr_fexp_nonneg m e l H) as H1.
  destruct (shr_fexp Float64.prec Float64.emax m e l) as [mrs' e'] eqn:E1. cbn [fst] in H1.
  pose proof (shr_fexp_nonneg (round_nearest_even (shr_m mrs') (loc_of_shr_record mrs')) e'
                loc_Exact (round_nearest_even_nonneg _ _ H1)) as H2.
  destruct (shr_fexp Float64.prec Float64.emax _ e' loc_Exact) as [mrs'' e''] eqn:E2.
  cbn [fst] in H2.
  destruct (shr_m mrs'') as [|p|p]; [reflexivity| |lia].
  destruct (_ <=? _)%Z; reflexivity.
Qed.

Lemma binary_normalize_regular (m e : Z) :
  0 <= m -> Float64.regular (binary_normalize Float64.prec Float64.emax m e false) = true.
Proof.
  intros H. destruct m as [|p|p]; [reflexivity| |lia].
  cbn [binary_normalize]. unfold binary_round.
  destruct (shl_align _ _ _) as [mz ez]. apply binary_round_aux_regular. lia.
Qed.

(** *** The operations on regular values *)

Lemma regular_ofInt (n : Z) : 0 <= n -> Float64.regular (Float64.ofInt n) = true.
Proof. apply binary_normalize_regular. Qed.

Lemma regular_add (x y : Float64.t) :
  Float64.regular x = true -> Float64.regular y = true ->
  Float64.regular (Float64.add x y) = true.
Proof.
  destruct x as [[]|[]| |[] mx ex], y as [[]|[]| |[] my ey]; cbn; try discriminate;
    intros _ _; try reflexivity.
  apply binary_normalize_regular. lia.
Qed.

Lemma add_zero (x : Float64.t) :
  Float64.regular x = true -> Float64.add Float64.zero x = x.
Proof. destruct x as [[]|[]| |[] mx ex]; cbn; try discriminate; reflexivity. Qed.

Lemma regular_div (x : Float64.t) (m : positive) (e : Z) :
  Float64.regular x = true ->
  Float64.regular (Float64.div x (S754_finite false m e)) = true.
Proof.
  destruct x as [[]|[]| |[] mx ex]; cbn; try discriminate; intros _; try reflexivity.
  unfold SFdiv_core_binary.
  set (m' := match _ - _ - _ with Zpos _ => Z.shiftl (Zpos mx) _ | Z0 => Zpos mx | Zneg _ => 0 end).
  assert (Hm' : 0 <= m').
  { unfold m'. destruct (_ - _ - _)%Z; try lia. apply Z.shiftl_nonneg. lia. }
  pose proof (Z.div_pos m' (Zpos m) Hm' ltac:(lia)) as Hq.
  unfold Z.div in Hq. destruct (Z.div_eucl m' (Zpos m)) as [q r].
  apply binary_round_aux_regular. exact Hq.
Qed.

(** *** The order of regular values *)

Lemma ltb_below (x y : Float64.t) :
  Float64.regular x = true -> Float64.regular y = true ->
  (Float64.ltb x y = true <-> Float64.below x y).
Proof.
  destruct x as [[]|[]| |[] m1 e1], y as [[]|[]| |[] m2 e2]; cbn; try discriminate;
    intros _ _; try (split; [intros H; first [discriminate H | exact I] | intros H; first [contradiction | reflexivity]]).
  unfold Float64.ltb, SFltb, SFcompare.
  destruct (Z.compare_spec e1 e2) as [He|He|He].
  - rewrite Pos.compare_cont_spec. cbn [Pos.switch_Eq].
    destruct (Pos.compare_spec m1 m2) as [Hm|Hm|Hm]; split; intros H;
      try discriminate; try reflexivity; try lia.
  - split; [intros _; left; exact He | reflexivity].
  - split; [discriminate | lia].
Qed.

Lemma below_irrefl (x : Float64.t) : ~ Float64.below x x.
Proof. destruct x as [s|s| |s m e]; cbn; lia. Qed.

Lemma below_trans (x y z : Float64.t) : Float64.below x y -> Float64.below y z -> Float64.below x z.
Proof.
  destruct x as [?|?| |? m1 e1], y as [?|?| |? m2 e2], z as [?|?| |? m3 e3]; cbn;
    try contradiction; try (intros; exact I). lia.
Qed.

Lemma below_total (x y : Float64.t) :
  Float64.regular x = true -> Float64.regular y = true ->
  Float64.below x y \/ x = y \/ Float64.below y x.
Proof.
  destruct x as [[]|[]| |[] m1 e1], y as [[]|[]| |[] m2 e2]; cbn; try discriminate;
    intros _ _; auto.
  destruct (Z.lt_total e1 e2) as [H|[H|H]]; [left; lia| |right; right; lia].
  destruct (Pos.lt_total m1 m2) as [Hm|[Hm|Hm]];
    [left; lia | right; left; subst; reflexivity | right; right; lia].
Qed.

Lemma ltb_irrefl (x : Float64.t) : Float64.regular x = true -> Float64.ltb x x = false.
Proof.
  intros Hx. destruct (Float64.ltb x x) eqn:H; [|reflexivity].
  apply (ltb_below x x Hx Hx) in H. destruct (below_irrefl x H).
Qed.

Lemma le_refl (x : Float64.t) : Float64.regular x = true -> Float64.le x x.
Proof. apply ltb_irrefl. Qed.

Lemma ltb_le (x y : Float64.t) :
  Float64.regular x = true -> Float64.regular y = true ->
  Float64.ltb x y = true -> Float64.le x y.
Proof.
  intros Hx Hy H. unfold Float64.le.
  destruct (Float64.ltb y x) eqn:H'; [|reflexivity].
  apply (ltb_below x y Hx Hy) in H. apply (ltb_below y x Hy Hx) in H'.
  destruct (below_irrefl x (below_trans _ _ _ H H')).
Qed.

(** [x <= y] means [x < y] or [x = y]. *)
Lemma le_cases (x y : Float64.t) :
  Float64.regular x = true -> Float64.regular y = true ->
  Float64.le x y -> Float64.ltb x y = true \/ x = y.
Proof.
  intros Hx Hy H. unfold Float64.le in H.
  destruct (below_total x y Hx Hy) as [Hb|[->|Hb]].
  - left. apply (ltb_below x y Hx Hy), Hb.
  - right. reflexivity.
  - apply (ltb_below y x Hy Hx) in Hb. congruence.
Qed.

Lemma le_total (x y : Float64.t) :
  Float64.regular x = true -> Float64.regular y = true ->
  Float64.le x y \/ Float64.le y x.
Proof.
  intros Hx Hy. unfold Float64.le.
  destruct (Float64.ltb y x) eqn:H; [right|left; reflexivity].
  apply (ltb_le y x Hy Hx H).
Qed.

Lemma le_trans (x y z : Float64.t) :
  Float64.regular x = true -> Float64.regular y = true -> Float64.regular z = true ->
  Float64.le x y -> Float64.le y z -> Float64.le x z.
Proof.
  intros Hx Hy Hz Hxy Hyz.
  destruct (le_cases x y Hx Hy Hxy) as [H1| ->]; [|exact Hyz].
  destruct (le_cases y z Hy Hz Hyz) as [H2| ->]; [|exact Hxy].
  apply (ltb_le x z Hx Hz). apply (ltb_below x z Hx Hz).
  apply (below_trans x y z); [apply (ltb_below x y Hx Hy), H1 | apply (ltb_below y z Hy Hz), H2].
Qed.

Lemma le_antisym (x y : Float64.t) :
  Float64.regular x = true -> Float64.regular y = true ->
  Float64.le x y -> Float64.le y x -> x = y.
Proof.
  intros Hx Hy Hxy Hyx. destruct (le_cases x y Hx Hy Hxy) as [H|H]; [|exact H].
  unfold Float64.le in Hyx. congruence.
Qed.

Lemma same_eqb (x : Float64.t) : Float64.regular x = true -> Float64.eqb x x = true.
Proof.
  destruct x as [[]|[]| |[] m e]; cbn; try discriminate; intros _; try reflexivity.
  unfold Float64.eqb, SFeqb, SFcompare.
  rewrite Z.compare_refl, Pos.compare_cont_refl. reflexivity.
Qed.

Lemma zero_le (x : Float64.t) : Float64.regular x = true -> Float64.le Float64.zero x.
Proof. destruct x as [[]|[]| |[] m e]; cbn; try discriminate; reflexivity. Qed.

(** *** The larger of two regular values *)

Lemma Max_regular (x y : Float64.t) :
  Float64.regular x = true -> Float64.regular y = true ->
  Float64.Max x y = (if Float64.ltb y x then x else y)
  /\ Float64.regular (Float64.Max x y) = true.
Proof.
  destruct x as [[]|[]| |[] m1 e1], y as [[]|[]| |[] m2 e2]; cbn; try discriminate;
    intros _ _; split; try reflexivity.
  match goal with |- context [if ?b then _ else _] => destruct b end; reflexivity.
Qed.

Lemma Max_r (x y : Float64.t) :
  Float64.regular x = true -> Float64.regular y = true ->
  Float64.le x y -> Float64.Max x y = y.
Proof.
  intros Hx Hy H. destruct (Max_regular x y Hx Hy) as [-> _].
  unfold Float64.le in H. rewrite H. reflexivity.
Qed.

Lemma Max_l (x y : Float64.t) :
  Float64.regular x = true -> Float64.regular y = true ->
  Float64.le y x -> Float64.Max x y = x.
Proof.
  intros Hx Hy H. destruct (Max_regular x y Hx Hy) as [-> _].
  destruct (Float64.ltb y x) eqn:E; [reflexivity|].
  apply (le_antisym y x Hy Hx H E).
Qed.

Lemma le_Max_l (x y : Float64.t) :
  Float64.regular x = true -> Float64.regular y = true -> Float64.le x (Float64.Max x y).
Proof.
  intros Hx Hy. destruct (le_total x y Hx Hy) as [H|H].
  - rewrite (Max_r x y Hx Hy H). exact H.
  - rewrite (Max_l x y Hx Hy H). apply le_refl, Hx.
Qed.

Lemma le_Max_r (x y : Float64.t) :
  Float64.regular x = true -> Float64.regular y = true -> Float64.le y (Float64.Max x y).
Proof.
  intros Hx Hy. destruct (le_total x y Hx Hy) as [H|H].
  - rewrite (Max_r x y Hx Hy H). apply le_refl, Hy.
  - rewrite (Max_l x y Hx Hy H). exact H.
Qed.

End FloatFacts.

Module EtaFacts.

(** *** The seconds of a duration *)

Lemma regular_Seconds (d : Z) : 0 <= d -> Float64.regular (Eta.Seconds d) = true.
Proof.
  intros Hd. unfold Eta.Seconds.
  assert (Hgiga : exists m e, Float64.ofInt 1000000000 = S754_finite false m e).
  { do 2 eexists. vm_compute. reflexivity. }
  destruct Hgiga as (m & e & ->).
  apply FloatFacts.regular_add.
  - apply FloatFacts.regular_ofInt. apply Z.quot_pos; lia.
  - apply FloatFacts.regular_div. apply FloatFacts.regular_ofInt.
    apply Z.rem_nonneg; lia.
Qed.

Lemma regular_sums (d : Float64.t) (k : nat) :
  Float64.regular d = true -> Float64.regular (Eta.sums d k) = true.
Proof.
  intros Hd. induction k as [|k IH]; [reflexivity|].
  cbn [Eta.sums]. apply FloatFacts.regular_add; assumption.
Qed.

Lemma regular_estimates (children : list Task) :
  Forall (fun c => Eta.known c = true -> 0 <= TaskCommand.EstimatedRuntime (Command c))
         children ->
  Forall (fun e => Float64.regular e = true) (Eta.estimates children).
Proof.
  unfold Eta.estimates. induction 1 as [|c children Hc _ IH]; [constructor|].
  rewrite filter_cons. destruct (decide (Eta.known c = true)) as [Hk|Hk]; [|exact IH].
  constructor; [apply regular_Seconds, Hc, Hk | exact IH].
Qed.

(** *** The smallest and the largest of a list *)

Lemma fold_pick {A : Type} (f : A -> A -> A) (rest : list A) (x : A) :
  (forall a b, f a b = a \/ f a b = b) -> fold_left f rest x ∈ x :: rest.
Proof.
  intros Hf. revert x. induction rest as [|y rest IH]; intros x; cbn [fold_left].
  - left.
  - specialize (IH (f x y)). apply elem_of_cons in IH as [->|IH].
    + destruct (Hf x y) as [->| ->]; [left | right; left].
    + right. right. exact IH.
Qed.

Lemma MinMax_in (x : Float64.t) (rest : list Float64.t) :
  fst (Eta.MinMax (x :: rest)) ∈ x :: rest /\ snd (Eta.MinMax (x :: rest)) ∈ x :: rest.
Proof.
  cbn [Eta.MinMax fst snd]. split; apply fold_pick; intros a b;
    destruct (Float64.ltb _ _); auto.
Qed.

(** The largest element after an append. *)
Lemma MinMax_snoc (x y : Float64.t) (rest : list Float64.t) :
  snd (Eta.MinMax ((x :: rest) ++ [y]))
  = (if Float64.ltb (snd (Eta.MinMax (x :: rest))) y then y else snd (Eta.MinMax (x :: rest))).
Proof. cbn [Eta.MinMax snd app]. rewrite fold_left_app. reflexivity. Qed.

Lemma remove_Forall (P : Float64.t -> Prop) (ends : list Float64.t) (v : Float64.t) :
  Forall P ends -> Forall P (Eta.remove ends v).
Proof.
  induction 1 as [|x ends Hx Hends IH]; cbn [Eta.remove]; [constructor|].
  destruct (Float64.eqb x v); [assumption | constructor; assumption].
Qed.

(** The largest end-time in flight after a start is the new end-time,
unless an older one recorded in [m] is larger. *)
Lemma max_after_append (ends : list Float64.t) (x m : Float64.t) :
  Float64.regular m = true -> Float64.regular x = true -> Eta.bounded m ends ->
  Float64.Max m (snd (Eta.MinMax (ends ++ [x]))) = Float64.Max m x.
Proof.
  intros Hm Hx Hends. destruct ends as [|h rest]; [reflexivity|].
  rewrite MinMax_snoc.
  destruct (MinMax_in h rest) as [_ Hin].
  set (M := snd (Eta.MinMax (h :: rest))) in *.
  destruct (proj1 (Forall_forall _ _) Hends M Hin) as [HM HMm].
  destruct (Float64.ltb M x) eqn:Hlt; [reflexivity|].
  rewrite (FloatFacts.Max_l m M Hm HM HMm).
  symmetry. apply (FloatFacts.Max_l m x Hm Hx).
  apply (FloatFacts.le_trans x M m Hx HM Hm); [exact Hlt | exact HMm].
Qed.

Lemma bounded_grow (m m' : Float64.t) (ends : list Float64.t) :
  Float64.regular m = true -> Float64.regular m' = true -> Float64.le m m' ->
  Eta.bounded m ends -> Eta.bounded m' ends.
Proof.
  intros Hm Hm' Hle Hends. unfold Eta.bounded in *.
  eapply Forall_impl; [exact Hends|]. intros y [Hy Hym].
  split; [exact Hy|]. apply (FloatFacts.le_trans y m m' Hy Hm Hm' Hym Hle).
Qed.

(** Starting a child at [now]: the new end-time joins the list in flight
and the largest end-time so far takes it in. *)
Lemma start_bounded (m now e : Float64.t) (ends : list Float64.t) :
  Float64.regular m = true -> Float64.regular now = true -> Float64.regular e = true ->
  Eta.bounded m ends ->
  let x := Float64.add now e in
  Float64.Max m (snd (Eta.MinMax (ends ++ [x]))) = Float64.Max m x
  /\ Float64.regular (Float64.Max m x) = true
  /\ Eta.bounded (Float64.Max m x) (ends ++ [x]).
Proof.
  intros Hm Hnow He Hends x.
  assert (Hx : Float64.regular x = true) by (apply FloatFacts.regular_add; assumption).
  destruct (FloatFacts.Max_regular m x Hm Hx) as [_ HM].
  split_and!; [apply max_after_append; assumption | exact HM |].
  apply Forall_app. split.
  - apply (bounded_grow m); [exact Hm | exact HM | apply FloatFacts.le_Max_l; assumption
                             | exact Hends].
  - constructor; [|constructor]. split; [exact Hx | apply FloatFacts.le_Max_r; assumption].
Qed.

Lemma smallest_regular (m : Float64.t) (ends : list Float64.t) :
  Eta.bounded m ends -> Float64.regular (fst (Eta.MinMax ends)) = true.
Proof.
  intros Hends. destruct ends as [|h rest]; [reflexivity|].
  destruct (MinMax_in h rest) as [Hin _].
  apply (proj1 (Forall_forall _ _) Hends _ Hin).
Qed.

(** The loop of [EstimatedRuntime] computes the largest end-time of the
simulation, children without a known estimate being skipped. *)
Lemma loop_simulate (children : list Task) :
  Forall (fun c => Eta.known c = true -> 0 <= TaskCommand.EstimatedRuntime (Command c))
         children ->
  forall st : Eta.state,
    Float64.regular (Eta.maxParallelEstimatedRuntime st) = true ->
    Float64.regular (Eta.currentSecond st) = true ->
    Eta.bounded (Eta.maxParallelEstimatedRuntime st) (Eta.taskEndSecond st) ->
    Eta.maxParallelEstimatedRuntime (fold_left Eta.body children st)
    = fold_left Float64.Max
        (Eta.simulate (Eta.remainingParallelTasks st) (Eta.taskEndSecond st)
                      (Eta.currentSecond st) (Eta.estimates children))
        (Eta.maxParallelEstimatedRuntime st).
Proof.
  induction 1 as [|c children Hc _ IH]; intros st Hm Hnow Hends; [reflexivity|].
  cbn [fold_left]. unfold Eta.estimates in *. rewrite filter_cons. unfold Eta.body at 2.
  destruct (Eta.known c) eqn:Hk.
  2:{ rewrite decide_False by congruence. apply IH; assumption. }
  rewrite decide_True by reflexivity. cbn [map Eta.simulate].
  pose proof (regular_Seconds _ (Hc eq_refl)) as He.
  destruct (Eta.remainingParallelTasks st =? 0) eqn:Hfull.
  - cbv zeta. cbn [Eta.taskEndSecond Eta.currentSecond Eta.remainingParallelTasks
                   Eta.maxParallelEstimatedRuntime fold_left].
    pose proof (smallest_regular _ _ Hends) as Hmin.
    pose proof (remove_Forall _ _ (fst (Eta.MinMax (Eta.taskEndSecond st))) Hends) as Hrest.
    destruct (start_bounded _ _ _ _ Hm Hmin He Hrest) as (Hmax & HM & Hnew).
    cbv zeta in Hmax, HM, Hnew.
    rewrite IH; cbn [Eta.taskEndSecond Eta.currentSecond Eta.remainingParallelTasks
                     Eta.maxParallelEstimatedRuntime]; rewrite ?Hmax; try assumption.
    apply Z.eqb_eq in Hfull. rewrite Hfull.
    replace (0 + 1 - 1) with 0 by lia. reflexivity.
  - cbv zeta. cbn [fold_left].
    destruct (start_bounded _ _ _ _ Hm Hnow He Hends) as (Hmax & HM & Hnew).
    cbv zeta in Hmax, HM, Hnew.
    rewrite IH; cbn [Eta.taskEndSecond Eta.currentSecond Eta.remainingParallelTasks
                     Eta.maxParallelEstimatedRuntime]; rewrite ?Hmax; try assumption.
    reflexivity.
Qed.

(** *** Children with the same estimate *)

Lemma ceilDiv_round (P q b : Z) :
  1 <= b <= P -> Eta.ceilDiv (q * P + b) P = q + 1.
Proof.
  intros Hb. unfold Eta.ceilDiv. symmetry.
  apply (Z.div_unique_pos _ _ _ (b - 1)); lia.
Qed.

Lemma ceilDiv_mono (P m m' : Z) : 1 <= P -> m <= m' -> Eta.ceilDiv m P <= Eta.ceilDiv m' P.
Proof. intros HP Hm. unfold Eta.ceilDiv. apply Z.div_le_mono; lia. Qed.

Lemma fold_min_const (l : list Float64.t) (x : Float64.t) :
  Forall (fun v => Float64.ltb v x = false) l ->
  fold_left (fun min value => if Float64.ltb value min then value else min) l x = x.
Proof.
  induction 1 as [|v l Hv _ IH]; cbn [fold_left]; [reflexivity|].
  rewrite Hv. exact IH.
Qed.

(** The smallest end-time in flight when two rounds overlap. *)
Lemma min_two_rounds (a b : nat) (x y : Float64.t) :
  Float64.regular x = true -> Float64.le x y ->
  fst (Eta.MinMax (x :: replicate a x ++ replicate b y)) = x.
Proof.
  intros Hx Hxy. cbn [Eta.MinMax fst]. apply fold_min_const. apply Forall_app. split.
  - apply Forall_replicate. apply FloatFacts.ltb_irrefl, Hx.
  - apply Forall_replicate. exact Hxy.
Qed.

Lemma remove_head (x : Float64.t) (rest : list Float64.t) :
  Float64.regular x = true -> Eta.remove (x :: rest) x = rest.
Proof. intros Hx. cbn [Eta.remove]. rewrite (FloatFacts.same_eqb x Hx). reflexivity. Qed.

Lemma replicate_snoc {A : Type} (n : nat) (x : A) : replicate n x ++ [x] = replicate (S n) x.
Proof. induction n as [|n IH]; [reflexivity|]. cbn. rewrite IH. reflexivity. Qed.

Section Uniform.

Variable P : Z.
Variable d : Float64.t.
Variable Q : nat.
Hypothesis HP : 1 <= P.
Hypothesis Hd : Float64.regular d = true.
Hypothesis Hrise : forall k, (k < Q)%nat -> Float64.le (Eta.sums d k) (Eta.sums d (S k)).

(** With all slots taken: [P - b] children of round [q] and [b] children of
round [q + 1] are in flight. *)
Lemma simulate_full (n : nat) :
  forall (q : nat) (b : Z) (now : Float64.t),
    1 <= b <= P ->
    Z.to_nat (Eta.ceilDiv (Z.of_nat q * P + b + Z.of_nat n) P) = Q ->
    fold_left Float64.Max
      (Eta.simulate 0
         (replicate (Z.to_nat (P - b)) (Eta.sums d q)
          ++ replicate (Z.to_nat b) (Eta.sums d (S q)))
         now (replicate n d))
      (Eta.sums d (S q))
    = Eta.sums d Q.
Proof.
  induction n as [|n IH]; intros q b now Hb HQ.
  - cbn [replicate Eta.simulate fold_left]. f_equal.
    rewrite Z.add_0_r, ceilDiv_round in HQ by exact Hb. lia.
  - pose proof (regular_sums d q Hd) as Hq.
    pose proof (regular_sums d (S q) Hd) as Hq1.
    pose proof (regular_sums d (S (S q)) Hd) as Hq2.
    assert (HqQ : (q < Q)%nat).
    { pose proof (ceilDiv_mono P (Z.of_nat q * P + 1) (Z.of_nat q * P + b + Z.of_nat (S n))
                    HP ltac:(lia)) as Hmono.
      rewrite ceilDiv_round in Hmono by lia. lia. }
    cbn [replicate Eta.simulate]. change (0 =? 0) with true. cbv iota zeta.
    destruct (Z.eq_dec b P) as [->|Hne].
    + assert (HqQ1 : (S q < Q)%nat).
      { pose proof (ceilDiv_mono P ((Z.of_nat q + 1) * P + 1)
                      (Z.of_nat q * P + P + Z.of_nat (S n)) HP ltac:(lia)) as Hmono.
        rewrite ceilDiv_round in Hmono by lia. lia. }
      replace (Z.to_nat (P - P)) with O by lia. cbn [replicate app].
      replace (Z.to_nat P) with (S (Z.to_nat (P - 1))) by lia. cbn [replicate].
      pose proof (min_two_rounds (Z.to_nat (P - 1)) 0 (Eta.sums d (S q)) (Eta.sums d (S q))
                    Hq1 (FloatFacts.le_refl _ Hq1)) as Hmin.
      cbn [replicate] in Hmin. rewrite app_nil_r in Hmin. rewrite Hmin.
      rewrite (remove_head _ _ Hq1). cbn [fold_left].
      change (Float64.add (Eta.sums d (S q)) d) with (Eta.sums d (S (S q))).
      rewrite (FloatFacts.Max_r _ _ Hq1 Hq2 (Hrise (S q) HqQ1)).
      apply (IH (S q) 1 (Eta.sums d (S q))); [lia|].
      rewrite <- HQ. f_equal. f_equal. lia.
    + replace (Z.to_nat (P - b)) with (S (Z.to_nat (P - (b + 1)))) by lia. cbn [replicate app].
      rewrite (min_two_rounds _ _ _ _ Hq (Hrise q HqQ)).
      rewrite (remove_head _ _ Hq). cbn [fold_left].
      change (Float64.add (Eta.sums d q) d) with (Eta.sums d (S q)).
      rewrite (FloatFacts.Max_r _ _ Hq1 Hq1 (FloatFacts.le_refl _ Hq1)).
      rewrite <- app_assoc, replicate_snoc.
      replace (S (Z.to_nat b)) with (Z.to_nat (b + 1)) by lia.
      apply (IH q (b + 1) (Eta.sums d q)); [lia|].
      rewrite <- HQ. f_equal. f_equal. lia.
Qed.

(** While slots are free: [b] children are in flight, all started at 0. *)
Lemma simulate_filling (n : nat) :
  forall b : Z,
    0 <= b < P ->
    Z.to_nat (Eta.ceilDiv (b + Z.of_nat n) P) = Q ->
    fold_left Float64.Max
      (Eta.simulate (P - b) (replicate (Z.to_nat b) (Eta.sums d 1)) Float64.zero
                    (replicate n d))
      (Eta.sums d (if b =? 0 then 0 else 1))
    = Eta.sums d Q.
Proof.
  induction n as [|n IH]; intros b Hb HQ.
  - cbn [replicate Eta.simulate fold_left]. f_equal. rewrite Z.add_0_r in HQ.
    destruct (Z.eqb_spec b 0) as [->|Hne].
    + unfold Eta.ceilDiv in HQ. rewrite Z.div_small in HQ by lia. lia.
    + pose proof (ceilDiv_round P 0 b ltac:(lia)) as H. rewrite Z.mul_0_l, Z.add_0_l in H.
      rewrite H in HQ. lia.
  - pose proof (regular_sums d 1 Hd) as H1.
    cbn [replicate Eta.simulate].
    destruct (Z.eqb_spec (P - b) 0) as [H0|_]; [lia|].
    cbn [fold_left].
    change (Float64.add Float64.zero d) with (Eta.sums d 1).
    assert (Hmax : Float64.Max (Eta.sums d (if b =? 0 then 0 else 1)) (Eta.sums d 1)
                   = Eta.sums d 1).
    { destruct (b =? 0).
      - apply FloatFacts.Max_r; [reflexivity | exact H1 | apply FloatFacts.zero_le, H1].
      - apply FloatFacts.Max_r; [exact H1 | exact H1 | apply FloatFacts.le_refl, H1]. }
    rewrite Hmax, replicate_snoc.
    replace (S (Z.to_nat b)) with (Z.to_nat (b + 1)) by lia.
    destruct (Z.eq_dec (b + 1) P) as [Hfull|Hroom].
    + replace (P - b - 1) with 0 by lia.
      pose proof (simulate_full n 0 P Float64.zero ltac:(lia)) as H.
      replace (Z.to_nat (P - P)) with O in H by lia. cbn [replicate app] in H.
      rewrite Hfull. apply H. rewrite <- HQ. f_equal. f_equal. lia.
    + replace (P - b - 1) with (P - (b + 1)) by lia.
      pose proof (IH (b + 1) ltac:(lia)) as H.
      destruct (Z.eqb_spec (b + 1) 0) as [|_]; [lia|].
      apply H. rewrite <- HQ. f_equal. f_equal. lia.
Qed.

End Uniform.

Lemma estimates_uniform (children : list Task) (D : Z) :
  0 <= D ->
  Forall (fun c => CmdString c <> EmptyString
                   /\ TaskCommand.EstimatedRuntime (Command c) = D) children ->
  Eta.estimates children = replicate (length children) (Eta.Seconds D)
  /\ Forall (fun c => Eta.known c = true -> 0 <= TaskCommand.EstimatedRuntime (Command c))
            children.
Proof.
  intros HD. unfold Eta.estimates.
  induction 1 as [|c children [Hcmd Hest] _ [IH IH']]; [split; [reflexivity | constructor]|].
  rewrite filter_cons.
  assert (Hk : Eta.known c = true).
  { unfold Eta.known. rewrite Hest.
    destruct (CmdString c); [contradiction|]. simpl.
    destruct (Z.eqb_spec D (-1)); [lia | reflexivity]. }
  rewrite decide_True by exact Hk. cbn [map length replicate]. rewrite IH, Hest.
  split; [reflexivity|]. constructor; [intros _; lia | exact IH'].
Qed.

(** The loop started afresh. *)
Lemma loop_initial (Options : OptionsT) (children : list Task) :
  Forall (fun c => Eta.known c = true -> 0 <= TaskCommand.EstimatedRuntime (Command c))
         children ->
  Eta.maxParallelEstimatedRuntime (fold_left Eta.body children (Eta.initial Options))
  = Eta.latest (Eta.simulate (MaxParallelCmds Options) [] Float64.zero
                             (Eta.estimates children)).
Proof.
  intros Hchildren.
  rewrite (loop_simulate children Hchildren (Eta.initial Options));
    [reflexivity | reflexivity | reflexivity | constructor].
Qed.

End EtaFacts.

(** C7 (as amended).  The ETA of a task whose children with a known
estimate have estimates that are not negative is its own estimate, when it
has a command and the estimate is known, plus the latest end-time of the
bounded-parallel simulation run on the seconds of those children, all sums
being [float64] sums.  For a group of [N] children that all have the
estimate [D], run [P] at a time, that is the sum of [ceil(N / P)] copies of
the seconds of [D], added one at a time, provided no sum on the way is
smaller than the one before it. *)
Theorem EstimatedRuntime_simulation (Options : OptionsT) (task : Task) :
  (MaxParallelCmds Options <> 0 ->
   Forall (fun c => Eta.known c = true -> 0 <= TaskCommand.EstimatedRuntime (Command c))
          (ParallelTasks task) ->
   EstimatedRuntime Options task
   = Float64.add
       (if Eta.known task
        then Float64.add Float64.zero (Eta.Seconds (TaskCommand.EstimatedRuntime (Command task)))
        else Float64.zero)
       (Eta.latest (Eta.simulate (MaxParallelCmds Options) [] Float64.zero
                                 (Eta.estimates (ParallelTasks task)))))
  /\ forall D : Z,
       let rounds := Z.to_nat (Eta.ceilDiv (Z.of_nat (length (ParallelTasks task)))
                                           (MaxParallelCmds Options)) in
       1 <= MaxParallelCmds Options ->
       0 <= D ->
       CmdString task = EmptyString ->
       Forall (fun c => CmdString c <> EmptyString
                        /\ TaskCommand.EstimatedRuntime (Command c) = D)
              (ParallelTasks task) ->
       (forall k, (k < rounds)%nat ->
                  Float64.le (Eta.sums (Eta.Seconds D) k) (Eta.sums (Eta.Seconds D) (S k))) ->
       EstimatedRuntime Options task = Eta.sums (Eta.Seconds D) rounds.
Proof.
  split.
  - intros _ Hchildren. unfold EstimatedRuntime. cbv zeta.
    rewrite (EtaFacts.loop_initial Options _ Hchildren). reflexivity.
  - intros D rounds HP HD Hgroup Hchildren Hrise.
    destruct (EtaFacts.estimates_uniform _ D HD Hchildren) as [Hestimates Hnonneg].
    unfold EstimatedRuntime. cbv zeta.
    rewrite (EtaFacts.loop_initial Options _ Hnonneg), Hestimates.
    unfold Eta.known. rewrite Hgroup. cbn [GoStrings.is_empty negb andb].
    pose proof (EtaFacts.regular_Seconds D HD) as Hd.
    pose proof (EtaFacts.simulate_filling (MaxParallelCmds Options) (Eta.Seconds D) rounds
                  HP Hd Hrise (length (ParallelTasks task)) 0 ltac:(lia) eq_refl) as H.
    rewrite Z.sub_0_r in H.
    change (fold_left Float64.Max
              (Eta.simulate (MaxParallelCmds Options) [] Float64.zero
                            (replicate (length (ParallelTasks task)) (Eta.Seconds D)))
              Float64.zero
            = Eta.sums (Eta.Seconds D) rounds) in H.
    unfold Eta.latest. rewrite H.
    apply FloatFacts.add_zero. apply EtaFacts.regular_sums, Hd.
Qed.

(** S2: four children of one second each, two at a time, make two seconds. *)
Lemma EstimatedRuntime_simulation_witness :
  EstimatedRuntime BoundedParallel.options BoundedParallel.group = Eta.Seconds 2000000000.
Proof.
  destruct (EstimatedRuntime_simulation BoundedParallel.options BoundedParallel.group)
    as [_ H].
  rewrite (H 1000000000).
  - vm_compute. reflexivity.
  - vm_compute. discriminate.
  - lia.
  - reflexivity.
  - repeat constructor; discriminate.
  - intros [|[|k]] Hk; [vm_compute; reflexivity | vm_compute; reflexivity |].
    vm_compute in Hk. lia.
Defined.

(** C7 as stated fails: ten children of 100 milliseconds, one at a time,
make 0.99999999999999989 seconds where the estimate times the number of
rounds is 1 second, whether the product is taken on the durations or on
their seconds. *)
Lemma EstimatedRuntime_ten_tenths :
  ~ timesRounds TenTenths.options TenTenths.group
  /\ EstimatedRuntime TenTenths.options TenTenths.group
     = S754_finite false 9007199254740991 (-53)
  /\ Eta.Seconds (100000000 * 10) = S754_finite false 4503599627370496 (-52)
  /\ Float64.mul (Eta.Seconds 100000000) (Float64.ofInt 10)
     = S754_finite false 4503599627370496 (-52).
Proof.
  split; [|split_and!; vm_compute; reflexivity].
  intros H.
  assert (Habsurd : EstimatedRuntime TenTenths.options TenTenths.group
                    = Eta.Seconds (100000000 * Eta.ceilDiv 10 1)).
  { apply (H 100000000).
    - vm_compute. discriminate.
    - lia.
    - reflexivity.
    - repeat constructor; discriminate. }
  vm_compute in Habsurd. discriminate Habsurd.
Qed.

(** ** The line renderer *)

Module RenderFacts.

Lemma visualLength_spaces (n : nat) :
  Terminal.visualLength (Terminal.spaces n) = Z.of_nat n.
Proof.
  unfold Terminal.visualLength. f_equal.
  induction n as [|n IH]; simpl; [reflexivity|]. rewrite IH. reflexivity.
Qed.





Lemma append_assoc (a b c : string) : (a +:+ b) +:+ c = a +:+ (b +:+ c).
Proof.
  induction a as [|x a IH]; [reflexivity|].
  change (String x ((a +:+ b) +:+ c) = String x (a +:+ (b +:+ c))). f_equal. exact IH.
Qed.

(** The template of the specification renders the filler as it is, behind
the status, the spinner, the glyph, the title and the message and in front
of the ETA. *)
Lemma ExecuteFields_filler (template : Template) (values : LineInfo.t) (filler : string) :
  Terminal.ExecuteFields template (with_Split filler values)
  = (LineInfo.Status values +:+ " " +:+ LineInfo.Spinner values +:+ " "
     +:+ Terminal.glyph template +:+ LineInfo.Title values +:+ " " +:+ LineInfo.Msg values)
    +:+ filler +:+ LineInfo.Eta values.
Proof.
  unfold Terminal.ExecuteFields.
  cbn [with_Split LineInfo.Status LineInfo.Spinner LineInfo.Title LineInfo.Msg
       LineInfo.Split LineInfo.Eta].
  rewrite !append_assoc. reflexivity.
Qed.


End RenderFacts.

Section RenderedLine.

Variable Execute : Template -> LineInfo.t -> string.
Variable red : string -> string.


End RenderedLine.



(** So it does on a terminal of 18 columns, where the fixed part takes 17
columns and the trimmed message ends in more than the one column left. *)
Example String_narrow_terminal :
  exists line task',
    Render.String Terminal.ExecuteFields Painted.red 18 Painted.task = Returns (line, task')
    /\ LineInfo.Msg (TaskDisplay.Values (Display task')) = "..."%string
    /\ Terminal.visualLength line = 20.
Proof. do 2 eexists. split; [reflexivity|]. split; reflexivity. Qed.

(** The condition on the text in front of the filler is needed: when the
message ends in a lone escape character, the filler and the start of the
ETA fall into the escape sequence, and on a terminal of 50 columns the
line takes 23 cells. *)
Example String_open_escape :
  exists line task',
    Render.String Terminal.ExecuteFields Painted.red 50 Painted.interrupted
    = Returns (line, task')
    /\ Terminal.visualLength line = 23.
Proof. do 2 eexists. split; reflexivity. Qed.

(* ===================================================================== *)
(** * Further properties of the code *)
(* ===================================================================== *)

(** ** The split function as a [bufio.SplitFunc] *)

(** With a terminal width whose double fits an [int], the split function
never panics; it never advances beyond the buffer, a token is a prefix of
the buffer that ends where or before the advance ends, and without a token
nothing is consumed. *)
Theorem variableSplitFunc_within_buffer (tw : Z) (data : list Byte.byte) (atEOF : bool)
    (Hw : 0 <= tw) (Hfit : 2 * tw <= GoInt.int_max) :
  exists r,
    variableSplitFunc tw data atEOF = Returns r
    /\ 0 <= advance r <= Z.of_nat (length data)
    /\ err r = None
    /\ match token r with
       | Some tok => tok `prefix_of` data /\ Z.of_nat (length tok) <= advance r
       | None => advance r = 0
       end.
Proof.
  unfold variableSplitFunc.
  destruct (atEOF && (Z.of_nat (length data) =? 0)) eqn:Hempty.
  { eexists. split; [reflexivity|]. simpl. split_and!; try lia; reflexivity. }
  pose proof (SplitFacts.Index_range data GoBytes.newline) as Hnl.
  pose proof (SplitFacts.Index_range data GoBytes.carriage_return) as Hcr.
  rewrite SplitFacts.twice_width by assumption.
  destruct (Z.leb_spec 0 (GoBytes.Index data GoBytes.newline)).
  { rewrite SplitFacts.slice_to_within by lia. eexists. split; [reflexivity|]. simpl.
    split_and!; try lia; try reflexivity; [apply prefix_take | rewrite length_take; lia]. }
  destruct (Z.leb_spec 0 (GoBytes.Index data GoBytes.carriage_return)).
  { rewrite SplitFacts.slice_to_within by lia. eexists. split; [reflexivity|]. simpl.
    split_and!; try lia; try reflexivity; [apply prefix_take | rewrite length_take; lia]. }
  destruct (Z.ltb_spec (2 * tw) (Z.of_nat (length data))).
  { rewrite SplitFacts.slice_to_within by lia. eexists. split; [reflexivity|]. simpl.
    split_and!; try lia; try reflexivity; [apply prefix_take | rewrite length_take; lia]. }
  destruct atEOF; eexists; (split; [reflexivity|]); simpl; split_and!; try lia; reflexivity.
Qed.

Lemma variableSplitFunc_within_buffer_witness :
  exists r,
    variableSplitFunc 80 [Byte.x68; Byte.x69; Byte.x0a; Byte.x6f] false = Returns r
    /\ advance r <= 4.
Proof.
  destruct (variableSplitFunc_within_buffer 80 [Byte.x68; Byte.x69; Byte.x0a; Byte.x6f] false)
    as (r & Hr & Hadv & _).
  - lia.
  - vm_compute. discriminate.
  - exists r. split; [exact Hr|]. simpl in Hadv. lia.
Defined.

(** Before the end of the stream, a buffer without terminator that is not
longer than twice the terminal width is left alone: no token, nothing
consumed, so that the scanner reads on. *)
Theorem variableSplitFunc_waits_for_more (tw : Z) (data : list Byte.byte)
    (Hw : 0 <= tw) (Hfit : 2 * tw <= GoInt.int_max)
    (Hnl : GoBytes.newline ∉ data) (Hcr : GoBytes.carriage_return ∉ data)
    (Hshort : Z.of_nat (length data) <= 2 * tw) :
  variableSplitFunc tw data false = Returns (mkSplitResult 0 None None).
Proof.
  unfold variableSplitFunc. simpl andb. cbv iota.
  rewrite (SplitFacts.Index_absent _ _ Hnl), (SplitFacts.Index_absent _ _ Hcr).
  rewrite SplitFacts.twice_width by assumption.
  change (0 <=? -1) with false. cbv iota.
  destruct (Z.ltb_spec (2 * tw) (Z.of_nat (length data))); [lia | reflexivity].
Qed.

Lemma variableSplitFunc_waits_for_more_witness :
  variableSplitFunc 80 [Byte.x68; Byte.x69] false = Returns (mkSplitResult 0 None None).
Proof.
  apply variableSplitFunc_waits_for_more.
  - lia.
  - vm_compute. discriminate.
  - intros H. repeat (apply elem_of_cons in H as [H|H]; [discriminate H|]). inversion H.
  - intros H. repeat (apply elem_of_cons in H as [H|H]; [discriminate H|]). inversion H.
  - simpl. lia.
Defined.

(** When the terminal reports the width 0, every non-empty buffer without
terminator yields an empty token and consumes nothing, at the end of the
stream too: the residual bytes are never emitted. *)
Theorem variableSplitFunc_zero_width (data : list Byte.byte) (atEOF : bool)
    (Hnl : GoBytes.newline ∉ data) (Hcr : GoBytes.carriage_return ∉ data)
    (Hdata : data <> []) :
  variableSplitFunc 0 data atEOF = Returns (mkSplitResult 0 (Some []) None).
Proof.
  unfold variableSplitFunc.
  destruct data as [|b data]; [congruence|].
  rewrite (SplitFacts.Index_absent _ _ Hnl), (SplitFacts.Index_absent _ _ Hcr).
  change (Z.of_nat (length (b :: data)) =? 0) with false. rewrite andb_false_r.
  change (0 <=? -1) with false. cbv iota.
  change (GoInt.int_of_uint (GoInt.uint_mul 0 2)) with 0.
  destruct (Z.ltb_spec 0 (Z.of_nat (length (b :: data)))); [|simpl in *; lia].
  reflexivity.
Qed.

Lemma variableSplitFunc_zero_width_witness :
  variableSplitFunc 0 [Byte.x68; Byte.x69] true = Returns (mkSplitResult 0 (Some []) None).
Proof.
  apply variableSplitFunc_zero_width.
  - intros H. repeat (apply elem_of_cons in H as [H|H]; [discriminate H|]). inversion H.
  - intros H. repeat (apply elem_of_cons in H as [H|H]; [discriminate H|]). inversion H.
  - discriminate.
Defined.

(** ** The counters of the scheduler *)

Module TallyFacts.

Lemma fmap_alter_same {B : Type} (g : Task -> B) (f : Task -> Task) (i : nat) (ts : list Task) :
  (forall t, g (f t) = g t) -> map g (alter f i ts) = map g ts.
Proof.
  intros Hg. revert i. induction ts as [|t ts IH]; intros [|i]; simpl; try reflexivity.
  - rewrite Hg. reflexivity.
  - f_equal. apply IH.
Qed.

Lemma fmap_insert_same {B : Type} (g : Task -> B) (i : nat) (t t' : Task) (ts : list Task) :
  ts !! i = Some t -> g t' = g t -> map g (<[i := t']> ts) = map g ts.
Proof.
  revert i. induction ts as [|x ts IH]; intros [|i] Hi Hg; simpl in *; try discriminate.
  - injection Hi as ->. rewrite Hg. reflexivity.
  - f_equal. apply IH; assumption.
Qed.

(** A step of a runner touches neither the counters nor the settings. *)
Lemma runnerStep_sched (i : nat) (sys sys' : System) :
  runnerStep i sys = Some sys' ->
  lastStartedTask (sched sys') = lastStartedTask (sched sys)
  /\ runningCmds (sched sys') = runningCmds (sched sys)
  /\ groupSuccess (sched sys') = groupSuccess (sched sys)
  /\ failedTasks (sched sys') = failedTasks (sched sys)
  /\ completedTasks (sched sys') = completedTasks (sched sys)
  /\ commandTimeCache (sched sys') = commandTimeCache (sched sys)
  /\ length (tasks (sched sys')) = length (tasks (sched sys))
  /\ map settings (tasks (sched sys')) = map settings (tasks (sched sys))
  /\ goStatements sys' = goStatements sys.
Proof.
  unfold runnerStep. destruct (runners sys !! i) as [[|a rest]|]; try discriminate.
  destruct a; try (destruct (_ <? _)); intros H; try discriminate;
    injection H as <-; simpl; split_and!; try reflexivity;
    try apply length_alter; apply fmap_alter_same; reflexivity.
Qed.

(** What launching the next task does to the counters. *)
Lemma startTask_sched (W : World) (sys : System) :
  (lastStartedTask (sched sys) < length (tasks (sched sys)))%nat ->
  lastStartedTask (sched (startTask W sys)) = S (lastStartedTask (sched sys))
  /\ runningCmds (sched (startTask W sys)) = runningCmds (sched sys) + 1
  /\ groupSuccess (sched (startTask W sys)) = groupSuccess (sched sys)
  /\ failedTasks (sched (startTask W sys)) = failedTasks (sched sys)
  /\ completedTasks (sched (startTask W sys)) = completedTasks (sched sys)
  /\ commandTimeCache (sched (startTask W sys)) = commandTimeCache (sched sys)
  /\ length (tasks (sched (startTask W sys))) = length (tasks (sched sys))
  /\ map settings (tasks (sched (startTask W sys))) = map settings (tasks (sched sys))
  /\ exitSignaled (startTask W sys) = exitSignaled sys
  /\ crashed (startTask W sys) = crashed sys
  /\ resultChan (startTask W sys) = resultChan sys.
Proof.
  intros Hlt. unfold startTask.
  destruct (lookup_lt_is_Some_2 _ _ Hlt) as [t Ht]. rewrite Ht. simpl.
  split_and!; try reflexivity; [apply length_insert|].
  apply (fmap_insert_same settings _ t); [exact Ht | reflexivity].
Qed.

(** What receiving a record does to the counters. *)
Lemma receive_sched (W : World) (sys : System) (msgObj : CmdIR.t) :
  let next := (lastStartedTask (sched sys) <? length (tasks (sched sys)))%nat in
  let terminal := CmdIR.Complete msgObj in
  lastStartedTask (sched (receive W sys msgObj))
  = (if terminal && next then S (lastStartedTask (sched sys)) else lastStartedTask (sched sys))
  /\ runningCmds (sched (receive W sys msgObj))
     = (if terminal then runningCmds (sched sys) - 1 + (if next then 1 else 0)
        else runningCmds (sched sys))
  /\ completedTasks (sched (receive W sys msgObj))
     = (if terminal then completedTasks (sched sys) + 1 else completedTasks (sched sys))
  /\ groupSuccess (sched (receive W sys msgObj))
     = match terminal, CmdIR.Status msgObj with
       | true, StatusError => StatusError
       | _, _ => groupSuccess (sched sys)
       end
  /\ length (tasks (sched (receive W sys msgObj))) = length (tasks (sched sys))
  /\ map settings (tasks (sched (receive W sys msgObj))) = map settings (tasks (sched sys))
  /\ exitSignaled (receive W sys msgObj) = exitSignaled sys
  /\ crashed (receive W sys msgObj) = crashed sys.
Proof.
  intros next terminal. subst next terminal. unfold receive.
  destruct (CmdIR.Complete msgObj); simpl andb; cbv iota.
  2:{ split_and!; try reflexivity. }
  set (sys1 := set_sched (markComplete (sched sys) msgObj) sys).
  assert (Hlen1 : length (tasks (sched sys1)) = length (tasks (sched sys)))
    by apply length_alter.
  assert (Hset1 : map settings (tasks (sched sys1)) = map settings (tasks (sched sys))).
  { apply fmap_alter_same. reflexivity. }
  change (lastStartedTask (sched sys1)) with (lastStartedTask (sched sys)).
  rewrite Hlen1.
  destruct (SchedFacts.Coherent_recordFailure msgObj
              (if (lastStartedTask (sched sys) <? length (tasks (sched sys)))%nat
               then startTask W sys1 else sys1))
    as (_ & Hts & Hl & Hrc & _ & Hex & Hcr).
  rewrite Hts, Hl, Hrc, Hex, Hcr.
  assert (Hgroup : forall sys2,
             groupSuccess (sched (recordFailure msgObj sys2))
             = match CmdIR.Status msgObj with
               | StatusError => StatusError
               | _ => groupSuccess (sched sys2)
               end
             /\ completedTasks (sched (recordFailure msgObj sys2)) = completedTasks (sched sys2)).
  { intros sys2. unfold recordFailure. destruct (CmdIR.Status msgObj); split; reflexivity. }
  destruct (Hgroup (if (lastStartedTask (sched sys) <? length (tasks (sched sys)))%nat
                    then startTask W sys1 else sys1)) as [-> ->].
  destruct (Nat.ltb_spec (lastStartedTask (sched sys)) (length (tasks (sched sys)))) as [Hlt|Hge].
  - destruct (startTask_sched W sys1) as (-> & -> & -> & _ & -> & _ & -> & -> & -> & -> & _).
    { rewrite Hlen1. exact Hlt. }
    split_and!; try reflexivity; try assumption.
  - split_and!; try reflexivity; try assumption; simpl; try lia.
Qed.

Lemma tally_step (Options : OptionsT) (W : World) (completed : Z) (c : Choice)
    (sys sys' : System) :
  tally Options completed sys -> step W c sys = Some sys' -> tally Options completed sys'.
Proof.
  intros (Hcount & Hgroup & Hstatus & Hbusy) Hstep. unfold step in Hstep.
  destruct (crashed sys); [discriminate|]. destruct c as [i|].
  - destruct (runnerStep_sched i sys sys' Hstep)
      as (Hl & Hrc & Hg & Hf & Hc & _ & Hlen & _).
    unfold tally. rewrite Hl, Hrc, Hg, Hf, Hc, Hlen. auto.
  - unfold schedulerStep in Hstep.
    destruct (Z.ltb_spec 0 (runningCmds (sched sys))) as [Hrun|]; [|discriminate].
    destruct (resultChan sys) as [|msgObj rest]; [discriminate|].
    injection Hstep as <-.
    set (sys0 := mkSystem (sched sys) rest (runners sys) (goStatements sys)
                          (exitSignaled sys) (crashed sys)).
    destruct (receive_sched W sys0 msgObj) as (Hl & Hrc & Hc & Hg & Hlen & _).
    pose proof (receive_failedTasks W sys0 msgObj) as Hf.
    unfold tally. rewrite Hl, Hrc, Hc, Hg, Hf, Hlen. simpl sched.
    destruct (CmdIR.Complete msgObj); simpl andb; cbv iota.
    2:{ auto. }
    destruct (Nat.ltb_spec (lastStartedTask (sched sys)) (length (tasks (sched sys)))).
    + split_and!; try lia.
      * destruct (CmdIR.Status msgObj); try exact Hgroup.
        split; [intros _; destruct (failedTasks (sched sys)); discriminate | reflexivity].
      * destruct (CmdIR.Status msgObj); auto.
    + split_and!; try lia.
      * destruct (CmdIR.Status msgObj); try exact Hgroup.
        split; [intros _; destruct (failedTasks (sched sys)); discriminate | reflexivity].
      * destruct (CmdIR.Status msgObj); auto.
Qed.

Lemma tally_exec (Options : OptionsT) (W : World) (completed : Z) (choices : list Choice)
    (sys sys' : System) :
  tally Options completed sys -> exec W choices sys = Some sys' ->
  tally Options completed sys'.
Proof.
  revert sys. induction choices as [|c choices IH]; intros sys Htally Hexec; simpl in Hexec.
  - injection Hexec as <-. exact Htally.
  - destruct (step W c sys) as [sys1|] eqn:Hstep; [|discriminate].
    apply (IH sys1); [eapply tally_step; eassumption | exact Hexec].
Qed.

(** The first loop launches tasks until the limit or the end of the list
is reached, and changes nothing else. *)
Lemma startLoop_counts (Options : OptionsT) (W : World) (fuel : nat) (sys : System) :
  (length (tasks (sched sys)) - lastStartedTask (sched sys) <= fuel)%nat ->
  let sys' := startLoop Options W fuel sys in
  runningCmds (sched sys') - Z.of_nat (lastStartedTask (sched sys'))
  = runningCmds (sched sys) - Z.of_nat (lastStartedTask (sched sys))
  /\ (lastStartedTask (sched sys) <= lastStartedTask (sched sys'))%nat
  /\ completedTasks (sched sys') = completedTasks (sched sys)
  /\ groupSuccess (sched sys') = groupSuccess (sched sys)
  /\ failedTasks (sched sys') = failedTasks (sched sys)
  /\ length (tasks (sched sys')) = length (tasks (sched sys))
  /\ map settings (tasks (sched sys')) = map settings (tasks (sched sys))
  /\ exitSignaled sys' = exitSignaled sys
  /\ crashed sys' = crashed sys
  /\ resultChan sys' = resultChan sys
  /\ ((Z.of_nat (lastStartedTask (sched sys')) < MaxParallelCmds Options
       /\ (lastStartedTask (sched sys') < length (tasks (sched sys')))%nat)
      -> (lastStartedTask (sched sys) < lastStartedTask (sched sys))%nat).
Proof.
  revert sys. induction fuel as [|fuel IH]; intros sys Hfuel; simpl.
  - split_and!; try reflexivity; try lia.
  - destruct (Z.ltb_spec (Z.of_nat (lastStartedTask (sched sys))) (MaxParallelCmds Options));
      simpl andb; cbv iota; [|split_and!; try reflexivity; try lia].
    destruct (Nat.ltb_spec (lastStartedTask (sched sys)) (length (tasks (sched sys))));
      [|split_and!; try reflexivity; try lia].
    destruct (startTask_sched W sys ltac:(assumption))
      as (Hl & Hrc & Hg & Hf & Hc & _ & Hlen & Hset & Hex & Hcr & Hch).
    destruct (IH (startTask W sys)) as (H1 & H2 & H3 & H4 & H5 & H6 & H7 & H8 & H9 & H10 & H11).
    { rewrite Hl, Hlen. lia. }
    rewrite Hl, Hrc in *. split_and!; try congruence; try lia.
Qed.

Lemma tally_Process_start (Options : OptionsT) (W : World) (completed : Z)
    (cache : gmap string Z) (task : Task) :
  tally Options completed (Process_start Options W completed cache task).
Proof.
  unfold Process_start.
  set (tasks1 := if Vintage Options then Tasks task else map (set_Started false) (Tasks task)).
  destruct (startLoop_counts Options W (length tasks1)
              (mkSystem (mkSched tasks1 0 0 StatusSuccess [] completed cache)
                        [] (replicate (length tasks1) []) [] false false))
    as (Hrc & _ & Hc & Hg & Hf & Hlen & _ & _ & _ & _ & Hexit).
  { simpl. lia. }
  simpl in Hrc, Hc, Hg, Hf, Hlen, Hexit.
  unfold tally. rewrite Hc, Hg, Hf. split_and!.
  - lia.
  - split; [discriminate | congruence].
  - right. reflexivity.
  - intros HP Hlt.
    destruct (Z.lt_ge_cases
                (Z.of_nat (lastStartedTask
                             (sched (startLoop Options W (length tasks1)
                                       (mkSystem (mkSched tasks1 0 0 StatusSuccess [] completed cache)
                                          [] (replicate (length tasks1) []) [] false false)))))
                (MaxParallelCmds Options)) as [Hroom|Hfull].
    + specialize (Hexit (conj Hroom Hlt)). lia.
    + lia.
Qed.

Lemma runningCount_zero (ts : list Task) (i : nat) (t : Task) :
  runningCount ts = 0 -> ts !! i = Some t -> running t = false.
Proof.
  revert i. induction ts as [|x ts IH]; intros i Hzero Hi; [discriminate|].
  simpl in Hzero. pose proof (SchedFacts.runningCount_nonneg ts).
  destruct i as [|i]; simpl in Hi.
  - injection Hi as ->. destruct (running t); [lia | reflexivity].
  - apply (IH i); [destruct (running x); lia | exact Hi].
Qed.

End TallyFacts.

(** At every moment of a [Process] call the group status is Error exactly
when a task has been recorded as failed, and Success otherwise. *)
Theorem Process_group_status (Options : OptionsT) (W : World) (completed : Z)
    (cache : gmap string Z) (task : Task) (choices : list Choice) (sys : System)
    (Hexec : exec W choices (Process_start Options W completed cache task) = Some sys) :
  (groupSuccess (sched sys) = StatusError <-> failedTasks (sched sys) <> [])
  /\ (groupSuccess (sched sys) = StatusSuccess <-> failedTasks (sched sys) = []).
Proof.
  destruct (TallyFacts.tally_exec Options W completed choices _ sys
              (TallyFacts.tally_Process_start Options W completed cache task) Hexec)
    as (_ & Hgroup & Hstatus & _).
  split; [exact Hgroup|]. split.
  - intros Hs. destruct (failedTasks (sched sys)) as [|x l]; [reflexivity|].
    assert (groupSuccess (sched sys) = StatusError) by (apply Hgroup; discriminate).
    congruence.
  - intros Hnone. destruct Hstatus as [He|Hs]; [|exact Hs].
    apply Hgroup in He. contradiction.
Qed.

Lemma Process_group_status_witness :
  exists sys,
    exec StopOnFailure.world StopOnFailure.schedule
         (Process_start StopOnFailure.options StopOnFailure.world 0 ∅ StopOnFailure.inflated)
    = Some sys
    /\ groupSuccess (sched sys) = StatusError.
Proof.
  assert (Hsys : exists sys,
             exec StopOnFailure.world StopOnFailure.schedule
                  (Process_start StopOnFailure.options StopOnFailure.world 0 ∅
                                 StopOnFailure.inflated) = Some sys
             /\ failedTasks (sched sys) <> []).
  { eexists. split; [vm_compute; reflexivity|]. vm_compute. discriminate. }
  destruct Hsys as (sys & Hexec & Hfailed). exists sys. split; [exact Hexec|].
  apply (Process_group_status _ _ _ _ _ _ _ Hexec). exact Hfailed.
Defined.

(** With room for one command at least, the event loop is not left before
every child has been started and is complete, whatever the value of
[exitSignaled]; [completedTasks] has then grown by the number of
children. *)
Theorem Process_runs_every_child (Options : OptionsT) (W : World) (completed : Z)
    (cache : gmap string Z) (task : Task) (choices : list Choice) (sys : System)
    (Hroom : 1 <= MaxParallelCmds Options)
    (Hfresh : Forall fresh (Tasks task))
    (Hexec : exec W choices (Process_start Options W completed cache task) = Some sys)
    (Hleft : runningCmds (sched sys) <= 0) :
  lastStartedTask (sched sys) = length (Tasks task)
  /\ (forall i t, tasks (sched sys) !! i = Some t -> Started t = true /\ Complete t = true)
  /\ completedTasks (sched sys) = completed + Z.of_nat (length (Tasks task))
  /\ runningCmds (sched sys) = 0.
Proof.
  destruct (TallyFacts.tally_exec Options W completed choices _ sys
              (TallyFacts.tally_Process_start Options W completed cache task) Hexec)
    as (Hcount & _ & _ & Hbusy).
  destruct (SchedFacts.invariant_Process_start Options W completed cache task Hfresh)
    as [Hinv0 Hlen0].
  destruct (SchedFacts.invariant_exec W _ choices _ sys Hinv0 Hexec)
    as [(Hcoh & _ & _) Hlen].
  destruct Hcoh as [Hlast Hst _ Hrc _ _ _ _].
  pose proof (SchedFacts.runningCount_nonneg (tasks (sched sys))) as Hnonneg.
  assert (Hall : lastStartedTask (sched sys) = length (tasks (sched sys))).
  { destruct (Nat.lt_ge_cases (lastStartedTask (sched sys)) (length (tasks (sched sys))))
      as [Hlt|Hge]; [|lia].
    specialize (Hbusy Hroom Hlt). lia. }
  split_and!.
  - congruence.
  - intros i t Ht.
    assert (Hs : Started t = true).
    { rewrite (Hst i t Ht). apply bool_decide_eq_true.
      rewrite Hall. eapply lookup_lt_Some. exact Ht. }
    split; [exact Hs|].
    assert (Hr : running t = false).
    { apply (TallyFacts.runningCount_zero (tasks (sched sys)) i); [lia | exact Ht]. }
    unfold running in Hr. rewrite Hs in Hr. simpl in Hr.
    destruct (Complete t); [reflexivity | discriminate].
  - rewrite Hcount, Hall, Hlen, Hlen0. lia.
  - lia.
Qed.

Lemma Process_runs_every_child_witness :
  exists sys,
    exec StopOnFailure.world StopOnFailure.schedule
         (Process_start StopOnFailure.options StopOnFailure.world 0 ∅ StopOnFailure.inflated)
    = Some sys
    /\ completedTasks (sched sys) = 3.
Proof.
  assert (Hsys : exists sys,
             exec StopOnFailure.world StopOnFailure.schedule
                  (Process_start StopOnFailure.options StopOnFailure.world 0 ∅
                                 StopOnFailure.inflated) = Some sys
             /\ runningCmds (sched sys) <= 0).
  { eexists. split; [vm_compute; reflexivity|]. vm_compute. discriminate. }
  destruct Hsys as (sys & Hexec & Hleft). exists sys. split; [exact Hexec|].
  destruct (Process_runs_every_child StopOnFailure.options StopOnFailure.world 0 ∅
              StopOnFailure.inflated StopOnFailure.schedule sys) as (_ & _ & Hc & _).
  - vm_compute. discriminate.
  - vm_compute. repeat constructor.
  - exact Hexec.
  - exact Hleft.
  - exact Hc.
Defined.

(** ** What the runners of a group do *)

Module LawFacts.

Lemma run_settings (i : nat) (t t' : Task) (p : Exec.Subprocess) (a b : Z) :
  settings t = settings t' -> run i t p a b = run i t' p a b.
Proof.
  unfold settings, run. intros H. injection H as _ Hstop Hignore.
  rewrite Hstop, Hignore. reflexivity.
Qed.

Lemma settings_lookup (ts ts' : list Task) (i : nat) (t : Task) :
  map settings ts = map settings ts' -> ts !! i = Some t ->
  exists t', ts' !! i = Some t' /\ settings t = settings t'.
Proof.
  intros Hmap Hi.
  assert (H : map settings ts !! i = Some (settings t)).
  { rewrite list_lookup_fmap, Hi. reflexivity. }
  rewrite Hmap, list_lookup_fmap in H.
  destruct (ts' !! i) as [t'|]; [|discriminate].
  exists t'. split; [reflexivity|].
  change (Some (settings t') = Some (settings t)) in H. congruence.
Qed.

Lemma scripted_settings (okA : Action -> Prop) (W : World) (ts ts' : list Task) :
  map settings ts = map settings ts' -> scripted okA W ts' -> scripted okA W ts.
Proof.
  intros Hmap Hs i t Hi.
  destruct (settings_lookup ts ts' i t Hmap Hi) as (t' & Hi' & Hset).
  rewrite (run_settings i t t' _ _ _ Hset). apply (Hs i t' Hi').
Qed.

Lemma lawful_startTask (okA : Action -> Prop) (okR : CmdIR.t -> Prop) (W : World)
    (sys : System) :
  lawful okA okR sys -> scripted okA W (tasks (sched sys)) -> lawful okA okR (startTask W sys).
Proof.
  intros [Hchan Hrun] Hs. unfold startTask.
  destruct (tasks (sched sys) !! lastStartedTask (sched sys)) as [t|] eqn:Ht; [|split; assumption].
  split; [exact Hchan|]. simpl. intros j script Hj.
  destruct (decide (lastStartedTask (sched sys) = j)) as [<-|Hne].
  - destruct (decide (lastStartedTask (sched sys) < length (runners sys))%nat) as [Hlt|Hge].
    + rewrite list_lookup_insert_eq in Hj by exact Hlt. injection Hj as <-.
      apply (Hs _ t Ht).
    + rewrite list_insert_ge in Hj by lia. apply (Hrun _ _ Hj).
  - rewrite list_lookup_insert_ne in Hj by exact Hne. apply (Hrun _ _ Hj).
Qed.

(** A step of a runner: the action performed was allowed, and only the
actions [SignalExit] and [Panic] touch the two flags. *)
Lemma lawful_runnerStep (okA : Action -> Prop) (okR : CmdIR.t -> Prop) (i : nat)
    (sys sys' : System) :
  (forall r, okA (Send r) -> okR r) ->
  lawful okA okR sys -> runnerStep i sys = Some sys' ->
  lawful okA okR sys'
  /\ exists a, okA a
               /\ (exitSignaled sys' = exitSignaled sys \/ a = SignalExit)
               /\ (crashed sys' = crashed sys \/ a = Panic).
Proof.
  intros Hsend [Hchan Hrun] Hstep. unfold runnerStep in Hstep.
  destruct (runners sys !! i) as [[|a rest]|] eqn:Hi; try discriminate.
  pose proof (Hrun i _ Hi) as Hscript. inversion Hscript as [|? ? Ha Hrest]; subst.
  assert (Hrun' : forall j script, <[i := rest]> (runners sys) !! j = Some script ->
                                   Forall okA script).
  { intros j script Hj. destruct (decide (i = j)) as [<-|Hne].
    - rewrite list_lookup_insert_eq in Hj by (eapply lookup_lt_Some; exact Hi).
      injection Hj as <-. exact Hrest.
    - rewrite list_lookup_insert_ne in Hj by exact Hne. apply (Hrun _ _ Hj). }
  destruct a; try (destruct (_ <? _); [|discriminate]); injection Hstep as <-.
  - split; [split; [exact Hchan | exact Hrun']|]. eexists. split; [exact Ha|]. auto.
  - split; [split; [|exact Hrun']|].
    + simpl. apply Forall_app. split; [exact Hchan|]. constructor; [|constructor].
      apply Hsend, Ha.
    + eexists. split; [exact Ha|]. auto.
  - split; [split; [exact Hchan | exact Hrun']|]. eexists. split; [exact Ha|]. auto.
  - split; [split; [exact Hchan | exact Hrun']|]. eexists. split; [exact Ha|]. auto.
  - split; [split; [exact Hchan | exact Hrun']|]. eexists. split; [exact Ha|]. auto.
Qed.

Lemma lawful_receive (okA : Action -> Prop) (okR : CmdIR.t -> Prop) (W : World)
    (sys : System) (msgObj : CmdIR.t) :
  lawful okA okR sys -> scripted okA W (tasks (sched sys)) ->
  lawful okA okR (receive W sys msgObj).
Proof.
  intros Hlaw Hs. unfold receive. destruct (CmdIR.Complete msgObj); [|exact Hlaw].
  set (sys1 := set_sched (markComplete (sched sys) msgObj) sys).
  assert (Hlaw1 : lawful okA okR sys1) by exact Hlaw.
  assert (Hs1 : scripted okA W (tasks (sched sys1))).
  { apply (scripted_settings okA W _ (tasks (sched sys))); [|exact Hs].
    apply TallyFacts.fmap_alter_same. reflexivity. }
  assert (Hrec : forall sys2, lawful okA okR sys2 -> lawful okA okR (recordFailure msgObj sys2)).
  { intros sys2 H. unfold recordFailure. destruct (CmdIR.Status msgObj); exact H. }
  apply Hrec. destruct (_ <? _)%nat; [apply lawful_startTask; assumption | exact Hlaw1].
Qed.

(** The invariant that the three theorems below share. *)
Lemma lawful_exec (okA : Action -> Prop) (okR : CmdIR.t -> Prop) (W : World)
    (ts0 : list Task) (choices : list Choice) :
  (forall r, okA (Send r) -> okR r) ->
  scripted okA W ts0 ->
  forall sys sys',
    lawful okA okR sys -> map settings (tasks (sched sys)) = map settings ts0 ->
    exec W choices sys = Some sys' ->
    lawful okA okR sys'
    /\ map settings (tasks (sched sys')) = map settings ts0
    /\ (okA SignalExit \/ exitSignaled sys' = exitSignaled sys)
    /\ (okA Panic \/ crashed sys' = crashed sys)
    /\ ((forall r, okR r -> CmdIR.Status r <> StatusError) ->
        failedTasks (sched sys') = failedTasks (sched sys)).
Proof.
  intros Hsend Hs0. induction choices as [|c choices IH]; intros sys sys' Hlaw Hset Hexec;
    simpl in Hexec.
  - injection Hexec as <-. split_and!; auto.
  - destruct (step W c sys) as [sys1|] eqn:Hstep; [|discriminate].
    assert (H1 : lawful okA okR sys1
                 /\ map settings (tasks (sched sys1)) = map settings ts0
                 /\ (okA SignalExit \/ exitSignaled sys1 = exitSignaled sys)
                 /\ (okA Panic \/ crashed sys1 = crashed sys)
                 /\ ((forall r, okR r -> CmdIR.Status r <> StatusError) ->
                     failedTasks (sched sys1) = failedTasks (sched sys))).
    { unfold step in Hstep. destruct (crashed sys) eqn:Hcrashed; [discriminate|].
      destruct c as [i|].
      - destruct (lawful_runnerStep okA okR i sys sys1 Hsend Hlaw Hstep)
          as (Hlaw1 & a & Ha & Hex & Hcr).
        destruct (TallyFacts.runnerStep_sched i sys sys1 Hstep)
          as (_ & _ & _ & Hf & _ & _ & _ & Hset1 & _).
        split_and!; [exact Hlaw1 | congruence | | | intros _; exact Hf].
        + destruct Hex as [Hex| ->]; [right; exact Hex | left; exact Ha].
        + destruct Hcr as [Hcr| ->]; [right; congruence | left; exact Ha].
      - unfold schedulerStep in Hstep.
        destruct (0 <? runningCmds (sched sys)); [|discriminate].
        destruct (resultChan sys) as [|msgObj rest] eqn:Hchan; [discriminate|].
        injection Hstep as <-.
        set (sys0 := mkSystem (sched sys) rest (runners sys) (goStatements sys)
                              (exitSignaled sys) (crashed sys)).
        destruct Hlaw as [Hrecords Hrun]. rewrite Hchan in Hrecords.
        inversion Hrecords as [|? ? Hmsg Hrest]; subst.
        assert (Hlaw0 : lawful okA okR sys0) by (split; assumption).
        assert (Hs : scripted okA W (tasks (sched sys0))).
        { apply (scripted_settings okA W _ ts0); assumption. }
        destruct (TallyFacts.receive_sched W sys0 msgObj)
          as (_ & _ & _ & _ & _ & Hset1 & Hex & Hcr).
        split_and!.
        + apply lawful_receive; assumption.
        + rewrite Hset1. exact Hset.
        + right. exact Hex.
        + right. simpl in Hcr. congruence.
        + intros Hok. rewrite receive_failedTasks.
          specialize (Hok msgObj Hmsg).
          destruct (CmdIR.Complete msgObj); [|reflexivity].
          destruct (CmdIR.Status msgObj); try reflexivity. contradiction. }
    destruct H1 as (Hlaw1 & Hset1 & Hex1 & Hcr1 & Hf1).
    destruct (IH sys1 sys' Hlaw1 Hset1 Hexec) as (Hlaw' & Hset' & Hex' & Hcr' & Hf').
    split_and!; [exact Hlaw' | exact Hset' | | | ].
    + destruct Hex' as [H|H]; [left; exact H|]. destruct Hex1 as [H1|H1]; [left; exact H1|].
      right. congruence.
    + destruct Hcr' as [H|H]; [left; exact H|]. destruct Hcr1 as [H1|H1]; [left; exact H1|].
      right. congruence.
    + intros Hok. rewrite (Hf' Hok), (Hf1 Hok). reflexivity.
Qed.

(** The loop that launches the first tasks. *)
Lemma lawful_startLoop (okA : Action -> Prop) (okR : CmdIR.t -> Prop) (Options : OptionsT)
    (W : World) (ts0 : list Task) (fuel : nat) :
  scripted okA W ts0 ->
  forall sys,
    lawful okA okR sys -> map settings (tasks (sched sys)) = map settings ts0 ->
    lawful okA okR (startLoop Options W fuel sys).
Proof.
  intros Hs0. induction fuel as [|fuel IH]; intros sys Hlaw Hset; simpl; [exact Hlaw|].
  destruct (Z.of_nat (lastStartedTask (sched sys)) <? MaxParallelCmds Options);
    simpl andb; cbv iota; [|exact Hlaw].
  destruct (Nat.ltb_spec (lastStartedTask (sched sys)) (length (tasks (sched sys))))
    as [Hlt|]; [|exact Hlaw].
  apply IH.
  - apply lawful_startTask; [exact Hlaw|].
    apply (scripted_settings okA W _ ts0); assumption.
  - destruct (TallyFacts.startTask_sched W sys Hlt) as (_ & _ & _ & _ & _ & _ & _ & -> & _).
    exact Hset.
Qed.

(** The state in which [Process] enters its event loop. *)
Lemma lawful_Process_start (okA : Action -> Prop) (okR : CmdIR.t -> Prop) (Options : OptionsT)
    (W : World) (completed : Z) (cache : gmap string Z) (task : Task) :
  scripted okA W (Tasks task) ->
  lawful okA okR (Process_start Options W completed cache task)
  /\ map settings (tasks (sched (Process_start Options W completed cache task)))
     = map settings (Tasks task)
  /\ failedTasks (sched (Process_start Options W completed cache task)) = []
  /\ exitSignaled (Process_start Options W completed cache task) = false
  /\ crashed (Process_start Options W completed cache task) = false.
Proof.
  intros Hs0. unfold Process_start.
  set (tasks1 := if Vintage Options then Tasks task else map (set_Started false) (Tasks task)).
  assert (Hset1 : map settings tasks1 = map settings (Tasks task)).
  { unfold tasks1. destruct (Vintage Options); [reflexivity|].
    rewrite map_map. apply map_ext. reflexivity. }
  set (sys0 := mkSystem (mkSched tasks1 0 0 StatusSuccess [] completed cache)
                        [] (replicate (length tasks1) []) [] false false).
  assert (Hlaw0 : lawful okA okR sys0).
  { split; [constructor|]. simpl. intros j script Hj.
    apply lookup_replicate in Hj as [-> _]. constructor. }
  destruct (TallyFacts.startLoop_counts Options W (length tasks1) sys0)
    as (_ & _ & _ & _ & Hf & _ & Hset & Hex & Hcr & _).
  { simpl. lia. }
  split_and!.
  - apply (lawful_startLoop okA okR Options W (Tasks task)); assumption.
  - rewrite Hset. exact Hset1.
  - rewrite Hf. reflexivity.
  - rewrite Hex. reflexivity.
  - rewrite Hcr. reflexivity.
Qed.

End LawFacts.

Module ScriptFacts.

Lemma Forall_run (okA : Action -> Prop) (i : nat) (t : Task) (p : Exec.Subprocess) (a b : Z) :
  okA (StampStart a) -> okA (StampStop b) ->
  (forall r, CmdIR.Status r = StatusRunning -> okA (Send r)) ->
  Forall okA match waitStatusOf (Exec.Wait p) with
             | Panics => [Panic]
             | Returns waitStatus =>
                 let returnCode := Syscall.ExitStatus waitStatus in
                 if (returnCode =? 0) || IgnoreFailure t then
                   [Send (CmdIR.mk i StatusSuccess "" "" true returnCode)]
                 else
                   Send (CmdIR.mk i StatusError "" "" true returnCode)
                   :: (if StopOnFailure t then [SignalExit] else [])
             end ->
  Forall okA (run i t p a b).
Proof.
  intros Hstart Hstop Hsend Hend. unfold run.
  constructor; [exact Hstart|]. constructor; [apply Hsend; reflexivity|].
  apply Forall_app. split.
  - apply Forall_fmap, Forall_forall. intros m _. apply Hsend. destruct m; reflexivity.
  - constructor; [exact Hstop | exact Hend].
Qed.

Lemma run_reportsNoError (W : World) (i : nat) (t : Task) (a b : Z) :
  endsWell W i t -> Forall reportsNoError (run i t (subprocess W i) a b).
Proof.
  intros Hwell. apply Forall_run; try exact I.
  - intros r Hr. simpl. rewrite Hr. discriminate.
  - unfold endsWell in Hwell. revert Hwell.
    destruct (subprocess W i) as [|output status]; intros Hwell.
    + repeat constructor.
    + rewrite RunFacts.waitStatusOf_Runs. cbv zeta.
      destruct Hwell as [Hignore|Hzero].
      * rewrite Hignore, orb_true_r. repeat constructor. discriminate.
      * rewrite Hzero. repeat constructor. discriminate.
Qed.

Lemma run_signalsNoExit (W : World) (i : nat) (t : Task) (a b : Z) :
  StopOnFailure t = false \/ endsWell W i t ->
  Forall signalsNoExit (run i t (subprocess W i) a b).
Proof.
  intros Hquiet. apply Forall_run; try discriminate.
  unfold endsWell in Hquiet. revert Hquiet.
  destruct (subprocess W i) as [|output status]; intros Hquiet.
  - repeat constructor. discriminate.
  - rewrite RunFacts.waitStatusOf_Runs. cbv zeta.
    destruct ((Syscall.ExitStatus status =? 0) || IgnoreFailure t) eqn:Hok.
    + repeat constructor. discriminate.
    + constructor; [discriminate|].
      destruct Hquiet as [Hstop|[Hignore|Hzero]].
      * rewrite Hstop. constructor.
      * rewrite Hignore, orb_true_r in Hok. discriminate.
      * rewrite Hzero in Hok. discriminate.
Qed.

Lemma run_panicsNot (i : nat) (t : Task) (output : list Exec.PipeMsg) (status a b : Z) :
  Forall panicsNot (run i t (Exec.Runs output status) a b).
Proof.
  apply Forall_run; try discriminate.
  rewrite RunFacts.waitStatusOf_Runs. cbv zeta.
  destruct ((Syscall.ExitStatus status =? 0) || IgnoreFailure t).
  - repeat constructor. discriminate.
  - constructor; [discriminate|]. destruct (StopOnFailure t); repeat constructor. discriminate.
Qed.

End ScriptFacts.

(** When every child of the group either ignores failures or exits with
status 0, no task is ever recorded as failed and the group status stays
Success, in every execution of [Process]. *)
Theorem Process_reports_no_failure (Options : OptionsT) (W : World) (completed : Z)
    (cache : gmap string Z) (task : Task) (choices : list Choice) (sys : System)
    (Hwell : forall i t, Tasks task !! i = Some t -> endsWell W i t)
    (Hexec : exec W choices (Process_start Options W completed cache task) = Some sys) :
  failedTasks (sched sys) = [] /\ groupSuccess (sched sys) = StatusSuccess.
Proof.
  assert (Hs : scripted reportsNoError W (Tasks task)).
  { intros i t Ht. apply ScriptFacts.run_reportsNoError, (Hwell i t Ht). }
  destruct (LawFacts.lawful_Process_start reportsNoError
              (fun r => CmdIR.Status r <> StatusError) Options W completed cache task Hs)
    as (Hlaw0 & Hset0 & Hf0 & _ & _).
  destruct (LawFacts.lawful_exec reportsNoError (fun r => CmdIR.Status r <> StatusError)
              W (Tasks task) choices (fun r H => H) Hs _ sys Hlaw0 Hset0 Hexec)
    as (_ & _ & _ & _ & Hf).
  assert (Hnone : failedTasks (sched sys) = []) by (rewrite Hf; auto).
  split; [exact Hnone|].
  destruct (TallyFacts.tally_exec Options W completed choices _ sys
              (TallyFacts.tally_Process_start Options W completed cache task) Hexec)
    as (_ & Hgroup & [He|Hsucc] & _); [|exact Hsucc].
  apply Hgroup in He. contradiction.
Qed.

(** [exitSignaled] is set by a child that has stop-on-failure, does not
ignore failures and exits with a status other than 0, and by nothing else:
in a group without such a child the flag is never set. *)
Theorem Process_signals_no_exit (Options : OptionsT) (W : World) (completed : Z)
    (cache : gmap string Z) (task : Task) (choices : list Choice) (sys : System)
    (Hquiet : forall i t, Tasks task !! i = Some t ->
                          StopOnFailure t = false \/ endsWell W i t)
    (Hexec : exec W choices (Process_start Options W completed cache task) = Some sys) :
  exitSignaled sys = false.
Proof.
  assert (Hs : scripted signalsNoExit W (Tasks task)).
  { intros i t Ht. apply ScriptFacts.run_signalsNoExit, (Hquiet i t Ht). }
  destruct (LawFacts.lawful_Process_start signalsNoExit (fun _ => True)
              Options W completed cache task Hs) as (Hlaw0 & Hset0 & _ & Hex0 & _).
  destruct (LawFacts.lawful_exec signalsNoExit (fun _ => True)
              W (Tasks task) choices (fun _ _ => I) Hs _ sys Hlaw0 Hset0 Hexec)
    as (_ & _ & [Habsurd|Hex] & _).
  - exfalso. apply Habsurd. reflexivity.
  - congruence.
Qed.

Module ScenarioFacts.

(** The run of S4 to its end. *)
Lemma IgnoreFailure_run :
  exists sys first,
    exec IgnoreFailure.world IgnoreFailure.schedule
         (Process_start IgnoreFailure.options IgnoreFailure.world 0 ∅ IgnoreFailure.inflated)
    = Some sys
    /\ tasks (sched sys) !! 0%nat = Some first
    /\ TaskCommand.ReturnCode (Command first) = 1
    /\ Process_returns sys = Some [].
Proof. do 2 eexists. split_and!; vm_compute; reflexivity. Qed.

Lemma IgnoreFailure_endsWell (i : nat) (t : Task) :
  Tasks IgnoreFailure.inflated !! i = Some t -> endsWell IgnoreFailure.world i t.
Proof.
  destruct i as [|[|i]]; intros H; vm_compute in H; try discriminate;
    injection H as <-; [left | right]; reflexivity.
Qed.

Lemma IgnoreFailure_spawns (i : nat) : subprocess IgnoreFailure.world i <> Exec.SpawnFails.
Proof. destruct i; discriminate. Qed.

Lemma IgnoreFailure_fresh : Forall fresh (Tasks IgnoreFailure.inflated).
Proof. vm_compute. repeat constructor. Qed.

End ScenarioFacts.

(** S4: the first child exits with status 1 and ignores it; nothing is
recorded as failed. *)
Lemma Process_reports_no_failure_witness :
  exists sys,
    exec IgnoreFailure.world IgnoreFailure.schedule
         (Process_start IgnoreFailure.options IgnoreFailure.world 0 ∅ IgnoreFailure.inflated)
    = Some sys
    /\ failedTasks (sched sys) = [] /\ groupSuccess (sched sys) = StatusSuccess.
Proof.
  destruct ScenarioFacts.IgnoreFailure_run as (sys & _ & Hexec & _).
  exists sys. split; [exact Hexec|].
  exact (Process_reports_no_failure IgnoreFailure.options IgnoreFailure.world 0 ∅
           IgnoreFailure.inflated IgnoreFailure.schedule sys
           ScenarioFacts.IgnoreFailure_endsWell Hexec).
Defined.

Lemma Process_signals_no_exit_witness :
  exists sys,
    exec IgnoreFailure.world IgnoreFailure.schedule
         (Process_start IgnoreFailure.options IgnoreFailure.world 0 ∅ IgnoreFailure.inflated)
    = Some sys
    /\ exitSignaled sys = false.
Proof.
  destruct ScenarioFacts.IgnoreFailure_run as (sys & _ & Hexec & _).
  exists sys. split; [exact Hexec|].
  exact (Process_signals_no_exit IgnoreFailure.options IgnoreFailure.world 0 ∅
           IgnoreFailure.inflated IgnoreFailure.schedule sys
           (fun i t H => or_intror (ScenarioFacts.IgnoreFailure_endsWell i t H)) Hexec).
Defined.

(** ** Edge cases of the scheduler *)

Module EdgeFacts.

Lemma idle_runners (n : nat) :
  forallb (fun r : list Action => match r with [] => true | _ => false end)
          (replicate n []) = true.
Proof. induction n; simpl; auto. Qed.

Lemma startLoop_idle (Options : OptionsT) (W : World) (fuel : nat) (sys : System) :
  MaxParallelCmds Options <= 0 \/ tasks (sched sys) = [] ->
  startLoop Options W fuel sys = sys.
Proof.
  intros Hnone. destruct fuel as [|fuel]; [reflexivity|]. simpl.
  destruct Hnone as [HP|Hempty].
  - destruct (Z.ltb_spec (Z.of_nat (lastStartedTask (sched sys))) (MaxParallelCmds Options));
      [lia | reflexivity].
  - rewrite Hempty. simpl.
    destruct (lastStartedTask (sched sys)); simpl; rewrite ?andb_false_r; reflexivity.
Qed.

End EdgeFacts.

(** With [MaxParallelCmds] at 0 or below, or with no task to run, [Process]
launches no goroutine, never enters its event loop and returns an empty list
of failed tasks; no step of the system is possible, and the counter of
completed tasks and the cache of run times are left as they were. *)
Theorem Process_starts_nothing (Options : OptionsT) (W : World) (completed : Z)
    (cache : gmap string Z) (task : Task)
    (Hnone : MaxParallelCmds Options <= 0 \/ Tasks task = []) :
  let sys := Process_start Options W completed cache task in
  goStatements sys = []
  /\ Process_returns sys = Some []
  /\ (forall c, step W c sys = None)
  /\ Forall (fun t => Vintage Options = false -> Started t = false) (tasks (sched sys))
  /\ completedTasks (sched sys) = completed
  /\ commandTimeCache (sched sys) = cache.
Proof.
  unfold Process_start. cbv zeta. rewrite EdgeFacts.startLoop_idle.
  - split_and!; try reflexivity.
    + unfold Process_returns. cbn [crashed sched runningCmds exitSignaled runners failedTasks].
      change (0 <? 0) with false. cbv iota. rewrite EdgeFacts.idle_runners. reflexivity.
    + intros [i|]; unfold step; cbn [crashed]; cbv iota.
      * unfold runnerStep. cbn [runners].
        destruct (replicate _ _ !! i) as [r|] eqn:Hr; [|reflexivity].
        apply lookup_replicate in Hr as [-> _]. reflexivity.
      * reflexivity.
    + cbn [sched tasks]. destruct (Vintage Options) eqn:Hv.
      * apply Forall_forall. intros t _ Habs. discriminate.
      * clear Hnone. induction (Tasks task) as [|t0 ts IH]; simpl; constructor; [|exact IH].
        intros _. destruct t0 as [n c d [] s1 s2 ig p f e]. reflexivity.
  - cbn [sched tasks]. destruct Hnone as [HP|Hempty]; [left; exact HP|right].
    rewrite Hempty. destruct (Vintage Options); reflexivity.
Qed.

Lemma Process_starts_nothing_witness :
  let Options := mkOptions 0 "$V" false false false false "" in
  let sys := Process_start Options IgnoreFailure.world 0 ∅ IgnoreFailure.inflated in
  MaxParallelCmds Options <= 0 /\ goStatements sys = [] /\ Process_returns sys = Some [].
Proof.
  cbv zeta. split; [simpl; lia|].
  pose proof (Process_starts_nothing (mkOptions 0 "$V" false false false false "")
                IgnoreFailure.world 0 ∅ IgnoreFailure.inflated
                (or_introl (Z.le_refl 0))) as H.
  cbv zeta in H. destruct H as [H1 [H2 _]]. split; assumption.
Defined.

(** ** The cache of run times *)

Module CacheFacts.

Lemma startTask_cache (W : World) (sys : System) :
  commandTimeCache (sched (startTask W sys)) = commandTimeCache (sched sys).
Proof. unfold startTask. destruct (tasks (sched sys) !! _); reflexivity. Qed.

Lemma recordFailure_cache (msgObj : CmdIR.t) (sys : System) :
  commandTimeCache (sched (recordFailure msgObj sys)) = commandTimeCache (sched sys).
Proof. unfold recordFailure. destruct (CmdIR.Status msgObj); reflexivity. Qed.

Lemma receive_cache (W : World) (sys : System) (msgObj : CmdIR.t) :
  CmdIR.Complete msgObj = true ->
  commandTimeCache (sched (receive W sys msgObj))
  = commandTimeCache (markComplete (sched sys) msgObj).
Proof.
  intros Hc. unfold receive. rewrite Hc. cbv zeta. rewrite recordFailure_cache.
  destruct (_ <? _)%nat; [rewrite startTask_cache|]; reflexivity.
Qed.

End CacheFacts.

(** What [Process] stores in the cache of run times when a task ends is what
[inflate] reads back: once the terminal record of a task has been received,
any task with the same command string that is inflated afterwards (without a
replica value) gets as its estimated run time the time between the start and
the stop stamp of that run. *)
Theorem Process_remembers_duration (Options : OptionsT) (W : World) (sys : System)
    (msgObj : CmdIR.t) (eventTask other : Task) (displayIdx : Z)
    (Hcomplete : CmdIR.Complete msgObj = true)
    (Hevent : tasks (sched sys) !! CmdIR.Task msgObj = Some eventTask)
    (Hsame : CmdString other = CmdString eventTask) :
  let duration := TaskCommand.StopTime (Command eventTask)
                  - TaskCommand.StartTime (Command eventTask) in
  let cache := commandTimeCache (sched (receive W sys msgObj)) in
  cache !! CmdString eventTask = Some duration
  /\ exists inflated,
       inflate Options cache other displayIdx EmptyString = Returns inflated
       /\ TaskCommand.EstimatedRuntime (Command inflated) = duration.
Proof.
  cbv zeta. rewrite CacheFacts.receive_cache by exact Hcomplete.
  unfold markComplete. cbn [commandTimeCache]. rewrite Hevent.
  assert (Hlook : <[CmdString eventTask :=
                      TaskCommand.StopTime (Command eventTask)
                      - TaskCommand.StartTime (Command eventTask)]>
                    (commandTimeCache (sched sys)) !! CmdString eventTask
                  = Some (TaskCommand.StopTime (Command eventTask)
                          - TaskCommand.StartTime (Command eventTask))).
  { apply lookup_insert_eq. }
  split; [exact Hlook|].
  unfold inflate. cbn [GoStrings.is_empty]. cbv zeta.
  change (GoStrings.is_empty EmptyString) with true. cbv iota.
  rewrite Hsame, Hlook.
  destruct (GoStrings.Split (CmdString eventTask) GoStrings.space) as [|name arg] eqn:Hsplit.
  - exfalso. exact (InflateFacts.Split_nonempty _ _ Hsplit).
  - eexists. split; reflexivity.
Qed.

Lemma Process_remembers_duration_witness :
  let eventTask := set_StopTime 7 (set_StartTime 2 Unspawnable.task) in
  let sys := mkSystem (mkSched [eventTask] 1 1 StatusSuccess [] 0 ∅)
                      [] [[]] [0%nat] false false in
  let msgObj := terminalRecord 0 eventTask (exitedWith 0) in
  CmdIR.Complete msgObj = true
  /\ tasks (sched sys) !! CmdIR.Task msgObj = Some eventTask
  /\ commandTimeCache (sched (receive StopOnFailure.world sys msgObj)) !! CmdString eventTask
     = Some 5.
Proof.
  cbv zeta. split; [reflexivity|]. split; [reflexivity|].
  exact (proj1 (Process_remembers_duration StopOnFailure.options StopOnFailure.world
                  (mkSystem (mkSched [set_StopTime 7 (set_StartTime 2 Unspawnable.task)]
                                     1 1 StatusSuccess [] 0 ∅)
                            [] [[]] [0%nat] false false)
                  (terminalRecord 0 (set_StopTime 7 (set_StartTime 2 Unspawnable.task))
                                  (exitedWith 0))
                  (set_StopTime 7 (set_StartTime 2 Unspawnable.task))
                  (set_StopTime 7 (set_StartTime 2 Unspawnable.task))
                  0 eq_refl eq_refl eq_refl)).
Defined.

(** ** Inflation *)

(** Inflating a task a second time (with no replica value) changes nothing:
[inflate] always returns, and applied to its own result with the same display
index it returns that result again.  In particular a task without a name
keeps the name the first inflation gave it. *)
Theorem inflate_idempotent (Options : OptionsT) (cache : gmap string Z)
    (task : Task) (displayIdx : Z) :
  exists inflated,
    inflate Options cache task displayIdx EmptyString = Returns inflated
    /\ inflate Options cache inflated displayIdx EmptyString = Returns inflated.
Proof.
  unfold inflate. change (GoStrings.is_empty EmptyString) with true. cbv iota zeta.
  destruct (GoStrings.Split (CmdString task) GoStrings.space) as [|name arg] eqn:Hsplit.
  - exfalso. exact (InflateFacts.Split_nonempty _ _ Hsplit).
  - eexists. split; [reflexivity|].
    cbn [CmdString Name Display Command StopOnFailure ShowTaskOutput IgnoreFailure
         ParallelTasks ForEach TaskDisplay.Values TaskCommand.StartTime
         TaskCommand.StopTime TaskCommand.Started TaskCommand.Complete].
    rewrite Hsplit.
    destruct (GoStrings.is_empty (Name task)) eqn:Hname.
    + destruct (GoStrings.is_empty (CmdString task)); reflexivity.
    + rewrite Hname. reflexivity.
Qed.

(** ** Groups without for-each children *)

Module CreateFacts.

Lemma inflate_keeps_children (Options : OptionsT) (cache : gmap string Z)
    (task task' : Task) (displayIdx : Z) (replicaValue : string) :
  inflate Options cache task displayIdx replicaValue = Returns task' ->
  ParallelTasks task' = ParallelTasks task
  /\ TaskDisplay.Index (Display task') = displayIdx
  /\ CmdString task' = substituted Options (CmdString task) replicaValue.
Proof.
  unfold inflate, substituted. cbv zeta.
  destruct (GoStrings.Split _ _); [discriminate|].
  intros H. injection H as <-. split_and!; reflexivity.
Qed.

Lemma parallelTasksLoop_plain
    (create : Z -> Task -> Z -> string -> option (outcome (Task * Z)))
    (Options : OptionsT) (cache : gmap string Z) (replicaValue : string) (n : Z)
    (subTasks : list Task) :
  Forall (fun subTask => ForEach subTask = []) subTasks ->
  forall (subIndex totalTasks : Z) (finalTasks : list Task),
  exists out,
    parallelTasksLoop create Options cache replicaValue n subTasks subIndex
                      totalTasks finalTasks
    = Some (Returns (finalTasks ++ out, totalTasks + Z.of_nat (length subTasks)))
    /\ length out = length subTasks
    /\ forall (j : nat) (subTask : Task),
         subTasks !! j = Some subTask ->
         exists inflated,
           inflate Options cache subTask (subIndex + Z.of_nat j) replicaValue
           = Returns inflated
           /\ out !! j = Some (set_Template (childTemplate (subIndex + Z.of_nat j) n) inflated).
Proof.
  induction 1 as [|subTask subTasks Hplain _ IH]; intros subIndex totalTasks finalTasks.
  - exists []. simpl. rewrite app_nil_r, Z.add_0_r. split_and!; try reflexivity.
    intros j subTask Hj. destruct j; discriminate.
  - cbn [parallelTasksLoop]. rewrite Hplain.
    destruct (InflateFacts.inflate_returns Options cache subTask subIndex replicaValue)
      as (name & arg & inflated & _ & Hinflate & _).
    rewrite Hinflate. cbv zeta.
    destruct (IH (subIndex + 1) (totalTasks + 1)
                 (finalTasks ++ [set_Template (childTemplate subIndex n) inflated]))
      as (out & Hloop & Hlen & Hout).
    exists (set_Template (childTemplate subIndex n) inflated :: out).
    split_and!.
    + unfold childTemplate in *.
      replace (totalTasks + Z.of_nat (length (subTask :: subTasks)))
        with (totalTasks + 1 + Z.of_nat (length subTasks)) by (cbn [length]; lia).
      destruct (subIndex =? n - 1); rewrite Hloop, <- app_assoc; reflexivity.
    + cbn [length]. rewrite Hlen. reflexivity.
    + intros [|j] child Hj.
      * injection Hj as <-. exists inflated. rewrite Z.add_0_r. split; [exact Hinflate|reflexivity].
      * destruct (Hout j child Hj) as (inflated' & Hin' & Hout').
        exists inflated'. replace (subIndex + Z.of_nat (S j)) with (subIndex + 1 + Z.of_nat j) by lia.
        split; assumption.
Qed.

End CreateFacts.

(** For a group none of whose children has for-each values, [Create] returns
(one unit of fuel is enough) a group with as many children as before; child
number [j] is the old child inflated with display index [j] and the replica
value of the group, carrying the last-parallel template if it is the last
one and the inner-parallel template otherwise.  The children of a child are
left as they were: [Create] does not descend into them.  [totalTasks] grows
by the number of children, and by one more if the group has a command. *)
Theorem Create_plain_group (Options : OptionsT) (cache : gmap string Z)
    (fuel : nat) (totalTasks : Z) (task : Task) (displayStartIdx : Z)
    (replicaValue : string)
    (Hplain : Forall (fun subTask => ForEach subTask = []) (ParallelTasks task)) :
  let n := length (ParallelTasks task) in
  exists created,
    Create (S fuel) Options cache totalTasks task displayStartIdx replicaValue
    = Some (Returns
              (created,
               totalTasks
               + (if GoStrings.is_empty (substituted Options (CmdString task) replicaValue)
                  then 0 else 1)
               + Z.of_nat n))
    /\ length (ParallelTasks created) = n
    /\ forall (j : nat) (subTask : Task),
         ParallelTasks task !! j = Some subTask ->
         exists child,
           ParallelTasks created !! j = Some child
           /\ TaskDisplay.Index (Display child) = Z.of_nat j
           /\ TaskDisplay.Template (Display child)
              = Some (if (S j =? n)%nat then lineLastParallelTemplate
                      else lineParallelTemplate)
           /\ CmdString child = substituted Options (CmdString subTask) replicaValue
           /\ ParallelTasks child = ParallelTasks subTask.
Proof.
  cbv zeta. cbn [Create].
  destruct (InflateFacts.inflate_returns Options cache task displayStartIdx replicaValue)
    as (name & arg & inflated & _ & Hinflate & _).
  rewrite Hinflate.
  destruct (CreateFacts.inflate_keeps_children _ _ _ _ _ _ Hinflate) as (Hchildren & _ & Hcmd).
  rewrite Hchildren, Hcmd.
  destruct (CreateFacts.parallelTasksLoop_plain (Create fuel Options cache) Options cache
              replicaValue (Z.of_nat (length (ParallelTasks task))) (ParallelTasks task) Hplain 0
              (if GoStrings.is_empty (substituted Options (CmdString task) replicaValue)
               then totalTasks else totalTasks + 1) [])
    as (out & Hloop & Hlen & Hout).
  rewrite Hloop. cbn [app].
  exists (set_ParallelTasks out inflated). split_and!.
  - repeat f_equal. destruct (GoStrings.is_empty _); lia.
  - exact Hlen.
  - intros j subTask Hj. destruct (Hout j subTask Hj) as (child0 & Hchild0 & Hlook).
    destruct (CreateFacts.inflate_keeps_children _ _ _ _ _ _ Hchild0) as (Hc1 & Hc2 & Hc3).
    eexists. split; [exact Hlook|]. split_and!.
    + cbn. rewrite Hc2. lia.
    + cbn [Display set_Template set_Display TaskDisplay.Template]. unfold childTemplate. f_equal.
      destruct (Z.eqb_spec (0 + Z.of_nat j) (Z.of_nat (length (ParallelTasks task)) - 1));
        destruct (Nat.eqb_spec (S j) (length (ParallelTasks task))); try reflexivity; exfalso; lia.
    + cbn. exact Hc3.
    + cbn. exact Hc1.
Qed.

Lemma Create_plain_group_witness :
  Forall (fun subTask => ForEach subTask = []) (ParallelTasks StopOnFailure.group)
  /\ exists created,
       Create 1 StopOnFailure.options ∅ 0 StopOnFailure.group 0 EmptyString
       = Some (Returns (created, 3))
       /\ length (ParallelTasks created) = 3%nat.
Proof.
  assert (H : Forall (fun subTask => ForEach subTask = []) (ParallelTasks StopOnFailure.group)).
  { repeat constructor. }
  split; [exact H|].
  destruct (Create_plain_group StopOnFailure.options ∅ 0 0 StopOnFailure.group 0 EmptyString H)
    as (created & Hcreate & Hlen & _).
  exists created. split; [exact Hcreate | exact Hlen].
Defined.

(** ** For-each children *)

Module ForEachFacts.

Lemma inflate_carried (Options : OptionsT) (cache : gmap string Z)
    (task task' : Task) (displayIdx : Z) (replicaValue : string) :
  inflate Options cache task displayIdx replicaValue = Returns task' ->
  carried task' = carried task.
Proof.
  unfold inflate. cbv zeta. destruct (GoStrings.Split _ _); [discriminate|].
  intros H. injection H as <-. reflexivity.
Qed.

Lemma inflate_reset (Options : OptionsT) (cache : gmap string Z)
    (original current : Task) (displayIdx : Z) (replicaValue : string) :
  carried current = carried original ->
  inflate Options cache
          (set_CmdString (CmdString original) (set_Name (Name original) current))
          displayIdx replicaValue
  = inflate Options cache original displayIdx replicaValue.
Proof.
  destruct original as [n c [tp ix vs] [cm st sp et sd cp rc] f1 f2 f3 ps fe eb].
  destruct current as [n' c' [tp' ix' vs'] [cm' st' sp' et' sd' cp' rc'] g1 g2 g3 ps' fe' eb'].
  unfold carried. cbn. intros H. injection H as -> -> -> -> -> -> -> -> -> ->.
  reflexivity.
Qed.

Lemma set_Template_carried (v : Template) (t : Task) :
  carried (set_Template v t) = carried t.
Proof. reflexivity. Qed.

Lemma Create_step (fuel : nat) (Options : OptionsT) (cache : gmap string Z)
    (totalTasks : Z) (task : Task) (displayStartIdx : Z) (replicaValue : string) :
  Create (S fuel) Options cache totalTasks task displayStartIdx replicaValue
  = match inflate Options cache task displayStartIdx replicaValue with
    | Panics => Some Panics
    | Returns task =>
        match parallelTasksLoop (Create fuel Options cache) Options cache replicaValue
                (Z.of_nat (length (ParallelTasks task))) (ParallelTasks task) 0
                (if GoStrings.is_empty (CmdString task) then totalTasks else totalTasks + 1)
                [] with
        | None => None
        | Some Panics => Some Panics
        | Some (Returns (finalTasks, totalTasks)) =>
            Some (Returns (set_ParallelTasks finalTasks task, totalTasks))
        end
    end.
Proof. reflexivity. Qed.

Lemma Create_leaf (fuel : nat) (Options : OptionsT) (cache : gmap string Z)
    (totalTasks : Z) (task inflated : Task) (displayIdx : Z) (replicaValue : string) :
  ParallelTasks task = [] ->
  inflate Options cache task displayIdx replicaValue = Returns inflated ->
  Create (S fuel) Options cache totalTasks task displayIdx replicaValue
  = Some (Returns (inflated,
                   if GoStrings.is_empty (CmdString inflated)
                   then totalTasks else totalTasks + 1)).
Proof.
  intros Hleaf Hinflate. cbn [Create]. rewrite Hinflate.
  assert (Hnone : ParallelTasks inflated = []).
  { pose proof (inflate_carried _ _ _ _ _ _ Hinflate) as H. unfold carried in H.
    injection H as _ _ _ _ _ _ _ _ H _. congruence. }
  rewrite Hnone. cbn [parallelTasksLoop length].
  destruct inflated; cbn in *. subst. reflexivity.
Qed.

Lemma forEachLoop_leaf (fuel : nat) (Options : OptionsT) (cache : gmap string Z)
    (original : Task) (lenForEach : Z) (values : list string) :
  ParallelTasks original = [] ->
  forall (subReplicaIndex : Z) (current : Task) (totalTasks : Z) (finalTasks : list Task),
  carried current = carried original ->
  exists out totalTasks',
    forEachLoop (Create (S fuel) Options cache) (Name original) (CmdString original)
                lenForEach values subReplicaIndex current totalTasks finalTasks
    = Some (Returns (finalTasks ++ out, totalTasks'))
    /\ length out = length values
    /\ totalTasks <= totalTasks' <= totalTasks + Z.of_nat (length values)
    /\ forall (j : nat) (subReplicaValue : string),
         values !! j = Some subReplicaValue ->
         exists inflated,
           inflate Options cache original (subReplicaIndex + Z.of_nat j) subReplicaValue
           = Returns inflated
           /\ out !! j
              = Some (set_Template (childTemplate (subReplicaIndex + Z.of_nat j) lenForEach)
                                   inflated).
Proof.
  intros Hleaf. induction values as [|value values IH];
    intros subReplicaIndex current totalTasks finalTasks Hcarried.
  - exists [], totalTasks. cbn [forEachLoop length]. rewrite app_nil_r.
    split_and!; try reflexivity; try lia. intros j v Hj. destruct j; discriminate.
  - cbn [forEachLoop]. cbv zeta.
    destruct (InflateFacts.inflate_returns Options cache original subReplicaIndex value)
      as (name & arg & inflated & _ & Hinflate & _).
    assert (Hleaf' : ParallelTasks (set_CmdString (CmdString original)
                                      (set_Name (Name original) current)) = []).
    { unfold carried in Hcarried. injection Hcarried as _ _ _ _ _ _ _ _ H _.
      cbn. congruence. }
    rewrite (Create_leaf fuel Options cache totalTasks _ inflated subReplicaIndex value Hleaf')
      by (rewrite inflate_reset by exact Hcarried; exact Hinflate).
    pose proof (inflate_carried _ _ _ _ _ _ Hinflate) as Hkept.
    destruct (IH (subReplicaIndex + 1)
                 (set_Template (childTemplate subReplicaIndex lenForEach) inflated)
                 (if GoStrings.is_empty (CmdString inflated)
                  then totalTasks else totalTasks + 1)
                 (finalTasks ++ [set_Template (childTemplate subReplicaIndex lenForEach)
                                              inflated]))
      as (out & totalTasks' & Hloop & Hlen & Htotal & Hout).
    { rewrite set_Template_carried. exact Hkept. }
    exists (set_Template (childTemplate subReplicaIndex lenForEach) inflated :: out), totalTasks'.
    split_and!.
    + unfold childTemplate in *.
      destruct (subReplicaIndex =? lenForEach - 1); rewrite Hloop, <- app_assoc; reflexivity.
    + cbn [length]. rewrite Hlen. reflexivity.
    + destruct (GoStrings.is_empty (CmdString inflated)); lia.
    + cbn [length]. destruct (GoStrings.is_empty (CmdString inflated)); lia.
    + intros [|j] v Hj.
      * injection Hj as <-. exists inflated. rewrite Z.add_0_r.
        split; [exact Hinflate|reflexivity].
      * destruct (Hout j v Hj) as (inflated' & Hin' & Hout').
        exists inflated'.
        replace (subReplicaIndex + Z.of_nat (S j)) with (subReplicaIndex + 1 + Z.of_nat j) by lia.
        split; assumption.
Qed.

End ForEachFacts.

(** A group whose one child is a leaf with for-each values: [Create] (two
units of fuel are enough) puts one replica per value in place of the child.
Replica number [j] is the child as it was loaded, inflated with display index
[j] and the [j]-th value, so the marker is replaced in its command and in its
name by that value alone, whatever the values before it were; the last
replica carries the last-parallel template, the others the inner-parallel
one. *)
Theorem Create_for_each_leaf (Options : OptionsT) (cache : gmap string Z)
    (fuel : nat) (totalTasks : Z) (task subTask : Task) (displayStartIdx : Z)
    (replicaValue : string)
    (Hgroup : ParallelTasks task = [subTask])
    (Hleaf : ParallelTasks subTask = [])
    (Hvalues : ForEach subTask <> []) :
  let n := length (ForEach subTask) in
  exists created totalTasks',
    Create (S (S fuel)) Options cache totalTasks task displayStartIdx replicaValue
    = Some (Returns (created, totalTasks'))
    /\ length (ParallelTasks created) = n
    /\ forall (j : nat) (subReplicaValue : string),
         ForEach subTask !! j = Some subReplicaValue ->
         exists replica,
           ParallelTasks created !! j = Some replica
           /\ inflate Options cache subTask (Z.of_nat j) subReplicaValue
              = Returns (set_Template lineDefaultTemplate replica)
           /\ TaskDisplay.Index (Display replica) = Z.of_nat j
           /\ TaskDisplay.Template (Display replica)
              = Some (if (S j =? n)%nat then lineLastParallelTemplate
                      else lineParallelTemplate)
           /\ CmdString replica = substituted Options (CmdString subTask) subReplicaValue.
Proof.
  cbv zeta. rewrite ForEachFacts.Create_step.
  destruct (InflateFacts.inflate_returns Options cache task displayStartIdx replicaValue)
    as (name & arg & inflated & _ & Hinflate & _).
  rewrite Hinflate.
  destruct (CreateFacts.inflate_keeps_children _ _ _ _ _ _ Hinflate) as (Hchildren & _ & _).
  rewrite Hchildren, Hgroup. cbn [parallelTasksLoop length].
  destruct (ForEachFacts.forEachLoop_leaf fuel Options cache subTask
              (Z.of_nat (length (ForEach subTask))) (ForEach subTask) Hleaf 0 subTask
              (if GoStrings.is_empty (CmdString inflated) then totalTasks else totalTasks + 1)
              [] eq_refl)
    as (out & totalTasks' & Hloop & Hlen & _ & Hout).
  destruct (ForEach subTask) as [|value values] eqn:Hfe; [congruence|].
  cbv iota. rewrite Hloop. cbn [app parallelTasksLoop].
  exists (set_ParallelTasks out inflated), totalTasks'. split_and!.
  - reflexivity.
  - exact Hlen.
  - intros j v Hj. destruct (Hout j v Hj) as (replica0 & Hreplica0 & Hlook).
    destruct (CreateFacts.inflate_keeps_children _ _ _ _ _ _ Hreplica0) as (_ & Hindex & Hcmd).
    eexists. split; [exact Hlook|]. split_and!.
    + rewrite Z.add_0_l in Hreplica0. rewrite Hreplica0. f_equal.
      revert Hreplica0. unfold inflate. cbv zeta.
      destruct (GoStrings.Split _ _); [discriminate|].
      intros H. injection H as <-. reflexivity.
    + cbn [Display set_Template set_Display TaskDisplay.Index]. rewrite Hindex. lia.
    + cbn [Display set_Template set_Display TaskDisplay.Template]. unfold childTemplate. f_equal.
      destruct (Z.eqb_spec (0 + Z.of_nat j) (Z.of_nat (length (value :: values)) - 1));
        destruct (Nat.eqb_spec (S j) (length (value :: values)));
        try reflexivity; exfalso; lia.
    + cbn [CmdString set_Template set_Display]. exact Hcmd.
Qed.

Lemma Create_for_each_leaf_witness :
  let subTask := loaded "build $V" "make $V" false false false [] ["x"; "y"] in
  let task := loaded "group" "" false false false [subTask] [] in
  ParallelTasks task = [subTask] /\ ParallelTasks subTask = [] /\ ForEach subTask <> []
  /\ exists created totalTasks',
       Create 2 Scenario.options ∅ 0 task 0 EmptyString = Some (Returns (created, totalTasks'))
       /\ length (ParallelTasks created) = 2%nat.
Proof.
  cbv zeta. split; [reflexivity|]. split; [reflexivity|]. split; [discriminate|].
  destruct (Create_for_each_leaf Scenario.options ∅ 0 0
              (loaded "group" "" false false false
                 [loaded "build $V" "make $V" false false false [] ["x"; "y"]] [])
              (loaded "build $V" "make $V" false false false [] ["x"; "y"])
              0 EmptyString eq_refl eq_refl ltac:(discriminate))
    as (created & totalTasks' & Hcreate & Hlen & _).
  exists created, totalTasks'. split; [exact Hcreate | exact Hlen].
Defined.

(** ** The estimate at the two ends of the scale *)

Module EtaEdgeFacts.

(** While slots are free (or their count is negative and never reaches 0)
every child is scheduled at second 0. *)
Lemma simulate_all_at_once (estimates : list Float64.t) :
  Forall (fun e => Float64.regular e = true) estimates ->
  forall (freeSlots : Z) (inFlight : list Float64.t),
  freeSlots < 0 \/ Z.of_nat (length estimates) <= freeSlots ->
  Eta.simulate freeSlots inFlight Float64.zero estimates = estimates.
Proof.
  induction 1 as [|e estimates He _ IH]; intros freeSlots inFlight Hfree; [reflexivity|].
  cbn [Eta.simulate]. cbn [length] in Hfree.
  destruct (Z.eqb_spec freeSlots 0) as [H0|_]; [lia|].
  rewrite IH by lia. rewrite (FloatFacts.add_zero e He). reflexivity.
Qed.

Lemma regular_running (estimates : list Float64.t) :
  Forall (fun e => Float64.regular e = true) estimates ->
  forall sum, Float64.regular sum = true ->
              Forall (fun e => Float64.regular e = true) (Eta.running sum estimates).
Proof.
  induction 1 as [|e estimates He _ IH]; intros sum Hsum; cbn [Eta.running]; constructor.
  - apply FloatFacts.regular_add; assumption.
  - apply IH. apply FloatFacts.regular_add; assumption.
Qed.

(** With one slot, taken by a child that ends at [sum], the children run
one after the other. *)
Lemma simulate_in_turn (estimates : list Float64.t) :
  Forall (fun e => Float64.regular e = true) estimates ->
  forall sum now, Float64.regular sum = true ->
                  Eta.simulate 0 [sum] now estimates = Eta.running sum estimates.
Proof.
  induction 1 as [|e estimates He _ IH]; intros sum now Hsum; [reflexivity|].
  cbn [Eta.simulate Eta.running]. change (0 =? 0) with true. cbv iota zeta.
  change (fst (Eta.MinMax [sum])) with sum.
  rewrite (EtaFacts.remove_head sum [] Hsum). cbn [app]. f_equal.
  apply IH. apply FloatFacts.regular_add; assumption.
Qed.

Lemma simulate_one_by_one (estimates : list Float64.t) :
  Forall (fun e => Float64.regular e = true) estimates ->
  Eta.simulate 1 [] Float64.zero estimates = Eta.running Float64.zero estimates.
Proof.
  intros Hregular. destruct Hregular as [|e estimates He Hrest]; [reflexivity|].
  cbn [Eta.simulate Eta.running]. change (1 =? 0) with false. cbv iota.
  change (1 - 1) with 0. cbn [app]. f_equal.
  apply (simulate_in_turn estimates Hrest).
  apply FloatFacts.regular_add; [reflexivity | exact He].
Qed.

(** The largest of running sums that rise is the last one. *)
Lemma latest_rising (estimates : list Float64.t) :
  Forall (fun e => Float64.regular e = true) estimates ->
  forall sum, Float64.regular sum = true ->
              Eta.rising sum (Eta.running sum estimates) ->
              fold_left Float64.Max (Eta.running sum estimates) sum
              = fold_left Float64.add estimates sum.
Proof.
  induction 1 as [|e estimates He _ IH]; intros sum Hsum Hrise; [reflexivity|].
  cbn [Eta.running Eta.rising fold_left] in *. destruct Hrise as [Hle Hrest].
  assert (Hnext : Float64.regular (Float64.add sum e) = true)
    by (apply FloatFacts.regular_add; assumption).
  rewrite (FloatFacts.Max_r _ _ Hsum Hnext Hle). apply IH; assumption.
Qed.

End EtaEdgeFacts.

(** When [MaxParallelCmds] is at least the number of children with a known
run time (or is negative, so that the count of free slots never reaches 0),
and none of the known estimates is negative, the estimate for a group is
the seconds of its own command plus the largest of the seconds of its
children: all of them are scheduled at once. *)
Theorem EstimatedRuntime_all_at_once (Options : OptionsT) (task : Task)
    (Hroom : MaxParallelCmds Options < 0
             \/ Z.of_nat (length (Eta.estimates (ParallelTasks task)))
                <= MaxParallelCmds Options)
    (Hnonneg : Forall (fun c => Eta.known c = true
                                -> 0 <= TaskCommand.EstimatedRuntime (Command c))
                      (ParallelTasks task)) :
  EstimatedRuntime Options task
  = Float64.add
      (if Eta.known task
       then Float64.add Float64.zero (Eta.Seconds (TaskCommand.EstimatedRuntime (Command task)))
       else Float64.zero)
      (Eta.latest (Eta.estimates (ParallelTasks task))).
Proof.
  unfold EstimatedRuntime. cbv zeta.
  rewrite (EtaFacts.loop_initial Options _ Hnonneg).
  rewrite (EtaEdgeFacts.simulate_all_at_once _ (EtaFacts.regular_estimates _ Hnonneg) _ _ Hroom).
  reflexivity.
Qed.

Lemma EstimatedRuntime_all_at_once_witness :
  Z.of_nat (length (Eta.estimates (ParallelTasks BoundedParallel.group))) <= 4
  /\ EstimatedRuntime (mkOptions 4 "" false false false false "") BoundedParallel.group
     = Eta.Seconds 1000000000.
Proof.
  assert (H : Z.of_nat (length (Eta.estimates (ParallelTasks BoundedParallel.group))) <= 4).
  { vm_compute. discriminate. }
  assert (Hnonneg : Forall (fun c => Eta.known c = true
                                     -> 0 <= TaskCommand.EstimatedRuntime (Command c))
                           (ParallelTasks BoundedParallel.group)).
  { repeat constructor; intros _; vm_compute; discriminate. }
  split; [exact H|].
  rewrite (EstimatedRuntime_all_at_once (mkOptions 4 "" false false false false "")
             BoundedParallel.group (or_intror H) Hnonneg).
  vm_compute. reflexivity.
Defined.

(** With [MaxParallelCmds] at 1, and no known estimate negative, the
estimate for a group is the seconds of its own command plus the largest of
the running sums of the seconds of its children, each added in turn to the
sum before; when no running sum is smaller than the one before it, that is
the last of them, the children added up one at a time. *)
Theorem EstimatedRuntime_one_by_one (Options : OptionsT) (task : Task)
    (Hone : MaxParallelCmds Options = 1)
    (Hnonneg : Forall (fun c => Eta.known c = true
                                -> 0 <= TaskCommand.EstimatedRuntime (Command c))
                      (ParallelTasks task)) :
  let own :=
    if Eta.known task
    then Float64.add Float64.zero (Eta.Seconds (TaskCommand.EstimatedRuntime (Command task)))
    else Float64.zero in
  let estimates := Eta.estimates (ParallelTasks task) in
  EstimatedRuntime Options task
  = Float64.add own (Eta.latest (Eta.running Float64.zero estimates))
  /\ (Eta.rising Float64.zero (Eta.running Float64.zero estimates) ->
      EstimatedRuntime Options task
      = Float64.add own (fold_left Float64.add estimates Float64.zero)).
Proof.
  intros own estimates.
  pose proof (EtaFacts.regular_estimates _ Hnonneg) as Hregular. fold estimates in Hregular.
  assert (Hfirst : EstimatedRuntime Options task
                   = Float64.add own (Eta.latest (Eta.running Float64.zero estimates))).
  { unfold EstimatedRuntime. cbv zeta. fold own.
    rewrite (EtaFacts.loop_initial Options _ Hnonneg), Hone. fold estimates.
    rewrite (EtaEdgeFacts.simulate_one_by_one estimates Hregular). reflexivity. }
  split; [exact Hfirst|]. intros Hrise. rewrite Hfirst. f_equal.
  apply (EtaEdgeFacts.latest_rising estimates Hregular Float64.zero eq_refl Hrise).
Qed.

Lemma EstimatedRuntime_one_by_one_witness :
  Eta.rising Float64.zero
             (Eta.running Float64.zero (Eta.estimates (ParallelTasks BoundedParallel.group)))
  /\ EstimatedRuntime (mkOptions 1 "" false false false false "") BoundedParallel.group
     = Eta.Seconds 4000000000.
Proof.
  assert (Hrise : Eta.rising Float64.zero
                    (Eta.running Float64.zero
                                 (Eta.estimates (ParallelTasks BoundedParallel.group)))).
  { vm_compute. repeat split. }
  assert (Hnonneg : Forall (fun c => Eta.known c = true
                                     -> 0 <= TaskCommand.EstimatedRuntime (Command c))
                           (ParallelTasks BoundedParallel.group)).
  { repeat constructor; intros _; vm_compute; discriminate. }
  split; [exact Hrise|].
  rewrite (proj2 (EstimatedRuntime_one_by_one (mkOptions 1 "" false false false false "")
                    BoundedParallel.group eq_refl Hnonneg) Hrise).
  vm_compute. reflexivity.
Defined.

(** ** The name shown for a task *)

Module NameFacts.





End NameFacts.



(** ** Progress of the scheduler *)

Module ProgressFacts.

Lemma closes_tail (a : Action) (rest : list Action) :
  closes (a :: rest) = true -> closes rest = true.
Proof.
  unfold closes. destruct a; cbn [sent]; try (intros H; exact H).
  rewrite last_cons. destruct (last (sent rest)); intros H; [exact H | reflexivity].
Qed.

Lemma terminals_last (i : nat) (records : list CmdIR.t) (r : CmdIR.t) :
  last records = Some r -> CmdIR.Complete r = true -> CmdIR.Task r = i ->
  (1 <= terminals i records)%nat.
Proof.
  intros Hlast Hc Hi. induction records as [|x records IH]; [discriminate|].
  rewrite last_cons in Hlast. cbn [terminals].
  destruct (last records) as [y|] eqn:Hy.
  - specialize (IH Hlast). lia.
  - injection Hlast as ->. rewrite Hc, Hi, Nat.eqb_refl. cbn. lia.
Qed.

Lemma run_closes (self : nat) (task : Task) (output : list Exec.PipeMsg)
    (status startedAt stoppedAt : Z) :
  closes (run self task (Exec.Runs output status) startedAt stoppedAt) = true
  /\ (1 <= terminals self (sent (run self task (Exec.Runs output status) startedAt stoppedAt)))%nat.
Proof.
  assert (Hlast : last (sent (run self task (Exec.Runs output status) startedAt stoppedAt))
                  = Some (terminalRecord self task status)).
  { rewrite RunFacts.sent_run_Runs. apply last_snoc. }
  split.
  - unfold closes. rewrite Hlast. reflexivity.
  - apply (terminals_last self _ _ Hlast); reflexivity.
Qed.

Lemma mayPend_le_1 (ts : list Task) (i : nat) : (mayPend ts i <= 1)%nat.
Proof. unfold mayPend. destruct (ts !! i) as [t|]; [destruct (running t)|]; lia. Qed.

Lemma running_counted (ts : list Task) (i : nat) (t : Task) :
  ts !! i = Some t -> running t = true -> 1 <= runningCount ts.
Proof.
  revert i. induction ts as [|x ts IH]; intros [|i] H Hrun; cbn in *; try discriminate.
  - injection H as ->. rewrite Hrun. pose proof (SchedFacts.runningCount_nonneg ts). lia.
  - specialize (IH i H Hrun). destruct (running x); lia.
Qed.

Lemma runningCount_pos (ts : list Task) :
  0 < runningCount ts -> exists i t, ts !! i = Some t /\ running t = true.
Proof.
  induction ts as [|x ts IH]; cbn; [lia|]. intros H.
  destruct (running x) eqn:Hx.
  - exists 0%nat, x. split; [reflexivity | exact Hx].
  - destruct (IH ltac:(lia)) as (i & t & Hi & Ht). exists (S i), t. split; assumption.
Qed.

Lemma busy_runner (rs : list (list Action)) :
  forallb (fun r : list Action => match r with [] => true | _ => false end) rs = false ->
  exists i a rest, rs !! i = Some (a :: rest).
Proof.
  induction rs as [|r rs IH]; cbn; [discriminate|]. destruct r as [|a rest].
  - intros H. destruct (IH H) as (i & a & rest & Hi). exists (S i), a, rest. exact Hi.
  - intros _. exists 0%nat, a, rest. reflexivity.
Qed.

(** A step of a runner keeps every running task on track. *)
Lemma onTrack_runnerStep (i : nat) (sys sys' : System) :
  Coherent sys -> onTrack sys -> runnerStep i sys = Some sys' -> onTrack sys'.
Proof.
  intros Hcoh [Hpend Hcloses] Hstep. unfold runnerStep in Hstep.
  destruct (runners sys !! i) as [[|a rest]|] eqn:Hi; try discriminate.
  assert (Hrest : closes rest = true) by (apply (closes_tail a), (Hcloses i), Hi).
  assert (Hcl : forall k script, <[i := rest]> (runners sys) !! k = Some script ->
                                 closes script = true).
  { intros k script Hk. destruct (decide (i = k)) as [<-|Hne].
    - rewrite list_lookup_insert_eq in Hk by (eapply lookup_lt_Some; exact Hi).
      injection Hk as <-. exact Hrest.
    - rewrite list_lookup_insert_ne in Hk by exact Hne. apply (Hcloses k), Hk. }
  destruct a; cbn in Hstep.
  - injection Hstep as <-. split; [|exact Hcl]. intros k. cbn [sched tasks resultChan runners set_tasks].
    rewrite (SchedFacts.pending_insert_same _ _ i k _ rest Hi) by reflexivity.
    rewrite SchedFacts.mayPend_alter_flags by apply SchedFacts.keepsFlags_StartTime.
    apply Hpend.
  - destruct (Z.of_nat (length (resultChan sys)) <? resultChanCap); [|discriminate].
    injection Hstep as <-. split; [|exact Hcl]. intros k. cbn [sched tasks resultChan runners set_tasks].
    specialize (Hpend k). unfold pending in *. rewrite SchedFacts.terminals_app.
    assert (Hr : CmdIR.Task record = i).
    { apply (coh_owner _ _ _ _ _ _ Hcoh i _ record Hi). cbn. left. }
    destruct (decide (i = k)) as [<-|Hne].
    + rewrite list_lookup_insert_eq by (eapply lookup_lt_Some; exact Hi).
      rewrite Hi in Hpend. cbn in *. lia.
    + rewrite list_lookup_insert_ne by exact Hne. lia.
  - injection Hstep as <-. split; [|exact Hcl]. intros k. cbn [sched tasks resultChan runners set_tasks].
    rewrite (SchedFacts.pending_insert_same _ _ i k _ rest Hi) by reflexivity.
    rewrite SchedFacts.mayPend_alter_flags by apply SchedFacts.keepsFlags_StopTime.
    apply Hpend.
  - injection Hstep as <-. split; [|exact Hcl]. intros k. cbn [sched tasks resultChan runners set_tasks].
    rewrite (SchedFacts.pending_insert_same _ _ i k _ rest Hi) by reflexivity.
    apply Hpend.
  - injection Hstep as <-. split; [|exact Hcl]. intros k. cbn [sched tasks resultChan runners set_tasks].
    rewrite (SchedFacts.pending_insert_same _ _ i k _ rest Hi) by reflexivity.
    apply Hpend.
Qed.

(** Launching a task whose subprocess can be started. *)
Lemma onTrack_startTask (W : World) (sys : System) :
  length (runners sys) = length (tasks (sched sys)) ->
  subprocess W (lastStartedTask (sched sys)) <> Exec.SpawnFails ->
  onTrack sys -> onTrack (startTask W sys).
Proof.
  intros Hlen Hspawn [Hpend Hcloses]. unfold startTask.
  destruct (tasks (sched sys) !! lastStartedTask (sched sys)) as [t|] eqn:Ht;
    [|split; assumption].
  set (j := lastStartedTask (sched sys)) in *.
  pose proof (lookup_lt_Some _ _ _ Ht) as Hlt.
  destruct (subprocess W j) as [|output status] eqn:Hp; [contradiction|].
  destruct (run_closes j t output status (startedAt W j) (stoppedAt W j)) as [Hc Hone].
  split; cbn [sched tasks resultChan runners set_tasks].
  - intros k. destruct (decide (j = k)) as [<-|Hne].
    + pose proof (mayPend_le_1 (<[j := set_Started true t]> (tasks (sched sys))) j).
      unfold pending. rewrite list_lookup_insert_eq by lia. cbn [default]. unfold id. lia.
    + specialize (Hpend k). unfold pending, mayPend in *.
      rewrite !list_lookup_insert_ne by exact Hne. exact Hpend.
  - intros k script Hk. destruct (decide (j = k)) as [<-|Hne].
    + rewrite list_lookup_insert_eq in Hk by lia. injection Hk as <-. exact Hc.
    + rewrite list_lookup_insert_ne in Hk by exact Hne. apply (Hcloses k), Hk.
Qed.

Lemma onTrack_recordFailure (msgObj : CmdIR.t) (sys : System) :
  onTrack sys -> onTrack (recordFailure msgObj sys).
Proof. unfold recordFailure. destruct (CmdIR.Status msgObj); intros H; exact H. Qed.

(** Receiving a record keeps every running task on track, when the task
launched in its wake can be started. *)
Lemma onTrack_schedulerStep (W : World) (sys sys' : System) :
  Coherent sys -> onTrack sys ->
  (forall i, (i < length (tasks (sched sys)))%nat -> subprocess W i <> Exec.SpawnFails) ->
  schedulerStep W sys = Some sys' -> onTrack sys'.
Proof.
  intros Hcoh [Hpend Hcloses] Hspawn Hstep. unfold schedulerStep in Hstep.
  destruct (0 <? runningCmds (sched sys)); [|discriminate].
  destruct (resultChan sys) as [|msgObj rest] eqn:Hchan; [discriminate|].
  injection Hstep as <-. unfold receive.
  destruct (CmdIR.Complete msgObj) eqn:Hcomplete.
  - cbv zeta. apply onTrack_recordFailure.
    set (sys1 := set_sched (markComplete (sched sys) msgObj)
                   (mkSystem (sched sys) rest (runners sys) (goStatements sys)
                             (exitSignaled sys) (crashed sys))).
    assert (Hlen1 : length (tasks (sched sys1)) = length (tasks (sched sys))).
    { cbn. apply length_alter. }
    assert (H1 : onTrack sys1).
    { split; cbn [sys1 set_sched markComplete sched tasks resultChan runners].
      - intros k. specialize (Hpend k). unfold pending, mayPend in *.
        cbn [terminals] in Hpend. rewrite Hcomplete in Hpend. cbn [andb] in Hpend.
        destruct (decide (CmdIR.Task msgObj = k)) as [<-|Hne].
        + rewrite list_lookup_alter_eq.
          destruct (tasks (sched sys) !! CmdIR.Task msgObj) as [t|]; cbn; [|lia].
          unfold running, Complete. cbn. rewrite andb_false_r. lia.
        + rewrite list_lookup_alter_ne by exact Hne.
          destruct (Nat.eqb_spec (CmdIR.Task msgObj) k); [contradiction|]. lia.
      - exact Hcloses. }
    change (onTrack (if (lastStartedTask (sched sys1) <? length (tasks (sched sys1)))%nat
                     then startTask W sys1 else sys1)).
    destruct (lastStartedTask (sched sys1) <? length (tasks (sched sys1)))%nat eqn:Hnext;
      [|exact H1].
    apply onTrack_startTask; [| |exact H1].
    + cbn. rewrite length_alter. apply (coh_runners _ _ _ _ _ _ Hcoh).
    + apply Hspawn. apply Nat.ltb_lt in Hnext. cbn in Hnext. rewrite length_alter in Hnext.
      exact Hnext.
  - split; cbn [sched tasks resultChan runners]; [|exact Hcloses].
    intros k. specialize (Hpend k). unfold pending in *.
    cbn [terminals] in Hpend. rewrite Hcomplete in Hpend. cbn [andb] in Hpend. lia.
Qed.

Lemma onTrack_step (W : World) (c : Choice) (sys sys' : System) :
  Coherent sys -> onTrack sys ->
  (forall i, (i < length (tasks (sched sys)))%nat -> subprocess W i <> Exec.SpawnFails) ->
  step W c sys = Some sys' -> onTrack sys'.
Proof.
  intros Hcoh Htrack Hspawn Hstep. unfold step in Hstep.
  destruct (crashed sys); [discriminate|]. destruct c as [i|].
  - exact (onTrack_runnerStep i sys sys' Hcoh Htrack Hstep).
  - exact (onTrack_schedulerStep W sys sys' Hcoh Htrack Hspawn Hstep).
Qed.

Lemma onTrack_exec (W : World) (cap : Z) (choices : list Choice) (sys sys' : System) :
  invariant cap sys -> onTrack sys ->
  (forall i, (i < length (tasks (sched sys)))%nat -> subprocess W i <> Exec.SpawnFails) ->
  exec W choices sys = Some sys' ->
  invariant cap sys' /\ onTrack sys'.
Proof.
  revert sys. induction choices as [|c choices IH]; intros sys Hinv Htrack Hspawn Hexec;
    cbn in Hexec.
  - injection Hexec as <-. auto.
  - destruct (step W c sys) as [sys1|] eqn:Hstep; [|discriminate].
    destruct (SchedFacts.invariant_step W cap c sys sys1 Hinv Hstep) as [Hinv1 Hlen1].
    apply (IH sys1 Hinv1); [|rewrite Hlen1; exact Hspawn | exact Hexec].
    destruct Hinv as (Hcoh & _). exact (onTrack_step W c sys sys1 Hcoh Htrack Hspawn Hstep).
Qed.

Lemma onTrack_startLoop (Options : OptionsT) (W : World) (fuel : nat) (sys : System) :
  Coherent sys -> onTrack sys ->
  (forall i, (i < length (tasks (sched sys)))%nat -> subprocess W i <> Exec.SpawnFails) ->
  onTrack (startLoop Options W fuel sys).
Proof.
  revert sys. induction fuel as [|fuel IH]; intros sys Hcoh Htrack Hspawn; cbn [startLoop];
    [exact Htrack|].
  destruct (Z.of_nat (lastStartedTask (sched sys)) <? MaxParallelCmds Options);
    cbn [andb]; [|exact Htrack].
  destruct (Nat.ltb_spec (lastStartedTask (sched sys)) (length (tasks (sched sys))))
    as [Hnext|Hnone]; [|exact Htrack].
  destruct (SchedFacts.Coherent_startTask W sys Hcoh Hnext) as (Hcoh' & _ & _ & Hlen' & _).
  apply IH; [exact Hcoh' | | rewrite Hlen'; exact Hspawn].
  apply onTrack_startTask; [apply (coh_runners _ _ _ _ _ _ Hcoh) | apply Hspawn, Hnext | exact Htrack].
Qed.

Lemma onTrack_Process_start (Options : OptionsT) (W : World) (completed : Z)
    (cache : gmap string Z) (task : Task) :
  Forall fresh (Tasks task) ->
  (forall i, (i < length (Tasks task))%nat -> subprocess W i <> Exec.SpawnFails) ->
  onTrack (Process_start Options W completed cache task).
Proof.
  intros Hfresh Hspawn. unfold Process_start. cbv zeta.
  set (tasks1 := if Vintage Options then Tasks task else map (set_Started false) (Tasks task)).
  assert (Hfresh1 : Forall fresh tasks1).
  { unfold tasks1. destruct (Vintage Options);
      [exact Hfresh | apply SchedFacts.fresh_reset, Hfresh]. }
  assert (Hlen1 : length tasks1 = length (Tasks task)).
  { unfold tasks1. destruct (Vintage Options); [reflexivity | apply length_map]. }
  apply onTrack_startLoop.
  - apply SchedFacts.coherent_initial, Hfresh1.
  - split; cbn [sched tasks resultChan runners].
    + intros i. unfold mayPend. destruct (tasks1 !! i) as [t|] eqn:Ht; [|lia].
      destruct (Forall_lookup_1 _ _ _ _ Hfresh1 Ht) as [Hs _].
      unfold running. rewrite Hs. cbn. lia.
    + intros i script Hi. apply lookup_replicate in Hi as [-> _]. reflexivity.
  - cbn [sched tasks]. rewrite Hlen1. exact Hspawn.
Qed.

(** A system on track that has not crashed can take a step, unless
[Process] returns. *)
Lemma progress (W : World) (sys : System) :
  Coherent sys -> onTrack sys -> crashed sys = false ->
  Process_returns sys = Some (failedTasks (sched sys))
  \/ exists c sys', step W c sys = Some sys'.
Proof.
  intros Hcoh [Hpend Hcloses] Hcr. unfold Process_returns, step. rewrite Hcr.
  destruct (Z.ltb_spec 0 (runningCmds (sched sys))) as [Hbusy|Hidle].
  - right. rewrite (coh_count _ _ _ _ _ _ Hcoh) in Hbusy.
    destruct (runningCount_pos _ Hbusy) as (i & t & Ht & Hrun).
    specialize (Hpend i). unfold mayPend, pending in Hpend. rewrite Ht, Hrun in Hpend.
    destruct (resultChan sys) as [|msgObj rest] eqn:Hchan.
    + cbn [terminals] in Hpend.
      destruct (runners sys !! i) as [[|a rest]|] eqn:Hi; cbn in Hpend; try lia.
      exists (RunnerActs i). unfold runnerStep. rewrite Hi, Hchan.
      destruct a; eexists; reflexivity.
    + exists SchedulerReceives. unfold schedulerStep. rewrite Hchan.
      rewrite (coh_count _ _ _ _ _ _ Hcoh).
      destruct (Z.ltb_spec 0 (runningCount (tasks (sched sys)))); [|lia].
      eexists; reflexivity.
  - destruct (exitSignaled sys); [left; reflexivity|]. cbn [orb].
    destruct (forallb _ (runners sys)) eqn:Hdone; [left; reflexivity|]. right.
    destruct (busy_runner _ Hdone) as (i & a & rest & Hi).
    exists (RunnerActs i). unfold runnerStep. rewrite Hi.
    destruct a; try (eexists; reflexivity).
    exfalso.
    pose proof (Hcloses i _ Hi) as Hc. unfold closes in Hc.
    destruct (last (sent (Send record :: rest))) as [r|] eqn:Hlast.
    2:{ apply last_None in Hlast. discriminate. }
    assert (Hown : CmdIR.Task r = i).
    { apply (coh_owner _ _ _ _ _ _ Hcoh i _ r Hi). apply last_Some_elem_of. exact Hlast. }
    pose proof (terminals_last i _ r Hlast Hc Hown) as Hone.
    pose proof (coh_pending _ _ _ _ _ _ Hcoh i) as Hmay.
    unfold pending in Hmay. rewrite Hi in Hmay. cbn [default] in Hmay. unfold id in Hmay.
    unfold mayPend in Hmay.
    destruct (tasks (sched sys) !! i) as [t|] eqn:Ht; [|lia].
    destruct (running t) eqn:Hrun; [|lia].
    pose proof (running_counted _ i t Ht Hrun) as Hcount.
    rewrite <- (coh_count _ _ _ _ _ _ Hcoh) in Hcount. lia.
Qed.

Lemma never_crashed (Options : OptionsT) (W : World) (completed : Z)
    (cache : gmap string Z) (task : Task) (choices : list Choice) (sys : System) :
  (forall i, (i < length (Tasks task))%nat -> subprocess W i <> Exec.SpawnFails) ->
  exec W choices (Process_start Options W completed cache task) = Some sys ->
  crashed sys = false.
Proof.
  intros Hspawn Hexec.
  assert (Hs : scripted panicsNot W (Tasks task)).
  { intros i t Ht. specialize (Hspawn i (lookup_lt_Some _ _ _ Ht)).
    destruct (subprocess W i) as [|output status]; [contradiction|].
    apply ScriptFacts.run_panicsNot. }
  destruct (LawFacts.lawful_Process_start panicsNot (fun _ => True)
              Options W completed cache task Hs) as (Hlaw0 & Hset0 & _ & _ & Hcr0).
  destruct (LawFacts.lawful_exec panicsNot (fun _ => True)
              W (Tasks task) choices (fun _ _ => I) Hs _ sys Hlaw0 Hset0 Hexec)
    as (_ & _ & _ & [Habsurd|Hcr] & _).
  - exfalso. apply Habsurd. reflexivity.
  - congruence.
Qed.

End ProgressFacts.

(** [Process] cannot get stuck.  When the subprocess of every child can be
started, then at every moment of every execution either the call returns its
list of failed tasks, or a step is possible: a runner has an action it can
perform, or the scheduler is in its loop with a record to receive.  A runner
blocked on a full channel always finds the scheduler receiving, and no
runner is left with a record to send once the scheduler has left its
loop. *)
Theorem Process_never_deadlocks (Options : OptionsT) (W : World) (completed : Z)
    (cache : gmap string Z) (task : Task) (choices : list Choice) (sys : System)
    (Hfresh : Forall fresh (Tasks task))
    (Hspawn : forall i, (i < length (Tasks task))%nat -> subprocess W i <> Exec.SpawnFails)
    (Hexec : exec W choices (Process_start Options W completed cache task) = Some sys) :
  Process_returns sys = Some (failedTasks (sched sys))
  \/ exists c sys', step W c sys = Some sys'.
Proof.
  destruct (SchedFacts.invariant_Process_start Options W completed cache task Hfresh)
    as [Hinv0 Hlen0].
  pose proof (ProgressFacts.onTrack_Process_start Options W completed cache task Hfresh Hspawn)
    as Htrack0.
  destruct (ProgressFacts.onTrack_exec W _ choices _ sys Hinv0 Htrack0) as [Hinv Htrack].
  - rewrite Hlen0. exact Hspawn.
  - exact Hexec.
  - destruct Hinv as (Hcoh & _).
    apply (ProgressFacts.progress W sys Hcoh Htrack).
    exact (ProgressFacts.never_crashed Options W completed cache task choices sys Hspawn Hexec).
Qed.

Lemma Process_never_deadlocks_witness :
  exists sys,
    exec IgnoreFailure.world IgnoreFailure.schedule
         (Process_start IgnoreFailure.options IgnoreFailure.world 0 ∅ IgnoreFailure.inflated)
    = Some sys
    /\ (Process_returns sys = Some (failedTasks (sched sys))
        \/ exists c sys', step IgnoreFailure.world c sys = Some sys').
Proof.
  destruct ScenarioFacts.IgnoreFailure_run as (sys & _ & Hexec & _).
  exists sys. split; [exact Hexec|].
  exact (Process_never_deadlocks IgnoreFailure.options IgnoreFailure.world 0 ∅
           IgnoreFailure.inflated IgnoreFailure.schedule sys
           ScenarioFacts.IgnoreFailure_fresh
           (fun i _ => ScenarioFacts.IgnoreFailure_spawns i) Hexec).
Defined.

(** ** The number of steps of the scheduler *)

Module StepFacts.

Lemma actionsLeft_tail (rs : list (list Action)) (i : nat) (a : Action) (rest : list Action) :
  rs !! i = Some (a :: rest) ->
  S (actionsLeft (<[i := rest]> rs)) = actionsLeft rs.
Proof.
  revert i. induction rs as [|r rs IH]; intros [|i] H; simpl in *; try discriminate.
  - injection H as ->. reflexivity.
  - rewrite <- (IH i H). lia.
Qed.

Lemma actionsLeft_insert (rs : list (list Action)) (j : nat) (script : list Action) :
  (actionsLeft (<[j := script]> rs) <= actionsLeft rs + length script)%nat.
Proof.
  revert j. induction rs as [|r rs IH]; intros [|j]; simpl; try lia.
  specialize (IH j). lia.
Qed.

Lemma actionsLeft_idle (n : nat) : actionsLeft (replicate n []) = O.
Proof. induction n; cbn; auto. Qed.

Lemma run_length (self : nat) (task : Task) (p : Exec.Subprocess) (a b : Z) :
  (length (run self task p a b) <= 5 + length (Exec.pipeOutput p))%nat.
Proof.
  unfold run. rewrite !length_app, length_map. cbn [length].
  destruct (waitStatusOf (Exec.Wait p)); [|cbn; lia].
  cbv zeta. destruct (_ || _); [cbn; lia|]. cbn [length].
  destruct (StopOnFailure task); cbn; lia.
Qed.

Lemma unstarted_next (W : World) (last len : nat) :
  (last < len)%nat ->
  unstarted W last (len - last) = (cost W last + unstarted W (S last) (len - S last))%nat.
Proof.
  intros H. replace (len - last)%nat with (S (len - S last)) by lia. reflexivity.
Qed.

(** Launching a task lowers the potential. *)
Lemma potential_startTask (W : World) (sys : System) :
  (lastStartedTask (sched sys) < length (tasks (sched sys)))%nat ->
  (S (potential W (startTask W sys)) <= potential W sys)%nat
  /\ length (tasks (sched (startTask W sys))) = length (tasks (sched sys)).
Proof.
  intros Hnext. unfold startTask.
  destruct (lookup_lt_is_Some_2 _ _ Hnext) as [t Ht]. rewrite Ht.
  unfold potential. cbn [sched tasks lastStartedTask runners resultChan].
  rewrite length_insert. split; [|reflexivity].
  rewrite (unstarted_next W _ _ Hnext).
  pose proof (actionsLeft_insert (runners sys) (lastStartedTask (sched sys))
                (run (lastStartedTask (sched sys)) t
                     (subprocess W (lastStartedTask (sched sys)))
                     (startedAt W (lastStartedTask (sched sys)))
                     (stoppedAt W (lastStartedTask (sched sys))))) as Hins.
  pose proof (run_length (lastStartedTask (sched sys)) t
                (subprocess W (lastStartedTask (sched sys)))
                (startedAt W (lastStartedTask (sched sys)))
                (stoppedAt W (lastStartedTask (sched sys)))) as Hrun.
  unfold cost. lia.
Qed.

Lemma potential_runnerStep (W : World) (i : nat) (sys sys' : System) :
  runnerStep i sys = Some sys' ->
  (S (potential W sys') <= potential W sys)%nat
  /\ length (tasks (sched sys')) = length (tasks (sched sys)).
Proof.
  unfold runnerStep. destruct (runners sys !! i) as [[|a rest]|] eqn:Hi; try discriminate.
  pose proof (actionsLeft_tail _ _ _ _ Hi) as Htail.
  destruct a; intros Hstep;
    try (destruct (Z.of_nat (length (resultChan sys)) <? resultChanCap); [|discriminate]);
    injection Hstep as <-; unfold potential;
    cbn [sched tasks lastStartedTask runners resultChan set_tasks];
    rewrite ?length_alter, ?length_app; cbn [length]; split; try reflexivity; lia.
Qed.

Lemma potential_recordFailure (W : World) (msgObj : CmdIR.t) (sys : System) :
  potential W (recordFailure msgObj sys) = potential W sys
  /\ length (tasks (sched (recordFailure msgObj sys))) = length (tasks (sched sys)).
Proof. unfold recordFailure. destruct (CmdIR.Status msgObj); split; reflexivity. Qed.

Lemma potential_schedulerStep (W : World) (sys sys' : System) :
  schedulerStep W sys = Some sys' ->
  (S (potential W sys') <= potential W sys)%nat
  /\ length (tasks (sched sys')) = length (tasks (sched sys)).
Proof.
  unfold schedulerStep. destruct (0 <? runningCmds (sched sys)); [|discriminate].
  destruct (resultChan sys) as [|msgObj rest] eqn:Hchan; [discriminate|].
  intros Hstep. injection Hstep as <-. unfold receive.
  destruct (CmdIR.Complete msgObj).
  - cbv zeta.
    set (sys1 := set_sched (markComplete (sched sys) msgObj)
                   (mkSystem (sched sys) rest (runners sys) (goStatements sys)
                             (exitSignaled sys) (crashed sys))).
    change (recordFailure msgObj _)
      with (recordFailure msgObj
              (if (lastStartedTask (sched sys1) <? length (tasks (sched sys1)))%nat
               then startTask W sys1 else sys1)).
    assert (H1 : S (potential W sys1) = potential W sys
                 /\ length (tasks (sched sys1)) = length (tasks (sched sys))).
    { unfold potential. cbn [sys1 set_sched markComplete sched tasks lastStartedTask
                             runners resultChan].
      rewrite length_alter, Hchan. cbn [length]. split; [lia | reflexivity]. }
    destruct H1 as [Hpot1 Hlen1].
    match goal with
    | |- context [recordFailure msgObj ?s] =>
        destruct (potential_recordFailure W msgObj s) as [-> ->]
    end.
    destruct (Nat.ltb_spec (lastStartedTask (sched sys1)) (length (tasks (sched sys1))))
      as [Hnext|_].
    + destruct (potential_startTask W sys1 Hnext) as [Hpot2 Hlen2].
      split; [lia | congruence].
    + split; [lia | exact Hlen1].
  - unfold potential. cbn [sched tasks lastStartedTask runners resultChan].
    rewrite Hchan. cbn [length]. split; [lia | reflexivity].
Qed.

Lemma potential_step (W : World) (c : Choice) (sys sys' : System) :
  step W c sys = Some sys' ->
  (S (potential W sys') <= potential W sys)%nat
  /\ length (tasks (sched sys')) = length (tasks (sched sys)).
Proof.
  unfold step. destruct (crashed sys); [discriminate|]. destruct c as [i|].
  - apply potential_runnerStep.
  - apply potential_schedulerStep.
Qed.

Lemma potential_exec (W : World) (choices : list Choice) (sys sys' : System) :
  exec W choices sys = Some sys' ->
  (length choices + potential W sys' <= potential W sys)%nat.
Proof.
  revert sys. induction choices as [|c choices IH]; intros sys Hexec; cbn in Hexec.
  - injection Hexec as <-. cbn. lia.
  - destruct (step W c sys) as [sys1|] eqn:Hstep; [|discriminate].
    destruct (potential_step W c sys sys1 Hstep) as [Hpot _].
    specialize (IH sys1 Hexec). cbn [length]. lia.
Qed.

Lemma potential_startLoop (Options : OptionsT) (W : World) (fuel : nat) (sys : System) :
  (potential W (startLoop Options W fuel sys) <= potential W sys)%nat.
Proof.
  revert sys. induction fuel as [|fuel IH]; intros sys; cbn [startLoop]; [lia|].
  destruct (Z.of_nat (lastStartedTask (sched sys)) <? MaxParallelCmds Options);
    cbn [andb]; [|lia].
  destruct (Nat.ltb_spec (lastStartedTask (sched sys)) (length (tasks (sched sys))))
    as [Hnext|_]; [|lia].
  destruct (potential_startTask W sys Hnext) as [Hpot _].
  specialize (IH (startTask W sys)). lia.
Qed.

Lemma potential_Process_start (Options : OptionsT) (W : World) (completed : Z)
    (cache : gmap string Z) (task : Task) :
  (potential W (Process_start Options W completed cache task)
   <= unstarted W 0 (length (Tasks task)))%nat.
Proof.
  unfold Process_start. cbv zeta.
  etransitivity; [apply potential_startLoop|].
  unfold potential. cbn [sched tasks lastStartedTask runners resultChan length].
  rewrite actionsLeft_idle, Nat.sub_0_r.
  destruct (Vintage Options); rewrite ?length_map; lia.
Qed.

End StepFacts.

(** The scheduler adds no steps of its own.  When the readers of the
children deliver finitely many output tokens (the output of a child is a
finite list in this model; a reader that never stops delivering, as the
split function allows at terminal width 0, is outside it), an execution
takes at most eleven steps for each task and two for each token delivered,
runner actions and records received counted together, however runners and
scheduler are interleaved: every receive consumes a record, every launch a
task, and nothing is sent twice.  The ticks of the spinner are not
counted. *)
Theorem Process_step_bound (Options : OptionsT) (W : World) (completed : Z)
    (cache : gmap string Z) (task : Task) (choices : list Choice) (sys : System)
    (Hexec : exec W choices (Process_start Options W completed cache task) = Some sys) :
  (length choices <= unstarted W 0 (length (Tasks task)))%nat.
Proof.
  pose proof (StepFacts.potential_exec W choices _ sys Hexec) as Hrun.
  pose proof (StepFacts.potential_Process_start Options W completed cache task) as H0.
  lia.
Qed.

Lemma Process_step_bound_witness :
  exists sys,
    exec IgnoreFailure.world IgnoreFailure.schedule
         (Process_start IgnoreFailure.options IgnoreFailure.world 0 ∅ IgnoreFailure.inflated)
    = Some sys
    /\ (length IgnoreFailure.schedule
        <= unstarted IgnoreFailure.world 0 (length (Tasks IgnoreFailure.inflated)))%nat.
Proof.
  destruct ScenarioFacts.IgnoreFailure_run as (sys & _ & Hexec & _).
  exists sys. split; [exact Hexec|].
  exact (Process_step_bound IgnoreFailure.options IgnoreFailure.world 0 ∅
           IgnoreFailure.inflated IgnoreFailure.schedule sys Hexec).
Defined.

(** ** The list of failed tasks *)

Module VerdictFacts.

Lemma run_tellsTruth (W : World) (ts : list Task) : scripted (tellsTruth W ts) W ts.
Proof.
  intros i t Ht. unfold run.
  constructor; [exact I|]. constructor; [intros Hc; discriminate|].
  apply Forall_app. split.
  - apply Forall_fmap, Forall_forall. intros m _ Hc. destruct m; discriminate.
  - constructor; [exact I|].
    destruct (subprocess W i) as [|output status] eqn:Hp.
    + repeat constructor.
    + rewrite RunFacts.waitStatusOf_Runs. cbv zeta.
      assert (Hfails : failsAt W ts i
                       = negb ((Syscall.ExitStatus status =? 0) || IgnoreFailure t)).
      { unfold failsAt, fails. rewrite Ht, Hp. reflexivity. }
      destruct ((Syscall.ExitStatus status =? 0) || IgnoreFailure t).
      * constructor; [|constructor].
        intros _. cbn [CmdIR.Status CmdIR.Task]. rewrite Hfails. split; discriminate.
      * constructor.
        -- intros _. cbn [CmdIR.Status CmdIR.Task]. rewrite Hfails. split; reflexivity.
        -- destruct (StopOnFailure t); [constructor; [exact I|]|]; constructor.
Qed.

Lemma failsAt_settings (W : World) (ts ts' : list Task) (i : nat) :
  map settings ts = map settings ts' -> failsAt W ts i = failsAt W ts' i.
Proof.
  intros Hmap. unfold failsAt.
  destruct (ts !! i) as [t|] eqn:Hi.
  - destruct (LawFacts.settings_lookup ts ts' i t Hmap Hi) as (t' & -> & Hset).
    unfold fails, settings in *. injection Hset as _ _ ->. reflexivity.
  - assert (Hnone : ts' !! i = None).
    { apply lookup_ge_None. apply lookup_ge_None in Hi.
      rewrite <- (length_map settings ts'), <- Hmap, length_map. exact Hi. }
    rewrite Hnone. reflexivity.
Qed.

Lemma done_alter (g : Task -> Task) (i : nat) (ts : list Task) :
  (forall t, Complete (g t) = true) ->
  map Complete (alter g i ts) = <[i := true]> (map Complete ts).
Proof.
  intros Hg. revert i. induction ts as [|t ts IH]; intros [|i]; simpl; try reflexivity.
  - rewrite Hg. reflexivity.
  - f_equal. apply IH.
Qed.

Lemma runnerStep_done (i : nat) (sys sys' : System) :
  runnerStep i sys = Some sys' ->
  map Complete (tasks (sched sys')) = map Complete (tasks (sched sys))
  /\ failedTasks (sched sys') = failedTasks (sched sys).
Proof.
  unfold runnerStep. destruct (runners sys !! i) as [[|a rest]|]; try discriminate.
  destruct a; try (destruct (_ <? _)); intros H; try discriminate;
    injection H as <-; simpl; split; try reflexivity;
    apply TallyFacts.fmap_alter_same; reflexivity.
Qed.

Lemma startTask_done (W : World) (sys : System) :
  map Complete (tasks (sched (startTask W sys))) = map Complete (tasks (sched sys))
  /\ failedTasks (sched (startTask W sys)) = failedTasks (sched sys).
Proof.
  unfold startTask.
  destruct (tasks (sched sys) !! lastStartedTask (sched sys)) as [t|] eqn:Ht;
    [|split; reflexivity].
  simpl. split; [|reflexivity].
  apply (TallyFacts.fmap_insert_same Complete _ t); [exact Ht | reflexivity].
Qed.

Lemma startLoop_done (Options : OptionsT) (W : World) (fuel : nat) (sys : System) :
  map Complete (tasks (sched (startLoop Options W fuel sys))) = map Complete (tasks (sched sys))
  /\ failedTasks (sched (startLoop Options W fuel sys)) = failedTasks (sched sys).
Proof.
  revert sys. induction fuel as [|fuel IH]; intros sys; cbn [startLoop]; [split; reflexivity|].
  destruct (_ && _); [|split; reflexivity].
  destruct (IH (startTask W sys)) as [-> ->]. apply startTask_done.
Qed.

(** Receiving a record keeps the account of failed tasks. *)
Lemma accounted_schedulerStep (W : World) (ts0 : list Task) (sys sys' : System) :
  Coherent sys -> Forall (truthful W ts0) (resultChan sys) -> accounted W ts0 sys ->
  schedulerStep W sys = Some sys' -> accounted W ts0 sys'.
Proof.
  intros Hcoh Htruth [Hnodup Hacc] Hstep. unfold schedulerStep in Hstep.
  destruct (0 <? runningCmds (sched sys)); [|discriminate].
  destruct (resultChan sys) as [|msgObj rest] eqn:Hchan; [discriminate|].
  injection Hstep as <-. unfold receive.
  destruct (CmdIR.Complete msgObj) eqn:Hcomplete; [|split; assumption].
  cbv zeta.
  set (i := CmdIR.Task msgObj).
  set (sys1 := set_sched (markComplete (sched sys) msgObj)
                 (mkSystem (sched sys) rest (runners sys) (goStatements sys)
                           (exitSignaled sys) (crashed sys))).
  change (recordFailure msgObj _)
    with (recordFailure msgObj
            (if (lastStartedTask (sched sys1) <? length (tasks (sched sys1)))%nat
             then startTask W sys1 else sys1)).
  set (sys2 := if (lastStartedTask (sched sys1) <? length (tasks (sched sys1)))%nat
               then startTask W sys1 else sys1).
  assert (Hdone1 : map Complete (tasks (sched sys1))
                   = <[i := true]> (map Complete (tasks (sched sys)))).
  { cbn [sys1 set_sched markComplete sched tasks]. apply done_alter. reflexivity. }
  assert (H2 : map Complete (tasks (sched sys2)) = <[i := true]> (map Complete (tasks (sched sys)))
               /\ failedTasks (sched sys2) = failedTasks (sched sys)).
  { unfold sys2. destruct (_ <? _)%nat.
    - destruct (startTask_done W sys1) as [-> ->]. split; [exact Hdone1 | reflexivity].
    - split; [exact Hdone1 | reflexivity]. }
  destruct H2 as [Hdone2 Hfailed2].
  unfold Coherent in Hcoh. rewrite Hchan in Hcoh.
  destruct (SchedFacts.coherent_complete _ _ _ msgObj _ _ _
              (fun eventTask => set_ReturnCode (CmdIR.ReturnCode msgObj)
                                               (set_Complete true eventTask))
              Hcoh Hcomplete (fun t => conj eq_refl eq_refl))
    as (t & Ht & Hrun & _ & _).
  fold i in Ht.
  assert (Hnot : map Complete (tasks (sched sys)) !! i = Some false).
  { rewrite list_lookup_fmap, Ht. cbn. f_equal.
    unfold running in Hrun. apply andb_prop in Hrun as [_ Hc].
    destruct (Complete t); [discriminate | reflexivity]. }
  assert (Hfresh : i ∉ failedTasks (sched sys)).
  { intros Hin. apply Hacc in Hin as [Hin _]. congruence. }
  inversion Htruth as [|r chan Hmsg _]; subst. specialize (Hmsg Hcomplete). fold i in Hmsg.
  assert (Hnow : <[i := true]> (map Complete (tasks (sched sys))) !! i = Some true).
  { apply list_lookup_insert_eq. rewrite length_map. eapply lookup_lt_Some. exact Ht. }
  unfold accounted, recordFailure.
  destruct (CmdIR.Status msgObj) eqn:Hstatus;
    cbn [set_sched sched failedTasks tasks]; rewrite ?Hfailed2, Hdone2.
  1-3: split; [exact Hnodup|]; intros k; destruct (decide (i = k)) as [<-|Hne];
    [ split; [intros Hin; contradiction
             | intros [_ Hf]; apply Hmsg in Hf; discriminate]
    | rewrite list_lookup_insert_ne by exact Hne; apply Hacc ].
  split.
  - apply NoDup_app. split_and!; [exact Hnodup | | apply NoDup_singleton].
    intros k Hk Hk'. apply list_elem_of_singleton in Hk'. subst k. contradiction.
  - intros k. rewrite elem_of_app, list_elem_of_singleton.
    destruct (decide (i = k)) as [<-|Hne].
    + split; [intros _; split; [exact Hnow | apply Hmsg; reflexivity] | intros _; right; reflexivity].
    + rewrite list_lookup_insert_ne by exact Hne. rewrite Hacc.
      split; [intros [H|H]; [exact H | exfalso; apply Hne; symmetry; exact H]
             | intros H; left; exact H].
Qed.

Lemma accounted_step (W : World) (ts0 : list Task) (c : Choice) (sys sys' : System) :
  Coherent sys -> Forall (truthful W ts0) (resultChan sys) -> accounted W ts0 sys ->
  step W c sys = Some sys' -> accounted W ts0 sys'.
Proof.
  intros Hcoh Htruth Hacc Hstep. unfold step in Hstep.
  destruct (crashed sys); [discriminate|]. destruct c as [i|].
  - destruct (runnerStep_done i sys sys' Hstep) as [Hdone Hfailed].
    unfold accounted. rewrite Hdone, Hfailed. exact Hacc.
  - exact (accounted_schedulerStep W ts0 sys sys' Hcoh Htruth Hacc Hstep).
Qed.

Lemma accounted_exec (W : World) (cap : Z) (ts0 : list Task) (choices : list Choice) :
  forall sys sys',
    invariant cap sys ->
    lawful (tellsTruth W ts0) (truthful W ts0) sys ->
    map settings (tasks (sched sys)) = map settings ts0 ->
    accounted W ts0 sys ->
    exec W choices sys = Some sys' ->
    accounted W ts0 sys'.
Proof.
  induction choices as [|c choices IH]; intros sys sys' Hinv Hlaw Hset Hacc Hexec;
    cbn in Hexec.
  - injection Hexec as <-. exact Hacc.
  - destruct (step W c sys) as [sys1|] eqn:Hstep; [|discriminate].
    destruct (SchedFacts.invariant_step W cap c sys sys1 Hinv Hstep) as [Hinv1 _].
    assert (Hone : exec W [c] sys = Some sys1) by (cbn; rewrite Hstep; reflexivity).
    destruct (LawFacts.lawful_exec (tellsTruth W ts0) (truthful W ts0) W ts0 [c]
                (fun r H => H) (run_tellsTruth W ts0) sys sys1 Hlaw Hset Hone)
      as (Hlaw1 & Hset1 & _).
    apply (IH sys1 sys' Hinv1 Hlaw1 Hset1); [|exact Hexec].
    destruct Hinv as (Hcoh & _). destruct Hlaw as [Htruth _].
    exact (accounted_step W ts0 c sys sys1 Hcoh Htruth Hacc Hstep).
Qed.

Lemma accounted_Process_start (Options : OptionsT) (W : World) (completed : Z)
    (cache : gmap string Z) (task : Task) :
  Forall fresh (Tasks task) ->
  accounted W (Tasks task) (Process_start Options W completed cache task).
Proof.
  intros Hfresh. unfold Process_start. cbv zeta.
  set (tasks1 := if Vintage Options then Tasks task else map (set_Started false) (Tasks task)).
  assert (Hfresh1 : Forall fresh tasks1).
  { unfold tasks1. destruct (Vintage Options);
      [exact Hfresh | apply SchedFacts.fresh_reset, Hfresh]. }
  unfold accounted.
  match goal with
  | |- context [startLoop Options W ?fuel ?s] =>
      destruct (startLoop_done Options W fuel s) as [-> ->]
  end.
  cbn [sched tasks failedTasks]. split; [apply NoDup_nil_2|].
  intros i. split; [intros Hin; inversion Hin|].
  intros [Hdone _]. rewrite list_lookup_fmap in Hdone.
  destruct (tasks1 !! i) as [t|] eqn:Ht; [|discriminate].
  destruct (Forall_lookup_1 _ _ _ _ Hfresh1 Ht) as [_ Hc]. cbn in Hdone. congruence.
Qed.

(** Once the loop is left, with room for one command at least, every task
of the group is complete. *)
Lemma all_done (Options : OptionsT) (W : World) (completed : Z)
    (cache : gmap string Z) (task : Task) (choices : list Choice) (sys : System) :
  1 <= MaxParallelCmds Options ->
  Forall fresh (Tasks task) ->
  exec W choices (Process_start Options W completed cache task) = Some sys ->
  runningCmds (sched sys) <= 0 ->
  forall i, (i < length (Tasks task))%nat ->
            map Complete (tasks (sched sys)) !! i = Some true.
Proof.
  intros Hroom Hfresh Hexec Hleft i Hi.
  destruct (TallyFacts.tally_exec Options W completed choices _ sys
              (TallyFacts.tally_Process_start Options W completed cache task) Hexec)
    as (_ & _ & _ & Hbusy).
  destruct (SchedFacts.invariant_Process_start Options W completed cache task Hfresh)
    as [Hinv0 Hlen0].
  destruct (SchedFacts.invariant_exec W _ choices _ sys Hinv0 Hexec)
    as [(Hcoh & _ & _) Hlen].
  destruct Hcoh as [Hlast Hst _ Hrc _ _ _ _].
  pose proof (SchedFacts.runningCount_nonneg (tasks (sched sys))) as Hnonneg.
  assert (Hall : lastStartedTask (sched sys) = length (tasks (sched sys))).
  { destruct (Nat.lt_ge_cases (lastStartedTask (sched sys)) (length (tasks (sched sys))))
      as [Hlt|Hge]; [|lia].
    specialize (Hbusy Hroom Hlt). lia. }
  assert (Hlt : (i < length (tasks (sched sys)))%nat) by (rewrite Hlen, Hlen0; exact Hi).
  destruct (lookup_lt_is_Some_2 _ _ Hlt) as [t Ht].
  rewrite list_lookup_fmap, Ht. cbn. f_equal.
  assert (Hs : Started t = true).
  { rewrite (Hst i t Ht). apply bool_decide_eq_true. rewrite Hall. exact Hlt. }
  assert (Hr : running t = false).
  { apply (TallyFacts.runningCount_zero (tasks (sched sys)) i); [lia | exact Ht]. }
  unfold running in Hr. rewrite Hs in Hr. cbn in Hr.
  destruct (Complete t); [reflexivity | discriminate].
Qed.

End VerdictFacts.

(** What [Process] returns.  With room for one command at least and fresh
tasks, whenever a call returns, in whatever order runners and scheduler took
their steps, the list it returns holds exactly the tasks of the group whose
subprocess exited with a code other than 0 and that do not ignore failures,
each of them once. *)
Theorem Process_returns_the_failed (Options : OptionsT) (W : World) (completed : Z)
    (cache : gmap string Z) (task : Task) (choices : list Choice) (sys : System)
    (failed : list nat)
    (Hroom : 1 <= MaxParallelCmds Options)
    (Hfresh : Forall fresh (Tasks task))
    (Hexec : exec W choices (Process_start Options W completed cache task) = Some sys)
    (Hreturns : Process_returns sys = Some failed) :
  NoDup failed
  /\ forall i, i ∈ failed <-> failsAt W (Tasks task) i = true.
Proof.
  unfold Process_returns in Hreturns.
  destruct (crashed sys); [discriminate|].
  destruct (Z.ltb_spec 0 (runningCmds (sched sys))) as [|Hleft]; [discriminate|].
  destruct (_ || _); [|discriminate]. injection Hreturns as <-.
  destruct (SchedFacts.invariant_Process_start Options W completed cache task Hfresh)
    as [Hinv0 _].
  destruct (LawFacts.lawful_Process_start (tellsTruth W (Tasks task)) (truthful W (Tasks task))
              Options W completed cache task (VerdictFacts.run_tellsTruth W (Tasks task)))
    as (Hlaw0 & Hset0 & _).
  destruct (VerdictFacts.accounted_exec W _ (Tasks task) choices _ sys Hinv0 Hlaw0 Hset0
              (VerdictFacts.accounted_Process_start Options W completed cache task Hfresh)
              Hexec) as [Hnodup Hacc].
  split; [exact Hnodup|]. intros i. rewrite Hacc. split; [intros [_ H]; exact H|].
  intros Hfails. split; [|exact Hfails].
  apply (VerdictFacts.all_done Options W completed cache task choices sys
           Hroom Hfresh Hexec Hleft).
  unfold failsAt in Hfails. destruct (Tasks task !! i) as [t|] eqn:Ht; [|discriminate].
  eapply lookup_lt_Some. exact Ht.
Qed.

Lemma Process_returns_the_failed_witness :
  exists sys,
    exec StopOnFailure.world StopOnFailure.schedule
         (Process_start StopOnFailure.options StopOnFailure.world 0 ∅ StopOnFailure.inflated)
    = Some sys
    /\ Process_returns sys = Some [1%nat]
    /\ (1%nat ∈ [1%nat]
        <-> failsAt StopOnFailure.world (Tasks StopOnFailure.inflated) 1 = true).
Proof.
  assert (Hsys : exists sys,
             exec StopOnFailure.world StopOnFailure.schedule
                  (Process_start StopOnFailure.options StopOnFailure.world 0 ∅
                                 StopOnFailure.inflated) = Some sys
             /\ Process_returns sys = Some [1%nat]).
  { eexists. split; vm_compute; reflexivity. }
  assert (Hfresh : Forall fresh (Tasks StopOnFailure.inflated)).
  { vm_compute. repeat constructor. }
  assert (Hroom : 1 <= MaxParallelCmds StopOnFailure.options).
  { vm_compute. discriminate. }
  destruct Hsys as (sys & Hexec & Hreturns). exists sys.
  split; [exact Hexec|]. split; [exact Hreturns|].
  exact (proj2 (Process_returns_the_failed StopOnFailure.options StopOnFailure.world 0 ∅
                  StopOnFailure.inflated StopOnFailure.schedule sys [1%nat]
                  Hroom Hfresh Hexec Hreturns) 1%nat).
Defined.
